(** * libff scalar multiplication: wNAF, fixed-base windows and multi-exponentiation

    A shallow embedding of
      - [libff/algebra/scalar_multiplication/wnaf.tcc]
        ([find_wnaf], [fixed_window_wnaf_exp], [opt_window_wnaf_exp]),
      - [libff/algebra/scalar_multiplication/multiexp.tcc]
        ([multi_exp_inner] for the four method tags, [multi_exp],
        [multi_exp_with_mixed_addition], [inner_product],
        [get_exp_window_size], [get_window_table], [windowed_exp],
        [batch_exp], [batch_exp_with_coeff], [batch_to_special]),
      - [libff/algebra/exponentiation/exponentiation.tcc] ([power]),
    in the default build (no USE_MIXED_ADDITION, MULTICORE, DEBUG, LOWMEM or
    USE_ASM), on a 64-bit target (64-bit limbs and [size_t], 32-bit [int]).

    Conventions.
      - A [bigint<n>] is a [Z] in [[0, 2^(64 n))]; the [mpn_*] calls act on
        [n] limbs and drop the carry or borrow out of the top limb.
      - [size_t], [unsigned] and [int] expressions are integers of [Z] with
        the wrap-around of their C++ type written out where it can occur.
      - A [std::vector] is a [list]; reads are [!!] and writes are [<[_:=_]>];
        a read or a write outside the vector has no defined result and is
        [None] here, like a failed [ASSERT] and a division by zero.
      - A group element is an element of an abstract type with the group laws;
        [==] of the C++ classes is equality. *)

From Stdlib Require Import ZArith Lia Permutation Morphisms.
From AAC_tactics Require Import AAC.
From stdpp Require Import base tactics option list numbers.

Local Open Scope Z_scope.

(** ** Machine integers *)

Module Machine.

(** Value of [x] once stored in an unsigned type of [bits] bits. *)
Definition wrap (bits x : Z) : Z := x mod 2 ^ bits.

(** Value of [x] once stored in a two's complement type of [bits] bits. *)
Definition swrap (bits x : Z) : Z :=
  (x + 2 ^ (bits - 1)) mod 2 ^ bits - 2 ^ (bits - 1).

Definition size_t (x : Z) : Z := wrap 64 x.

(** [x << k] at type [unsigned int], [int] and [unsigned long].  C++ defines
    these for [k] below the width of the type only ([int]: up to C++17 for a
    representable result only); the theorems of this file stay in that
    range. *)
Definition shl_uint (x k : Z) : Z := wrap 32 (x * 2 ^ k).
Definition shl_int (x k : Z) : Z := swrap 32 (x * 2 ^ k).
Definition shl_ulong (x k : Z) : Z := wrap 64 (x * 2 ^ k).

Lemma shl_uint_small k : 0 <= k < 32 -> shl_uint 1 k = 2 ^ k.
Proof.
  intros Hk. unfold shl_uint, wrap. rewrite Z.mul_1_l.
  apply Z.mod_small. split; [apply Z.pow_nonneg; lia|].
  apply Z.pow_lt_mono_r; lia.
Qed.

Lemma shl_int_small k : 0 <= k < 31 -> shl_int 1 k = 2 ^ k.
Proof.
  intros Hk. unfold shl_int, swrap. rewrite Z.mul_1_l.
  assert (0 < 2 ^ k < 2 ^ 31)
    by (split; [apply Z.pow_pos_nonneg|apply Z.pow_lt_mono_r]; lia).
  change (2 ^ (32 - 1)) with 2147483648 in *.
  change (2 ^ 32) with 4294967296.
  rewrite Z.mod_small; lia.
Qed.

Lemma shl_ulong_small k : 0 <= k < 64 -> shl_ulong 1 k = 2 ^ k.
Proof.
  intros Hk. unfold shl_ulong, wrap. rewrite Z.mul_1_l.
  apply Z.mod_small. split; [apply Z.pow_nonneg; lia|].
  apply Z.pow_lt_mono_r; lia.
Qed.

Lemma size_t_small x : 0 <= x < 2 ^ 64 -> size_t x = x.
Proof. intros. unfold size_t, wrap. apply Z.mod_small. lia. Qed.

End Machine.

Import Machine.

(** ** [bigint<n>] *)

Module Bigint.

(** Modelled from the spec: the class [bigint<n>] ([bigint.hpp]) is not
    part of the sources; section 3 gives its operations: [n] limbs of 64 bits,
    [max_bits] is [n * 64], [num_bits] is the position of the highest set
    bit plus one (0 for zero), [test_bit k] is the [k]-th bit, [is_zero],
    [clear]. *)
Definition limb_bits : Z := 64.
Definition max_bits (n : Z) : Z := n * limb_bits.
Definition modulus_of (n : Z) : Z := 2 ^ max_bits n.
Definition in_range (n x : Z) : Prop := 0 <= x < modulus_of n.
Definition is_zero (x : Z) : bool := x =? 0.
Definition num_bits (x : Z) : Z := if x =? 0 then 0 else Z.log2 x + 1.
Definition test_bit (x k : Z) : bool := Z.testbit x k.
Definition clear (x : Z) : Z := 0.

(** [x.data[0]], the least significant limb. *)
Definition limb0 (x : Z) : Z := x mod 2 ^ limb_bits.

(** GMP's [mpn_add_1], [mpn_sub_1], [mpn_sub_n] on [n] limbs (the carry or
    borrow they return is ignored by every caller), [mpn_rshift] by one
    bit, [mpn_cmp]. *)
Definition mpn_add_1 (n x y : Z) : Z := (x + y) mod modulus_of n.
Definition mpn_sub_1 (n x y : Z) : Z := (x - y) mod modulus_of n.
Definition mpn_sub_n (n x y : Z) : Z := (x - y) mod modulus_of n.
Definition mpn_rshift1 (x : Z) : Z := Z.shiftr x 1.
Definition mpn_cmp (x y : Z) : comparison := x ?= y.

Lemma modulus_of_pos n : 0 <= n -> 0 < modulus_of n.
Proof.
  intros Hn. unfold modulus_of, max_bits, limb_bits.
  apply Z.pow_pos_nonneg; lia.
Qed.

Lemma num_bits_le x k : 0 <= x -> 0 <= k -> num_bits x <= k <-> x < 2 ^ k.
Proof.
  intros Hx Hk. unfold num_bits. destruct (Z.eqb_spec x 0) as [->|Hne].
  - split; [intros _; apply Z.pow_pos_nonneg; lia|lia].
  - rewrite Z.log2_lt_pow2 by lia. lia.
Qed.

Lemma num_bits_nonneg x : 0 <= num_bits x.
Proof.
  unfold num_bits. destruct (x =? 0); [lia|].
  pose proof (Z.log2_nonneg x). lia.
Qed.

Lemma num_bits_bound x : 0 <= x -> x < 2 ^ num_bits x.
Proof.
  intros Hx. apply num_bits_le; [done|apply num_bits_nonneg|lia].
Qed.

End Bigint.

Import Bigint.

(** ** The group capability *)

(** Modelled from the spec: the curve classes are not part of the sources.
    The operations a group class offers to the templates (section 6):
    [T::zero()], [+], unary [-], [dbl()], the default constructor used by
    [T result;], and the static table [T::wnaf_window_table]. *)
Class Group (T : Type) := {
  zero : T;
  add : T -> T -> T;
  neg : T -> T;
  dbl : T -> T;
  T_default : T;
  wnaf_window_table : list Z;
}.

Declare Scope group_scope.
Delimit Scope group_scope with G.
Infix "+" := add : group_scope.
Notation "- x" := (neg x) : group_scope.
Notation "x - y" := (add x (neg y)) : group_scope.

(** Modelled from the spec: the contract the curve classes (not part of the
    sources) meet by section 6: an abelian group, [dbl] is [x + x]; and
    their default constructor builds [zero] ("empty input returns identity",
    section 4.6). *)
Class GroupLaws (T : Type) `{Group T} : Prop := {
  add_assoc : forall x y z : T, (x + (y + z) = (x + y) + z)%G;
  add_comm : forall x y : T, (x + y = y + x)%G;
  add_zero_l : forall x : T, (zero + x = x)%G;
  add_neg_r : forall x : T, (x - x = zero)%G;
  dbl_add : forall x : T, dbl x = (x + x)%G;
  T_default_zero : T_default = zero;
}.

Section GroupFacts.
Context {T : Type} `{GroupLaws T}.

(** Modelled from the spec: the group's generic scalar multiplication
    [scalar * x] (section 6; its code is with the curve classes, not in the
    sources), the [k]-fold sum of [x]. *)
Definition gmul (k : Z) (x : T) : T :=
  match k with
  | Z0 => zero
  | Zpos p => Pos.iter_op add p x
  | Zneg p => neg (Pos.iter_op add p x)
  end.

Lemma add_zero_r (x : T) : (x + zero = x)%G.
Proof. rewrite add_comm. apply add_zero_l. Qed.

(** Sums are compared up to the order of their terms by [aac_reflexivity]. *)
#[global] Instance add_Associative : Associative eq add.
Proof. intros x y z. apply add_assoc. Qed.

#[global] Instance add_Commutative : Commutative eq add.
Proof. intros x y. apply add_comm. Qed.

#[global] Instance add_Unit : Unit eq add zero.
Proof. split; intros x; [apply add_zero_l|apply add_zero_r]. Qed.

#[global] Instance add_Proper : Proper (eq ==> eq ==> eq) add.
Proof. by intros ?? -> ?? ->. Qed.

#[global] Instance group_eq_lift : AAC_lift (@eq T) (@eq T).
Proof. split; [apply eq_equivalence|]. by intros ?? -> ?? ->. Qed.

Lemma add_neg_l (x : T) : (- x + x = zero)%G.
Proof. rewrite add_comm. apply add_neg_r. Qed.

Lemma add_cancel_r (x y z : T) : (x + z = y + z)%G -> x = y.
Proof.
  intros E. rewrite <- (add_zero_r x), <- (add_zero_r y), <- (add_neg_r z).
  rewrite !add_assoc. by rewrite E.
Qed.

Lemma neg_zero : (- zero)%G = zero.
Proof. rewrite <- (add_zero_l (- zero)%G). apply add_neg_r. Qed.

Lemma neg_add (x y : T) : (- (x + y) = - x + - y)%G.
Proof.
  apply (add_cancel_r _ _ (x + y)%G). rewrite add_neg_l.
  rewrite (add_comm x y), add_assoc, <- (add_assoc (- x)%G), add_neg_l.
  by rewrite add_zero_r, add_neg_l.
Qed.

Lemma neg_neg (x : T) : (- - x)%G = x.
Proof. apply (add_cancel_r _ _ (- x)%G). by rewrite add_neg_l, add_neg_r. Qed.

Lemma add_swap_r (x y z : T) : (x + y + z = x + z + y)%G.
Proof. by rewrite <- !add_assoc, (add_comm y z). Qed.

Lemma gmul_0 (x : T) : gmul 0 x = zero.
Proof. done. Qed.

Lemma gmul_1 (x : T) : gmul 1 x = x.
Proof. done. Qed.

Lemma gmul_succ (k : Z) (x : T) : gmul (Z.succ k) x = (gmul k x + x)%G.
Proof.
  destruct k as [|p|p]; simpl.
  - by rewrite add_zero_l.
  - rewrite Pos.add_1_r, Pos.iter_op_succ by apply add_assoc. apply add_comm.
  - destruct (Pos.eq_dec p 1%positive) as [->|Hp].
    + simpl. by rewrite add_neg_l.
    + destruct (Pos.succ_pred_or p) as [|E]; [done|].
      rewrite <- E at 2. rewrite Pos.iter_op_succ by apply add_assoc.
      rewrite neg_add, (add_comm (- x)%G), <- add_assoc, add_neg_l, add_zero_r.
      by replace (Z.succ (Z.neg p)) with (Z.neg (Pos.pred p)) by lia.
Qed.

Lemma gmul_pred (k : Z) (x : T) : gmul (Z.pred k) x = (gmul k x - x)%G.
Proof.
  rewrite <- (Z.succ_pred k) at 2. rewrite gmul_succ.
  by rewrite <- add_assoc, add_neg_r, add_zero_r.
Qed.

Lemma gmul_add (a b : Z) (x : T) : gmul (a + b) x = (gmul a x + gmul b x)%G.
Proof.
  revert b. apply Z.bi_induction.
  - intros ?? ->. done.
  - by rewrite Z.add_0_r, add_zero_r.
  - intros b. rewrite Z.add_succ_r, !gmul_succ, add_assoc. split.
    + by intros ->.
    + apply add_cancel_r.
Qed.

Lemma gmul_opp (a : Z) (x : T) : gmul (- a) x = (- gmul a x)%G.
Proof.
  apply (add_cancel_r _ _ (gmul a x)). rewrite <- gmul_add, add_neg_l.
  by rewrite Z.add_opp_diag_l.
Qed.

Lemma gmul_sub (a b : Z) (x : T) : gmul (a - b) x = (gmul a x - gmul b x)%G.
Proof. by rewrite <- Z.add_opp_r, gmul_add, gmul_opp. Qed.

Lemma gmul_zero (a : Z) : gmul a zero = zero.
Proof.
  revert a. apply Z.bi_induction.
  - intros ?? ->. done.
  - done.
  - intros a. rewrite gmul_succ, add_zero_r. done.
Qed.

Lemma gmul_add_r (a : Z) (x y : T) : gmul a (x + y)%G = (gmul a x + gmul a y)%G.
Proof.
  revert a. apply Z.bi_induction.
  - intros ?? ->. done.
  - by rewrite !gmul_0, add_zero_l.
  - intros a. rewrite !gmul_succ.
    replace (gmul a x + x + (gmul a y + y))%G
      with ((gmul a x + gmul a y) + (x + y))%G.
    + split; [by intros ->|apply add_cancel_r].
    + rewrite !add_assoc. f_equal. apply add_swap_r.
Qed.

Lemma gmul_mul (a b : Z) (x : T) : gmul (a * b) x = gmul a (gmul b x).
Proof.
  revert a. apply Z.bi_induction.
  - intros ?? ->. done.
  - done.
  - intros a. rewrite Z.mul_succ_l, gmul_add, gmul_succ. split.
    + by intros ->.
    + apply add_cancel_r.
Qed.

Lemma gmul_2 (x : T) : gmul 2 x = dbl x.
Proof. by rewrite dbl_add. Qed.

Lemma dbl_gmul (a : Z) (x : T) : dbl (gmul a x) = gmul (2 * a) x.
Proof. by rewrite gmul_mul, gmul_2. Qed.

End GroupFacts.

Global Arguments gmul : simpl never.

(** ** wNAF encoding and single-base exponentiation ([wnaf.tcc]) *)

Module Wnaf.

Section FindWnaf.
(** The template parameter [n]: the number of limbs of the scalar. *)
Variable n : Z.

(** One round of the loop of [find_wnaf] up to the shift: the digit [u]
    and the working copy [c] after [mpn_sub_1] or [mpn_add_1]. *)
Definition find_wnaf_digit (window_size c : Z) : Z * Z :=
  if Z.land (limb0 c) 1 =? 1 then
    let u := limb0 c mod shl_uint 1 (size_t (window_size + 1)) in
    let u := if u >? shl_int 1 window_size
             then u - shl_int 1 (size_t (window_size + 1)) else u in
    if u >? 0 then (u, mpn_sub_1 n c (size_t u))
    else (u, mpn_add_1 n c (size_t (- u)))
  else (0, c).

(** [while (!c.is_zero()) { ...; res[j] = u; ++j; c = c/2 }].  [slots] is
    [res.size() - j], the number of entries not yet written: with no slot
    left the write [res[j]] is outside the vector. *)
Fixpoint find_wnaf_loop (slots : nat) (window_size c : Z) (j : nat)
    (res : list Z) : option (list Z) :=
  if is_zero c then Some res
  else match slots with
       | O => None
       | S slots =>
           let '(u, c) := find_wnaf_digit window_size c in
           find_wnaf_loop slots window_size (mpn_rshift1 c) (S j)
             (<[j:=u]> res)
       end.

Definition find_wnaf (window_size scalar : Z) : option (list Z) :=
  let length := Z.to_nat (max_bits n) in
  find_wnaf_loop (length + 1) window_size scalar 0
    (replicate (length + 1) 0).

End FindWnaf.

(** The integer a digit sequence stands for: the sum of [d_j * 2^j]. *)
Fixpoint wnaf_value (d : list Z) : Z :=
  match d with
  | [] => 0
  | u :: d => u + 2 * wnaf_value d
  end.

Section Exp.
Context {T : Type} `{Group T}.
Variable n : Z.

(** [for (i = 0; i < count; ++i) { table[i] = tmp; tmp = tmp + dbl; }] *)
Fixpoint wnaf_table (count : nat) (tmp dbl : T) : list T :=
  match count with
  | O => []
  | S count => tmp :: wnaf_table count (tmp + dbl)%G dbl
  end.

(** The body of the second loop of [fixed_window_wnaf_exp] at digit [d]. *)
Definition wnaf_exp_step (table : list T) (d : Z) (st : T * bool)
    : option (T * bool) :=
  let '(res, found_nonzero) := st in
  let res := if found_nonzero then dbl res else res in
  if d =? 0 then Some (res, found_nonzero)
  else if d >? 0 then
    t ← table !! Z.to_nat (d / 2); Some ((res + t)%G, true)
  else
    t ← table !! Z.to_nat ((- d) / 2); Some ((res - t)%G, true).

(** The digits are visited from index [naf.size() - 1] down to 0. *)
Definition fixed_window_wnaf_exp (window_size : Z) (base : T) (scalar : Z)
    : option T :=
  naf ← find_wnaf n window_size scalar;
  let count := Z.to_nat (shl_ulong 1 (size_t (window_size - 1))) in
  let table := wnaf_table count base (dbl base) in
  st ← foldr (fun d st => st ≫= wnaf_exp_step table d)
         (Some (zero, false)) naf;
  Some (fst st).

(** [for (i = table.size() - 1; i >= 0; --i)
       if (scalar_bits >= table[i]) { best = i + 1; break; }]
    on the table read from its last entry. *)
Fixpoint wnaf_best (rev_table : list Z) (scalar_bits : Z) : Z :=
  match rev_table with
  | [] => 0
  | t :: rest =>
      if scalar_bits >=? t then Z.of_nat (length rev_table)
      else wnaf_best rest scalar_bits
  end.

Definition opt_window_wnaf_exp (base : T) (scalar : Z)
    (scalar_bits : Z) : option T :=
  let best := wnaf_best (reverse wnaf_window_table) scalar_bits in
  if best >? 0 then fixed_window_wnaf_exp best base scalar
  else Some (gmul scalar base).

End Exp.

End Wnaf.

Import Wnaf.

(** ** Multi-exponentiation ([multiexp.tcc]) *)

(** Modelled from the spec: the field classes are not part of the sources.
    A scalar of [FieldT] is represented by the integer [as_bigint()] returns,
    which lies below the field's modulus and fits [FieldT::num_limbs] limbs;
    [== zero] and [== one] compare it with 0 and 1. *)
Class Scalar := {
  num_limbs : Z;
  modulus : Z;
}.

Definition as_bigint (s : Z) : Z := s.

Definition in_field `{Scalar} (s : Z) : Prop := 0 <= s < modulus.

Inductive multi_exp_method :=
  | multi_exp_method_naive
  | multi_exp_method_naive_plain
  | multi_exp_method_BDLO12
  | multi_exp_method_bos_coster.

(** [ordered_exponent<n>]: a heap node of Bos-Coster. *)
Record ordered_exponent := OrderedExponent { idx : nat; r : Z }.

(** [operator<], the portable path: [mpn_cmp(this->r, other.r) < 0]. *)
Definition oe_lt (x y : ordered_exponent) : bool :=
  match mpn_cmp (r x) (r y) with Lt => true | _ => false end.

(** [std::make_heap] of the C++ standard library, whose arrangement of the
    nodes is left to the implementation. *)
Class StdHeap := {
  make_heap : list ordered_exponent -> list ordered_exponent;
}.

(** Modelled from the spec: the body of [log2] is in [utils.cpp], not part of
    the sources.  Its declaration in [utils.hpp] is, and documents the
    result: "returns ceil(log2(n)), so 1ul<<log2(n) is the smallest power of
    2, that is not less than n"; the definition follows the declaration. *)
Definition log2 (n : Z) : Z := Z.log2_up n.

(** [std::swap(v[i], v[j])]. *)
Definition swap {A} (v : list A) (i j : nat) : option (list A) :=
  x ← v !! i; y ← v !! j; Some (<[i:=y]> (<[j:=x]> v)).

(** Runs [step] until it breaks with a result ([inr]), at most [2^k] times. *)
Fixpoint iter_pow2 {S R} (k : nat) (step : S -> option (S + R)) (s : S)
    : option (S + R) :=
  match k with
  | O => step s
  | S k =>
      match iter_pow2 k step s with
      | Some (inl s') => iter_pow2 k step s'
      | other => other
      end
  end.

Section MultiExp.
Context {T : Type} `{Group T} `{Scalar} `{StdHeap}.

(** *** Naive and NaivePlain *)

(** The loop over both iterators; [ASSERT(scalar_it == scalar_end)] fails
    when the scalars are more than the bases, and with fewer scalars the
    loop reads past [scalar_end]. *)
Fixpoint naive_loop (result : T) (vec : list T) (scalars : list Z)
    : option T :=
  match vec, scalars with
  | [], [] => Some result
  | v :: vec, s :: scalars =>
      let scalar_bigint := as_bigint s in
      e ← opt_window_wnaf_exp num_limbs v scalar_bigint
            (num_bits scalar_bigint);
      naive_loop (result + e)%G vec scalars
  | _, _ => None
  end.

Fixpoint naive_plain_loop (result : T) (vec : list T) (scalars : list Z)
    : option T :=
  match vec, scalars with
  | [], [] => Some result
  | v :: vec, s :: scalars =>
      naive_plain_loop (result + gmul s v)%G vec scalars
  | _, _ => None
  end.

(** *** BDLO12 *)

(** [c = log2_length - (log2_length / 3 - 2)] in [size_t]. *)
Definition bdlo12_c (length : Z) : Z :=
  let log2_length := log2 length in
  size_t (log2_length - size_t (log2_length / 3 - 2)).

(** [for (j = 0; j < c; j++) if (e.test_bit(k*c + j)) id |= 1 << j;] *)
Definition bdlo12_id (c k e : Z) : Z :=
  foldl (fun id j =>
           if test_bit e (k * c + j) then Z.lor id (size_t (shl_int 1 j))
           else id)
    0 (seqZ 0 c).

(** The body of the loop over the bases: one base goes to its bucket. *)
Definition bdlo12_bucket (c k : Z) (st : list T * list bool)
    (be : T * Z) : option (list T * list bool) :=
  let '(buckets, bucket_nonzero) := st in
  let id := Z.to_nat (bdlo12_id c k (snd be)) in
  if (id =? 0)%nat then Some st
  else
    nz ← bucket_nonzero !! id;
    b ← buckets !! id;
    if nz : bool then Some (<[id:=(b + fst be)%G]> buckets, bucket_nonzero)
    else Some (<[id:=fst be]> buckets, <[id:=true]> bucket_nonzero).

(** The loop [for (i = (1u << c) - 1; i > 0; i--)] from [i] down to 1 on
    [(running_sum, running_sum_nonzero, result, result_nonzero)]. *)
Fixpoint bdlo12_sum (i : nat) (buckets : list T) (bucket_nonzero : list bool)
    (st : T * bool * T * bool) : option (T * bool * T * bool) :=
  match i with
  | O => Some st
  | S i' =>
      let '(running_sum, running_sum_nonzero, result, result_nonzero) := st in
      nz ← bucket_nonzero !! i;
      '(running_sum, running_sum_nonzero) ←
        (if nz : bool then
           b ← buckets !! i;
           Some (if running_sum_nonzero : bool
                 then (running_sum + b)%G else b, true)
         else Some (running_sum, running_sum_nonzero));
      let '(result, result_nonzero) :=
        if running_sum_nonzero : bool
        then (if result_nonzero : bool
              then (result + running_sum)%G else running_sum, true)
        else (result, result_nonzero) in
      bdlo12_sum i' buckets bucket_nonzero
        (running_sum, running_sum_nonzero, result, result_nonzero)
  end.

(** The body of the loop over the windows, at window [k]. *)
Definition bdlo12_window (c k : Z) (bases : list T) (bn_exponents : list Z)
    (st : T * bool) : option (T * bool) :=
  let '(result, result_nonzero) := st in
  let result :=
    if result_nonzero then Nat.iter (Z.to_nat c) dbl result else result in
  let size := Z.to_nat (size_t (shl_int 1 c)) in
  '(buckets, bucket_nonzero) ←
    foldl (fun st be => st ≫= fun st => bdlo12_bucket c k st be)
      (Some (replicate size T_default, replicate size false))
      (zip bases bn_exponents);
  let top := Z.to_nat (size_t (wrap 32 (shl_uint 1 c - 1))) in
  '(_, _, result, result_nonzero) ←
    bdlo12_sum top buckets bucket_nonzero
      (T_default, false, result, result_nonzero);
  Some (result, result_nonzero).

(** [for (size_t k = num_groups - 1; k <= num_groups; k--)]: the windows
    [num_groups - 1] down to 0; the decrement at 0 wraps around and ends the
    loop, and with no group the first value of [k] is already above
    [num_groups]. *)
Fixpoint bdlo12_windows (k : nat) (c : Z) (bases : list T)
    (bn_exponents : list Z) (st : T * bool) : option (T * bool) :=
  match k with
  | O => Some st
  | S k' =>
      st ← bdlo12_window c (Z.of_nat k') bases bn_exponents st;
      bdlo12_windows k' c bases bn_exponents st
  end.

(** [exponents_end] is unused: the first [length] exponents are read. *)
Definition multi_exp_inner_BDLO12 (bases : list T) (exponents : list Z)
    : option T :=
  let length := length bases in
  let c := bdlo12_c (Z.of_nat length) in
  if (List.length exponents <? length)%nat then None
  else
    let bn_exponents := as_bigint <$> take length exponents in
    let num_bits :=
      foldl (fun m e => Z.max m (num_bits e)) 0 bn_exponents in
    let num_groups := size_t (num_bits + c - 1) / c in
    st ← bdlo12_windows (Z.to_nat num_groups) c bases bn_exponents
           (T_default, false);
    Some (fst st).

(** *** Bos-Coster *)

(** "heapify A down": [while (2*a_pos + 2 < odd_vec_len)] swap with the
    larger child.  [fuel] bounds the rounds; [a_pos] grows in each, so
    [odd_vec_len] rounds are never used up. *)
Fixpoint heapify_down (fuel : nat) (odd_vec_len : nat)
    (opt_q : list ordered_exponent) (a_pos : nat)
    : option (list ordered_exponent * nat) :=
  if (2 * a_pos + 2 <? odd_vec_len)%nat then
    match fuel with
    | O => None
    | S fuel =>
        l ← opt_q !! (2 * a_pos + 1)%nat;
        r ← opt_q !! (2 * a_pos + 2)%nat;
        if oe_lt l r then
          opt_q ← swap opt_q a_pos (2 * a_pos + 2);
          heapify_down fuel odd_vec_len opt_q (2 * a_pos + 2)
        else
          opt_q ← swap opt_q a_pos (2 * a_pos + 1);
          heapify_down fuel odd_vec_len opt_q (2 * a_pos + 1)
    end
  else Some (opt_q, a_pos).

(** "heapify A up": [while (a_pos > 0 && opt_q[(a_pos-1)/2] < opt_q[a_pos])].
    [a_pos] shrinks in each round. *)
Fixpoint heapify_up (fuel : nat) (opt_q : list ordered_exponent)
    (a_pos : nat) : option (list ordered_exponent) :=
  if (0 <? a_pos)%nat then
    p ← opt_q !! ((a_pos - 1) / 2)%nat;
    x ← opt_q !! a_pos;
    if oe_lt p x then
      match fuel with
      | O => None
      | S fuel =>
          opt_q ← swap opt_q a_pos ((a_pos - 1) / 2);
          heapify_up fuel opt_q ((a_pos - 1) / 2)
      end
    else Some opt_q
  else Some opt_q.

Definition set_r (e : ordered_exponent) (x : Z) : ordered_exponent :=
  {| idx := idx e; r := x |}.

(** One round of the [while (true)] loop on [(opt_q, g, opt_result)]:
    [inr] is the [break] with the final [opt_result]. *)
Definition bos_coster_step (odd_vec_len : nat)
    (st : list ordered_exponent * list T * T)
    : option (list ordered_exponent * list T * T + T) :=
  let '(opt_q, g, opt_result) := st in
  a ← opt_q !! 0%nat;
  q1 ← opt_q !! 1%nat;
  q2 ← opt_q !! 2%nat;
  let b := if oe_lt q1 q2 then q2 else q1 in
  let abits := num_bits (r a) in
  ga ← g !! idx a;
  if is_zero (r b) then
    e ← opt_window_wnaf_exp num_limbs ga (r a) abits;
    Some (inr (opt_result + e)%G)
  else
    let bbits := num_bits (r b) in
    let limit :=
      if size_t (abits - bbits) >=? 20 then 20 else size_t (abits - bbits) in
    '(opt_q, g, opt_result) ←
      (if bbits <? shl_ulong 1 limit then
         e ← opt_window_wnaf_exp num_limbs ga (r a) abits;
         Some (<[0%nat:=set_r a (clear (r a))]> opt_q, g, (opt_result + e)%G)
       else
         gb ← g !! idx b;
         Some (<[0%nat:=set_r a (mpn_sub_n num_limbs (r a) (r b))]> opt_q,
               <[idx b:=(gb + ga)%G]> g, opt_result));
    '(opt_q, a_pos) ← heapify_down odd_vec_len odd_vec_len opt_q 0;
    opt_q ← heapify_up a_pos opt_q a_pos;
    Some (inl (opt_q, g, opt_result)).

(** The nodes [(i, scalars[i].as_bigint())]. *)
Definition bos_coster_nodes (scalars : list Z) : list ordered_exponent :=
  imap (fun i s => OrderedExponent i (as_bigint s)) scalars.

(** The set-up before the loop: [odd_vec_len] and the first
    [(opt_q, g, opt_result)]. *)
Definition bos_coster_init (vec : list T) (scalars : list Z)
    : option (nat * (list ordered_exponent * list T * T)) :=
  let vec_len := length scalars in
  let odd_vec_len :=
    if (vec_len mod 2 =? 1)%nat then vec_len else (vec_len + 1)%nat in
  (* the loop reads past [scalar_end] with fewer scalars than bases, and
     [ASSERT(scalar_it == scalar_end)] fails with more *)
  if negb (length scalars =? length vec)%nat then None
  else
    let g := vec in
    let opt_q := make_heap (bos_coster_nodes scalars) in
    let '(g, opt_q) :=
      if negb (vec_len =? odd_vec_len)%nat
      then (g ++ [zero], opt_q ++ [OrderedExponent (odd_vec_len - 1) 0])
      else (g, opt_q) in
    if negb ((length g mod 2 =? 1)%nat && (length opt_q =? length g)%nat)
    then None
    else Some (odd_vec_len, (opt_q, g, zero)).

(** The [while (true)] loop runs for at most [2^k] rounds here, with [k]
    the number of bits of the scalars plus the number of nodes; each round
    but the last takes at least 1 from the sum of the residuals. *)
Definition multi_exp_inner_bos_coster (vec : list T) (scalars : list Z)
    : option T :=
  match vec, scalars with
  | [], _ => Some zero
  | [v], s :: _ => Some (gmul s v)
  | [_], [] => None
  | _, _ =>
      '(odd_vec_len, st) ← bos_coster_init vec scalars;
      match iter_pow2 (Z.to_nat (max_bits num_limbs) + odd_vec_len)
              (bos_coster_step odd_vec_len) st with
      | Some (inr opt_result) => Some opt_result
      | _ => None
      end
  end.

(** *** The entry points *)

Definition multi_exp_inner (Method : multi_exp_method) (vec : list T)
    (scalars : list Z) : option T :=
  match Method with
  | multi_exp_method_naive => naive_loop zero vec scalars
  | multi_exp_method_naive_plain => naive_plain_loop zero vec scalars
  | multi_exp_method_BDLO12 => multi_exp_inner_BDLO12 vec scalars
  | multi_exp_method_bos_coster => multi_exp_inner_bos_coster vec scalars
  end.

(** The ranges [[start + lo, start + hi)] and [[start + lo, end)]. *)
Definition range {A} (v : list A) (lo hi : nat) : list A :=
  take (hi - lo) (drop lo v).

(** [partial[i]] of [multi_exp]. *)
Definition multi_exp_chunk (Method : multi_exp_method) (vec : list T)
    (scalars : list Z) (chunks one i : nat) : option T :=
  if (i =? chunks - 1)%nat then
    multi_exp_inner Method (drop (i * one) vec) (drop (i * one) scalars)
  else
    multi_exp_inner Method (range vec (i * one) ((i + 1) * one))
      (range scalars (i * one) ((i + 1) * one)).

(** [chunks == 0] divides by zero in [total / chunks]. *)
Definition multi_exp (Method : multi_exp_method) (vec : list T)
    (scalars : list Z) (chunks : nat) : option T :=
  let total := length vec in
  if ((total <? chunks) || (chunks =? 1))%nat then
    multi_exp_inner Method vec scalars
  else if (chunks =? 0)%nat then None
  else
    let one := (total / chunks)%nat in
    partial ← mapM (multi_exp_chunk Method vec scalars chunks one)
                (seq 0 chunks);
    Some (foldl add zero partial).

(** The loop of [multi_exp_with_mixed_addition] on [(acc, p, g)]. *)
Fixpoint mixed_addition_loop (scalars : list Z) (vec : list T)
    (st : T * list Z * list T) : option (T * list Z * list T) :=
  match scalars, vec with
  | [], _ => Some st
  | s :: scalars, v :: vec =>
      let '(acc, p, g) := st in
      mixed_addition_loop scalars vec
        (if s =? 0 then (acc, p, g)
         else if s =? 1 then ((acc + v)%G, p, g)
         else (acc, p ++ [s], g ++ [v]))
  | _ :: _, [] => None
  end.

Definition multi_exp_with_mixed_addition (Method : multi_exp_method)
    (vec : list T) (scalars : list Z) (chunks : nat) : option T :=
  if negb (length vec =? length scalars)%nat then None
  else
    '(acc, p, g) ← mixed_addition_loop scalars vec (zero, [], []);
    e ← multi_exp Method g p chunks;
    Some (acc + e)%G.

(** *** Fixed-base windows *)

(** [for (inner = 0; inner < cur_in_window; ++inner)
       { powers_of_g[outer][inner] = ginner; ginner = ginner + gouter; }]
    on the row [powers_of_g[outer]]. *)
Fixpoint window_row (count inner : nat) (ginner gouter : T) (row : list T)
    : option (list T) :=
  match count with
  | O => Some row
  | S count =>
      if decide (inner < length row)%nat then
        window_row count (S inner) (ginner + gouter)%G gouter
          (<[inner:=ginner]> row)
      else None
  end.

(** The loop over [outer], with [count] rounds left. *)
Fixpoint window_rows (count outer : nat) (outerc in_window last_in_window : Z)
    (window : Z) (gouter : T) (powers_of_g : list (list T))
    : option (list (list T)) :=
  match count with
  | O => Some powers_of_g
  | S count =>
      let cur_in_window :=
        if Z.of_nat outer =? size_t (outerc - 1)
        then last_in_window else in_window in
      row ← powers_of_g !! outer;
      row ← window_row (Z.to_nat cur_in_window) 0 zero gouter row;
      window_rows count (S outer) outerc in_window last_in_window window
        (Nat.iter (Z.to_nat window) (fun x => x + x)%G gouter)
        (<[outer:=row]> powers_of_g)
  end.

(** [window == 0] divides by zero. *)
Definition get_window_table (scalar_size window : Z) (g : T)
    : option (list (list T)) :=
  if window =? 0 then None
  else
    let in_window := shl_ulong 1 window in
    let outerc := size_t (scalar_size + window - 1) / window in
    let last_in_window :=
      shl_ulong 1
        (size_t (scalar_size - size_t (size_t (outerc - 1) * window))) in
    let powers_of_g :=
      replicate (Z.to_nat outerc) (replicate (Z.to_nat in_window) zero) in
    window_rows (Z.to_nat outerc) 0 outerc in_window last_in_window window
      g powers_of_g.

(** [for (i = 0; i < window; ++i)
       if (pow_val.test_bit(outer*window + i)) inner |= 1u << i;] *)
Definition window_inner (window outer pow_val : Z) : Z :=
  foldl (fun inner i =>
           if test_bit pow_val (outer * window + i)
           then Z.lor inner (shl_uint 1 i) else inner)
    0 (seqZ 0 window).

Definition windowed_exp (scalar_size window : Z)
    (powers_of_g : list (list T)) (pow : Z) : option T :=
  if window =? 0 then None
  else
    let outerc := size_t (scalar_size + window - 1) / window in
    let pow_val := as_bigint pow in
    res ← powers_of_g !! 0%nat ≫= (.!! 0%nat);
    foldl (fun res outer =>
             res ← res;
             row ← powers_of_g !! Z.to_nat outer;
             t ← row !! Z.to_nat (window_inner window outer pow_val);
             Some (res + t)%G)
      (Some res) (seqZ 0 outerc).

End MultiExp.

(** *** Inner product *)

Section InnerProduct.
Context {T : Type} `{Group T}.

(** The product of two elements of [T]; the field classes are not part of
    the sources. *)
Variable mul : T -> T -> T.

(** [multi_exp_inner<T, T, multi_exp_method_naive_plain>]: the NaivePlain
    loop with [T] for [FieldT], where the scalar times the base is the
    product of [T]. *)
Fixpoint naive_plain_loop_T (result : T) (vec scalars : list T) : option T :=
  match vec, scalars with
  | [], [] => Some result
  | v :: vec, s :: scalars =>
      naive_plain_loop_T (result + mul s v)%G vec scalars
  | _, _ => None
  end.

(** [multi_exp<T, T, multi_exp_method_naive_plain>(a, b, 1)]: with one chunk
    [multi_exp] calls [multi_exp_inner] directly. *)
Definition inner_product (a b : list T) : option T :=
  naive_plain_loop_T zero a b.

End InnerProduct.

(** *** The window for a number of scalars, and batches *)

(** The loop of [get_exp_window_size],
    [for (i = table.size() - 1; i >= 0; --i)
       if (table[i] != 0 && num_scalars >= table[i])
         { window = i + 1; break; }],
    on the table read from its last entry; [window] stays 1 when no entry
    qualifies. *)
Fixpoint exp_window_scan (rev_table : list Z) (num_scalars : Z) : Z :=
  match rev_table with
  | [] => 1
  | t :: rest =>
      if negb (t =? 0) && (num_scalars >=? t)
      then Z.of_nat (length rev_table)
      else exp_window_scan rest num_scalars
  end.

(** The static table [T::fixed_base_exp_window_table] belongs to the curve
    classes, which are not part of the sources: it is the first argument.
    An empty table gives 17 (no LOWMEM). *)
Definition get_exp_window_size (fixed_base_exp_window_table : list Z)
    (num_scalars : Z) : Z :=
  match fixed_base_exp_window_table with
  | [] => 17
  | _ => exp_window_scan (reverse fixed_base_exp_window_table) num_scalars
  end.

Section Batch.
Context {T : Type} `{Group T}.

(** [for (i = 0; i < v.size(); ++i) res[i] = f(v[i]);] from index [i] on,
    with [v] the scalars from [v[i]] on. *)
Fixpoint batch_loop (f : Z -> option T) (v : list Z) (i : nat)
    (res : list T) : option (list T) :=
  match v with
  | [] => Some res
  | vi :: v =>
      e ← f vi;
      if decide (i < length res)%nat
      then batch_loop f v (S i) (<[i:=e]> res)
      else None
  end.

(** [res] starts as [v.size()] copies of [table[0][0]]. *)
Definition batch_exp (scalar_size window : Z) (table : list (list T))
    (v : list Z) : option (list T) :=
  t00 ← table !! 0%nat ≫= (.!! 0%nat);
  batch_loop (windowed_exp scalar_size window table) v 0
    (replicate (length v) t00).

(** The product [coeff * v[i]] of [FieldT] belongs to the field classes,
    which are not part of the sources: it is the argument [field_mul]. *)
Definition batch_exp_with_coeff (field_mul : Z -> Z -> Z)
    (scalar_size window : Z) (table : list (list T)) (coeff : Z)
    (v : list Z) : option (list T) :=
  t00 ← table !! 0%nat ≫= (.!! 0%nat);
  batch_loop
    (fun vi => windowed_exp scalar_size window table (field_mul coeff vi))
    v 0 (replicate (length v) t00).

End Batch.

(** *** Batch conversion to the special form *)

(** The members [is_zero()], [to_special()] and the static
    [batch_to_special_all_non_zeros] of the curve classes, which are not part
    of the sources. *)
Class Special (T : Type) := {
  T_is_zero : T -> bool;
  to_special : T -> T;
  batch_to_special_all_non_zeros : list T -> list T;
}.

Section BatchToSpecial.
Context {T : Type} `{Group T} `{Special T}.

(** The second loop of [batch_to_special]: a non-zero [vec[i]] becomes [*it]
    and [it] moves on, a zero one becomes [zero_special].  Reading [*it] at
    the end of [non_zero_vec] has no defined result. *)
Fixpoint batch_to_special_refill (vec it : list T) (zero_special : T)
    : option (list T) :=
  match vec with
  | [] => Some []
  | x :: vec =>
      if negb (T_is_zero x) then
        match it with
        | [] => None
        | y :: it =>
            rest ← batch_to_special_refill vec it zero_special;
            Some (y :: rest)
        end
      else
        rest ← batch_to_special_refill vec it zero_special;
        Some (zero_special :: rest)
  end.

(** The first loop collects the non-zero elements in [non_zero_vec]. *)
Definition batch_to_special (vec : list T) : option (list T) :=
  let non_zero_vec := List.filter (fun x => negb (T_is_zero x)) vec in
  let non_zero_vec := batch_to_special_all_non_zeros non_zero_vec in
  let zero_special := to_special zero in
  batch_to_special_refill vec non_zero_vec zero_special.

End BatchToSpecial.

(** ** Square-and-multiply exponentiation ([exponentiation.tcc]) *)

Module Exponentiation.

(** What [power] uses of [FieldT]: [FieldT::one()] and the product.  The
    field classes are not part of the sources. *)
Class Field (FieldT : Type) := {
  one : FieldT;
  mul : FieldT -> FieldT -> FieldT;
}.

Section Power.
Context {FieldT : Type} `{Field FieldT}.

(** The body of the loop of [power] at bit [i]. *)
Definition power_step (base : FieldT) (exponent i : Z)
    (st : FieldT * bool) : FieldT * bool :=
  let '(result, found_one) := st in
  let result := if found_one then mul result result else result in
  if test_bit exponent (size_t i) then (mul result base, true)
  else (result, found_one).

(** [for (long i = ...; i >= 0; --i)] with [count] rounds left: the bits
    [count - 1] down to 0. *)
Fixpoint power_loop (base : FieldT) (exponent : Z) (count : nat)
    (st : FieldT * bool) : FieldT * bool :=
  match count with
  | O => st
  | S i => power_loop base exponent i (power_step base exponent (Z.of_nat i) st)
  end.

(** [power(base, bigint<m>)]: the loop starts at
    [static_cast<long>(exponent.max_bits() - 1)]. *)
Definition power (m : Z) (base : FieldT) (exponent : Z) : FieldT :=
  let start := swrap 64 (size_t (max_bits m - 1)) in
  fst (power_loop base exponent (Z.to_nat (start + 1)) (one, false)).

(** [power(base, unsigned long)] is [power(base, bigint<1>(exponent))]. *)
Definition power_ulong (base : FieldT) (exponent : Z) : FieldT :=
  power 1 base exponent.

End Power.

(** The laws of the product that [power] relies on. *)
Class FieldLaws (FieldT : Type) `{Field FieldT} : Prop := {
  mul_assoc : forall x y z : FieldT, mul x (mul y z) = mul (mul x y) z;
  mul_one_l : forall x : FieldT, mul one x = x;
  mul_one_r : forall x : FieldT, mul x one = x;
}.

(** The product of [k] copies of [x]. *)
Fixpoint pow_n {FieldT : Type} `{Field FieldT} (x : FieldT) (k : nat)
    : FieldT :=
  match k with
  | O => one
  | S k => mul x (pow_n x k)
  end.

End Exponentiation.

(** ** Contracts and specification functions *)

(** The sum of [s_i * P_i], by the group's scalar multiplication. *)
Fixpoint msm {T : Type} `{Group T} (vec : list T) (scalars : list Z) : T :=
  match vec, scalars with
  | v :: vec, s :: scalars => (gmul s v + msm vec scalars)%G
  | _, _ => zero
  end.

(** The parameters a scalar field and a group come with: the limbs hold the
    modulus and leave room for the widest wNAF window above it, the wNAF
    table selects windows of at most 29 bits ([find_wnaf] shifts [int]s), and
    [max_bits] is far from the end of [size_t]. *)
Class Headroom (T : Type) `{Group T} `{Scalar} : Prop := {
  num_limbs_range : 1 <= num_limbs <= 2 ^ 32;
  modulus_range : 2 <= modulus;
  wnaf_table_short : (length wnaf_window_table <= 29)%nat;
  modulus_room :
    modulus + 2 ^ Z.of_nat (length wnaf_window_table) <= 2 ^ (64 * num_limbs);
}.

(** Node [j] is a child of node [i]. *)
Definition child (i j : nat) : Prop := j = (2 * i + 1)%nat \/ j = (2 * i + 2)%nat.

(** The max-heap order on the residuals. *)
Definition is_heap (q : list ordered_exponent) : Prop :=
  forall i j x y, child i j -> q !! i = Some x -> q !! j = Some y -> r y <= r x.

(** What [std::make_heap] promises: the same nodes, in heap order. *)
Class StdHeapLaws `{StdHeap} : Prop := {
  make_heap_perm : forall l, make_heap l ≡ₚ l;
  make_heap_is_heap : forall l, is_heap (make_heap l);
}.

(** The states the main loop goes through from the state [st0] it starts in. *)
Inductive bos_coster_reachable {T : Type} `{Group T} `{Scalar}
    (odd_vec_len : nat) (st0 : list ordered_exponent * list T * T)
    : list ordered_exponent * list T * T -> Prop :=
  | reach_init : bos_coster_reachable odd_vec_len st0 st0
  | reach_step st st' :
      bos_coster_reachable odd_vec_len st0 st ->
      bos_coster_step odd_vec_len st = Some (inl st') ->
      bos_coster_reachable odd_vec_len st0 st'.

(** ** Instances used to run the definitions *)

(** The integers under addition, with no wNAF table and with one. *)
Definition Z_group (table : list Z) : Group Z :=
  {| zero := 0; add := Z.add; neg := Z.opp; dbl := fun x => 2 * x;
     T_default := 0; wnaf_window_table := table |}.

Lemma Z_group_laws table : @GroupLaws Z (Z_group table).
Proof. split; simpl; intros; lia. Qed.

(** A descending insertion sort: a sorted vector is a heap. *)
Fixpoint insert_desc (x : ordered_exponent) (l : list ordered_exponent)
    : list ordered_exponent :=
  match l with
  | [] => [x]
  | y :: l' => if r y <? r x then x :: l else y :: insert_desc x l'
  end.

Definition sort_desc (l : list ordered_exponent) : list ordered_exponent :=
  foldr insert_desc [] l.

Definition sorting_heap : StdHeap := {| make_heap := sort_desc |}.

Definition scalar_64 : Scalar := {| num_limbs := 1; modulus := 2 ^ 62 |}.

(** A one-limb field whose modulus, the largest prime below [2^64], leaves
    no room above it; the integers with a wNAF table of six windows, and
    with one of thirty. *)
Definition scalar_tight : Scalar :=
  {| num_limbs := 1; modulus := 2 ^ 64 - 59 |}.

Definition Z_group_6 : Group Z := Z_group [1; 3; 5; 9; 15; 30].

Definition Z_group_30 : Group Z := Z_group (replicate 30 1).

(** The integers under multiplication. *)
Definition Z_field : Exponentiation.Field Z :=
  {| Exponentiation.one := 1; Exponentiation.mul := Z.mul |}.

(** Pairs [(x, z)] standing for the integer [x * z], with [z] 1 or -1; the
    special form has [z = 1]. *)
Definition signed_group : Group (Z * Z) :=
  {| zero := (0, 1);
     add := fun a b => (a.1 * a.2 + b.1 * b.2, 1);
     neg := fun a => (- a.1, a.2);
     dbl := fun a => (2 * a.1 * a.2, 1);
     T_default := (0, 1);
     wnaf_window_table := [] |}.

Definition signed_special : Special (Z * Z) :=
  {| T_is_zero := fun a => a.1 =? 0;
     to_special := fun a => (a.1 * a.2, 1);
     batch_to_special_all_non_zeros := fmap (fun a => (a.1 * a.2, 1)) |}.

(** ** Properties of [find_wnaf] *)

Section FindWnafFacts.
Variables n w : Z.
Hypothesis n_pos : 1 <= n.
Hypothesis w_range : 1 <= w <= 29.

Let M := modulus_of n.

(** The digit [find_wnaf] emits at the working copy [c]. *)
Definition wnaf_digit (c : Z) : Z :=
  if Z.odd c then
    let r := c mod 2 ^ (w + 1) in
    if r >? 2 ^ w then r - 2 ^ (w + 1) else r
  else 0.

Definition digit_ok (u : Z) : Prop :=
  u = 0 \/ (Z.odd u = true /\ Z.abs u <= 2 ^ w - 1).

Definition leading_zeros (m : nat) (ds : list Z) : Prop :=
  forall i u, ds !! i = Some u -> (i < m)%nat -> u = 0.

Definition zero_from (k : nat) (ds : list Z) : Prop :=
  forall j u, ds !! j = Some u -> (k <= j)%nat -> u = 0.

Definition wnaf_separated (ds : list Z) : Prop :=
  forall i j ui uj, ds !! i = Some ui -> ds !! j = Some uj ->
    ui <> 0 -> uj <> 0 -> (i < j)%nat -> Z.of_nat i + w < Z.of_nat j.

(** No carry leaves the [n] limbs at the working copy [c]. *)
Definition no_carry (c : Z) : Prop := Z.odd c = true -> c + 2 ^ w <= M.

Local Lemma pow_w : 2 <= 2 ^ w /\ 2 ^ (w + 1) = 2 * 2 ^ w /\ 2 ^ w <= 2 ^ 29.
Proof.
  split; [|split].
  - change 2 with (2 ^ 1) at 1. apply Z.pow_le_mono_r; lia.
  - rewrite Z.pow_add_r by lia. lia.
  - apply Z.pow_le_mono_r; lia.
Qed.

Local Lemma M_big : 2 ^ 64 <= M /\ exists q, M = q * 2 ^ 64 /\ 0 < q.
Proof.
  unfold M, modulus_of, max_bits, limb_bits. split.
  - apply Z.pow_le_mono_r; lia.
  - exists (2 ^ ((n - 1) * 64)). split.
    + rewrite <- Z.pow_add_r by lia. f_equal. lia.
    + apply Z.pow_pos_nonneg; lia.
Qed.

Local Lemma wnaf_digit_cases c :
  0 <= c ->
  (Z.odd c = false /\ wnaf_digit c = 0) \/
  (Z.odd c = true /\ Z.odd (wnaf_digit c) = true /\
   Z.abs (wnaf_digit c) <= 2 ^ w - 1 /\
   exists q, 0 <= q /\ c - wnaf_digit c = q * 2 ^ (w + 1) /\
     (0 < wnaf_digit c \/ (wnaf_digit c < 0 /\ (q - 1) * 2 ^ (w + 1) < c))).
Proof.
  intros Hc. unfold wnaf_digit. destruct (Z.odd c) eqn:Hodd; [right|by left].
  split; [done|]. destruct pow_w as (Hw2 & Hw1 & _).
  pose proof (Z.div_mod c (2 ^ (w + 1)) ltac:(lia)) as Hdm.
  pose proof (Z.mod_pos_bound c (2 ^ (w + 1)) ltac:(lia)) as Hr.
  pose proof (Z.div_pos c (2 ^ (w + 1)) ltac:(lia) ltac:(lia)) as Hq.
  set (r := c mod 2 ^ (w + 1)) in *. set (q := c / 2 ^ (w + 1)) in *.
  assert (Z.odd r = true) as Hrodd.
  { replace r with (c + 2 * (- q * 2 ^ w)) by lia.
    by rewrite Z.odd_add_mul_2. }
  assert (Z.odd (2 ^ w) = false) as Hwev.
  { replace w with (Z.succ (w - 1)) by lia. rewrite Z.pow_succ_r by lia.
    by rewrite Z.odd_mul. }
  assert (r <> 2 ^ w) by (intros E; rewrite E in Hrodd; congruence).
  assert (r <> 0) by (intros E; rewrite E in Hrodd; done).
  destruct (Z.gtb_spec r (2 ^ w)) as [Hgt|Hle].
  - split; [|split].
    + replace (r - 2 ^ (w + 1)) with (r + 2 * (- 2 ^ w)) by lia.
      by rewrite Z.odd_add_mul_2.
    + lia.
    + exists (q + 1). split; [lia|]. split; [lia|]. right. split; lia.
  - split; [done|]. split; [lia|].
    exists q. split; [lia|]. split; [lia|]. left. lia.
Qed.

Lemma find_wnaf_digit_eq c :
  0 <= c < M ->
  find_wnaf_digit n w c = (wnaf_digit c, (c - wnaf_digit c) mod M).
Proof.
  intros Hc. destruct pow_w as (Hw2 & Hw1 & Hw29).
  destruct M_big as (HM & qM & HqM & HqM0).
  unfold find_wnaf_digit, wnaf_digit, limb0, limb_bits.
  replace (Z.land (c mod 2 ^ 64) 1) with (c mod 2); cycle 1.
  { change 1 with (Z.ones 1) at 1. rewrite Z.land_ones by lia.
    change (2 ^ 1) with 2. symmetry.
    rewrite Z.mod_mod_divide; [done|]. exists (2 ^ 63). done. }
  rewrite Zmod_odd. destruct (Z.odd c) eqn:Hodd; simpl; cycle 1.
  { rewrite Z.sub_0_r, Z.mod_small; [done|exact Hc]. }
  rewrite size_t_small by (change (2 ^ 64) with 18446744073709551616; lia).
  rewrite shl_uint_small, !shl_int_small by lia.
  rewrite Z.mod_mod_divide; cycle 1.
  { exists (2 ^ (64 - (w + 1))). rewrite <- Z.pow_add_r by lia. f_equal. lia. }
  pose proof (Z.mod_pos_bound c (2 ^ (w + 1)) ltac:(lia)) as Hr.
  set (r := c mod 2 ^ (w + 1)) in *.
  change (2 ^ 29) with 536870912 in Hw29.
  destruct (Z.gtb_spec r (2 ^ w)) as [Hgt|Hle].
  - destruct (Z.gtb_spec (r - 2 ^ (w + 1)) 0) as [?|_]; [lia|].
    rewrite size_t_small by (change (2 ^ 64) with 18446744073709551616; lia).
    done.
  - destruct (Z.gtb_spec r 0) as [Hpos|Hnpos].
    + rewrite size_t_small
        by (change (2 ^ 64) with 18446744073709551616; lia).
      done.
    + assert (r = 0) as -> by lia. rewrite size_t_small by done.
      done.
Qed.

(** The digits written by the loop, as a list. *)
Fixpoint wnaf_digits (slots : nat) (c : Z) : option (list Z) :=
  if c =? 0 then Some (replicate slots 0)
  else match slots with
       | O => None
       | S slots =>
           let u := wnaf_digit c in
           (u ::.) <$> wnaf_digits slots (((c - u) mod M) / 2)
       end.

Lemma find_wnaf_loop_digits slots c pre :
  0 <= c < M ->
  find_wnaf_loop n slots w c (length pre) (pre ++ replicate slots 0)
  = (pre ++.) <$> wnaf_digits slots c.
Proof.
  revert c pre. induction slots as [|slots IH]; intros c pre Hc.
  - simpl. unfold is_zero. by destruct (c =? 0).
  - simpl. unfold is_zero. destruct (c =? 0); [done|].
    rewrite find_wnaf_digit_eq by done.
    set (u := wnaf_digit c). unfold mpn_rshift1.
    rewrite Z.shiftr_div_pow2 by lia. change (2 ^ 1) with 2.
    replace (<[length pre:=u]> (pre ++ 0 :: replicate slots 0))
      with ((pre ++ [u]) ++ replicate slots 0); cycle 1.
    { rewrite <- (Nat.add_0_r (length pre)), insert_app_r. simpl.
      by rewrite <- app_assoc. }
    replace (S (length pre)) with (length (pre ++ [u]))
      by (rewrite length_app; simpl; lia).
    assert (0 < M) by (apply modulus_of_pos; lia).
    rewrite IH; cycle 1.
    { pose proof (Z.mod_pos_bound (c - u) M ltac:(lia)).
      split; [apply Z.div_pos; lia|].
      apply Z.div_lt_upper_bound; lia. }
    destruct (wnaf_digits slots _); simpl; [|done].
    by rewrite <- app_assoc.
Qed.

Local Lemma half_mod_pow x m :
  0 <= m -> x mod 2 ^ (m + 1) = 0 -> (x / 2) mod 2 ^ m = 0 /\ x mod 2 = 0.
Proof.
  intros Hm Hx. assert (0 < 2 ^ m) by (apply Z.pow_pos_nonneg; lia).
  assert (2 ^ (m + 1) = 2 * 2 ^ m) as E by (rewrite Z.pow_add_r; lia).
  apply Z.div_exact in Hx; [|lia]. rewrite E in Hx.
  set (q := x / (2 * 2 ^ m)) in *.
  replace x with ((q * 2 ^ m) * 2) by lia. rewrite Z.div_mul by lia.
  split; apply Z.mod_mul; lia.
Qed.

Lemma wnaf_value_zeros k : wnaf_value (replicate k 0) = 0.
Proof. induction k as [|k IH]; simpl; [done|]. rewrite IH. done. Qed.

Lemma wnaf_digits_zero slots :
  wnaf_digits slots 0 = Some (replicate slots 0).
Proof. by destruct slots. Qed.

Lemma zeros_lookup k i (u : Z) : replicate k 0 !! i = Some u -> u = 0.
Proof. intros [-> _]%lookup_replicate_1. done. Qed.

(** With [c <= 2^k] and more than [k] slots left the loop ends inside the
    vector; its digits are odd and small, [w] zeros follow each of them, and
    they sum to [c] when no carry is lost. *)
Lemma wnaf_digits_spec slots : forall (k : nat) (c : Z),
  0 < c < M -> c <= 2 ^ Z.of_nat k -> (k < slots)%nat ->
  Z.of_nat k <= max_bits n ->
  exists ds,
    wnaf_digits slots c = Some ds /\
    length ds = slots /\
    (no_carry c -> wnaf_value ds = c) /\
    Forall digit_ok ds /\
    (forall m : nat, c mod 2 ^ Z.of_nat m = 0 -> leading_zeros m ds) /\
    wnaf_separated ds /\
    zero_from (S k) ds.
Proof.
  destruct pow_w as (Hw2 & Hw1 & Hw29).
  induction slots as [|slots IH]; intros k c Hc Hck Hk HkM; [lia|].
  simpl. destruct (Z.eqb_spec c 0) as [|_]; [lia|].
  pose proof (wnaf_digit_cases c ltac:(lia)) as Hcases.
  set (u := wnaf_digit c) in *. set (c' := ((c - u) mod M) / 2).
  (* the next working copy *)
  assert (0 <= c - u /\ (c - u <= 2 ^ Z.of_nat k) /\
          (c - u) mod 2 = 0 /\ digit_ok u /\
          (u <> 0 -> (c - u) mod 2 ^ (w + 1) = 0) /\
          (u = 0 -> Z.odd c = false) /\ (u <> 0 -> Z.odd c = true) /\
          (no_carry c -> c - u < M))
    as (Hcu0 & Hcuk & Hcu2 & Hu & Hcuw & Hu0 & Hu1 & Hnc).
  { destruct Hcases
      as [[Hodd Hz]|(Hodd & Huodd & Huabs & q & Hq0 & Hq & Hsign)].
    - rewrite Hz, Z.sub_0_r. split_and!; try lia.
      + rewrite Zmod_odd, Hodd. done.
      + by left.
      + done.
    - assert ((c - u) mod 2 ^ (w + 1) = 0) as Hdiv
        by (rewrite Hq; apply Z.mod_mul; lia).
      assert (u <> 0) by (intros E; rewrite E in Huodd; done).
      split_and!; try lia.
      + destruct Hsign as [?|[Hneg Hlt]]; [lia|].
        destruct (Z_lt_le_dec (Z.of_nat k) (w + 1)) as [Hkw|Hkw].
        * (* c < 2^w, the digit is positive *)
          exfalso. assert (2 ^ Z.of_nat k <= 2 ^ w)
            by (apply Z.pow_le_mono_r; lia).
          assert (q = 1) by nia. subst q. lia.
        * assert (2 ^ Z.of_nat k = 2 ^ (Z.of_nat k - (w + 1)) * 2 ^ (w + 1))
            as Hsplit by (rewrite <- Z.pow_add_r by lia; f_equal; lia).
          assert (0 < 2 ^ (Z.of_nat k - (w + 1)))
            by (apply Z.pow_pos_nonneg; lia).
          rewrite Hq, Hsplit. apply Z.mul_le_mono_nonneg_r; [lia|].
          assert (q - 1 < 2 ^ (Z.of_nat k - (w + 1))) by nia. lia.
      + rewrite Hq, Hw1. replace (q * (2 * 2 ^ w)) with ((q * 2 ^ w) * 2) by lia.
        apply Z.mod_mul. lia.
      + by right.
      + done.
      + intros Hno. specialize (Hno Hodd). lia. }
  assert (0 < M) as HM by lia.
  assert (2 ^ Z.of_nat k <= M) as HkM'.
  { unfold M, modulus_of. apply Z.pow_le_mono_r; lia. }
  assert ((c - u) mod M = c - u \/ ((c - u) mod M = 0 /\ c - u = M))
    as Hmod.
  { destruct (Z.eq_dec (c - u) M) as [E|NE].
    - right. split; [|done]. rewrite E. apply Z.mod_same. lia.
    - left. apply Z.mod_small. lia. }
  assert (0 <= c' /\ c' <= (c - u) / 2) as [Hc'0 Hc'le].
  { unfold c'. destruct Hmod as [->|[-> _]].
    - split; [apply Z.div_pos; lia|lia].
    - split; [done|]. change (0 / 2) with 0. apply Z.div_pos; lia. }
  assert (c' < M) as Hc'M.
  { assert ((c - u) / 2 < M) by (apply Z.div_lt_upper_bound; lia). lia. }
  (* digits of the rest *)
  assert (exists ds',
    wnaf_digits slots c' = Some ds' /\
    length ds' = slots /\
    (no_carry c -> wnaf_value ds' = (c - u) / 2) /\
    Forall digit_ok ds' /\
    (forall m : nat, c' mod 2 ^ Z.of_nat m = 0 -> leading_zeros m ds') /\
    wnaf_separated ds' /\
    zero_from k ds') as (ds' & Hds' & Hlen & Hval & Hok & Hlead & Hsep & Htail).
  { destruct (Z.eq_dec c' 0) as [Hz|Hnz].
    - rewrite Hz, wnaf_digits_zero. exists (replicate slots 0).
      split; [done|]. split; [by rewrite length_replicate|].
      split.
      { intros Hno. rewrite wnaf_value_zeros. unfold c' in Hz.
        destruct Hmod as [E|[_ E]]; [by rewrite E in Hz|].
        specialize (Hnc Hno). lia. }
      split.
      { apply Forall_replicate. by left. }
      split; [intros m _ i x Hx _; by eapply zeros_lookup|].
      split.
      { intros i j ui uj Hi _ Hui. by apply zeros_lookup in Hi. }
      intros j x Hx _. by eapply zeros_lookup.
    - destruct k as [|k].
      { (* c = 1 *)
        change (2 ^ Z.of_nat 0) with 1 in *.
        assert ((c - u) / 2 = 0) by (apply Z.div_small; lia). lia. }
      assert (c' <= 2 ^ Z.of_nat k) as Hc'k.
      { replace (Z.of_nat (S k)) with (Z.succ (Z.of_nat k)) in Hcuk by lia.
        rewrite Z.pow_succ_r in Hcuk by lia.
        assert ((c - u) / 2 <= 2 ^ Z.of_nat k)
          by (apply Z.div_le_upper_bound; lia). lia. }
      destruct (IH k c' ltac:(lia) Hc'k ltac:(lia) ltac:(lia))
        as (ds' & ? & ? & Hv & ? & ? & ? & ?).
      exists ds'. repeat split; try done.
      intros Hno. specialize (Hnc Hno).
      assert (c' = (c - u) / 2) as Hc'eq.
      { unfold c'. destruct Hmod as [->|[_ ?]]; [done|lia]. }
      rewrite <- Hc'eq. apply Hv. intros _.
      replace (Z.of_nat (S k)) with (Z.succ (Z.of_nat k)) in HkM' by lia.
      rewrite Z.pow_succ_r in HkM' by lia.
      destruct (Z_lt_le_dec (Z.of_nat k) w) as [Hlt|Hge].
      + assert (2 ^ Z.of_nat k < 2 ^ w) by (apply Z.pow_lt_mono_r; lia).
        destruct M_big as [HM64 _].
        change (2 ^ 29) with 536870912 in Hw29.
        change (2 ^ 64) with 18446744073709551616 in HM64. lia.
      + assert (2 ^ w <= 2 ^ Z.of_nat k) by (apply Z.pow_le_mono_r; lia).
        lia. }
  rewrite Hds'. simpl. exists (u :: ds').
  split; [done|]. split; [simpl; lia|].
  split.
  { intros Hno. simpl. rewrite (Hval Hno).
    pose proof (Z.div_mod (c - u) 2 ltac:(lia)). lia. }
  split; [by constructor|].
  split.
  { intros m Hm i x Hx Hi. destruct m as [|m]; [lia|].
    replace (Z.of_nat (S m)) with (Z.of_nat m + 1) in Hm by lia.
    apply half_mod_pow in Hm as [Hm2 Hm1]; [|lia].
    assert (u = 0) as Hz.
    { destruct (Z.eq_dec u 0) as [|Hune]; [done|]. exfalso.
      specialize (Hu1 Hune). rewrite Zmod_odd, Hu1 in Hm1. done. }
    destruct i as [|i]; simpl in Hx; [congruence|].
    eapply (Hlead m); [|done|lia].
    unfold c'. rewrite Hz, Z.sub_0_r, (Z.mod_small c M) by lia. done. }
  split.
  { intros [|i] [|j] ui uj Hi Hj Hui Huj Hij; simpl in Hi, Hj; try lia.
    - injection Hi as <-.
      assert (c' mod 2 ^ Z.of_nat (Z.to_nat w) = 0) as Hdiv.
      { rewrite Z2Nat.id by lia. unfold c'.
        destruct Hmod as [->|[-> _]]; [|done].
        apply half_mod_pow; [lia|]. by apply Hcuw. }
      destruct (le_lt_dec (Z.to_nat w) j) as [|Hlt]; [lia|].
      exfalso. apply Huj. by eapply (Hlead _ Hdiv j). 
    - pose proof (Hsep i j ui uj Hi Hj Hui Huj ltac:(lia)). lia. }
  intros [|j] x Hx Hj; simpl in Hx; [lia|].
  eapply Htail; [done|lia].
Qed.

Lemma find_wnaf_spec s :
  0 <= s < M ->
  exists d,
    find_wnaf n w s = Some d /\
    length d = (Z.to_nat (max_bits n) + 1)%nat /\
    (no_carry s -> wnaf_value d = s) /\
    Forall digit_ok d /\
    wnaf_separated d /\
    zero_from (Z.to_nat (num_bits s) + 1) d.
Proof.
  intros Hs. unfold find_wnaf. set (L := Z.to_nat (max_bits n)).
  pose proof (find_wnaf_loop_digits (L + 1) s [] Hs) as E.
  cbn [length app] in E. rewrite E. clear E.
  destruct (Z.eq_dec s 0) as [->|Hne].
  - rewrite wnaf_digits_zero. simpl. exists (replicate (L + 1) 0).
    split; [done|]. split; [by rewrite length_replicate|].
    split; [intros _; apply wnaf_value_zeros|].
    split; [apply Forall_replicate; by left|].
    split.
    + intros i j ui uj Hi _ Hui. by apply zeros_lookup in Hi.
    + intros j x Hx _. by eapply zeros_lookup.
  - pose proof (num_bits_nonneg s) as Hnb0.
    pose proof (num_bits_bound s ltac:(lia)) as Hnb.
    assert (num_bits s <= max_bits n) as HnbM.
    { apply num_bits_le; [lia|unfold max_bits, limb_bits; lia|apply Hs]. }
    destruct (wnaf_digits_spec (L + 1) (Z.to_nat (num_bits s)) s)
      as (ds & -> & Hlen & Hval & Hok & _ & Hsep & Htail);
      try (unfold L; lia).
    { rewrite Z2Nat.id by lia. lia. }
    exists ds. simpl. split; [done|]. split; [done|]. split; [done|].
    split; [done|]. split; [done|].
    intros j x Hx Hj. eapply Htail; [done|lia].
Qed.

End FindWnafFacts.

(** C3, as the code has it.  For a window size [1 <= w <= 29] and a scalar [s]
    of [n] limbs that is even or satisfies [s + 2^w <= 2^(64 n)], [find_wnaf]
    returns digits [d] with [s] the sum of [d_j * 2^j]; every non-zero digit
    is odd with [|d_j| <= 2^w - 1], and two non-zero digits are more than [w]
    places apart (at least [w] zeros between them). *)
Theorem find_wnaf_sound (n w s : Z) :
  1 <= n -> 1 <= w <= 29 -> 0 <= s < 2 ^ (64 * n) ->
  (Z.odd s = true -> s + 2 ^ w <= 2 ^ (64 * n)) ->
  exists d,
    find_wnaf n w s = Some d /\
    wnaf_value d = s /\
    (forall j u, d !! j = Some u -> u <> 0 ->
       Z.odd u = true /\ Z.abs u <= 2 ^ w - 1) /\
    (forall i j ui uj, d !! i = Some ui -> d !! j = Some uj ->
       ui <> 0 -> uj <> 0 -> (i < j)%nat -> Z.of_nat i + w < Z.of_nat j).
Proof.
  intros Hn Hw Hs Hnc.
  assert (modulus_of n = 2 ^ (64 * n)) as HM
    by (unfold modulus_of, max_bits, limb_bits; f_equal; lia).
  destruct (find_wnaf_spec n w Hn Hw s) as (d & Hd & _ & Hval & Hok & Hsep & _).
  { by rewrite HM. }
  exists d. split; [done|]. split.
  { apply Hval. unfold no_carry. by rewrite HM. }
  split; [|exact Hsep].
  intros j u Hj Hu. rewrite Forall_lookup in Hok.
  destruct (Hok j u Hj) as [?|?]; [done|done].
Qed.

Lemma find_wnaf_sound_witness :
  exists d,
    find_wnaf 1 4 0x123456789abc = Some d /\
    wnaf_value d = 0x123456789abc /\
    (forall j u, d !! j = Some u -> u <> 0 ->
       Z.odd u = true /\ Z.abs u <= 2 ^ 4 - 1) /\
    (forall i j ui uj, d !! i = Some ui -> d !! j = Some uj ->
       ui <> 0 -> uj <> 0 -> (i < j)%nat -> Z.of_nat i + 4 < Z.of_nat j).
Proof.
  apply (find_wnaf_sound 1 4 0x123456789abc).
  - lia.
  - lia.
  - vm_compute. split; [discriminate|reflexivity].
  - intros _. vm_compute. discriminate.
Defined.

(** C3 fails as stated.  With one limb, [w = 1] and [s = 2^64 - 1] the digit
    is [-1], [mpn_add_1] wraps the working copy to zero and the digits sum to
    [-1]; with [w = 30] the [int] shift [1 << 31] is negative and the digit of
    [s = 2^30 + 1] is [2^30 + 1 + 2^31]. *)
Lemma find_wnaf_carry_lost :
  (exists d, find_wnaf 1 1 (2 ^ 64 - 1) = Some d /\
             wnaf_value d <> 2 ^ 64 - 1) /\
  (exists d u, find_wnaf 1 30 (2 ^ 30 + 1) = Some d /\
               d !! 0%nat = Some u /\ u <> 0 /\ ~ Z.abs u <= 2 ^ 30 - 1).
Proof.
  split.
  - eexists. split; [vm_compute; reflexivity|]. vm_compute. discriminate.
  - eexists _, _. split; [vm_compute; reflexivity|].
    split; [reflexivity|]. split; [discriminate|]. vm_compute. tauto.
Qed.

(** C8, as the code has it.  For [1 <= w <= 29] and every scalar [s] of [n]
    limbs, the vector [find_wnaf] returns has [max_bits + 1 = 64 n + 1]
    entries, whatever [s] is; the entries at the indices from
    [num_bits(s) + 1] on are zero. *)
Theorem find_wnaf_length (n w s : Z) :
  1 <= n -> 1 <= w <= 29 -> 0 <= s < 2 ^ (64 * n) ->
  exists d,
    find_wnaf n w s = Some d /\
    Z.of_nat (length d) = max_bits n + 1 /\
    (forall j u, d !! j = Some u -> num_bits s + 1 <= Z.of_nat j -> u = 0).
Proof.
  intros Hn Hw Hs.
  assert (modulus_of n = 2 ^ (64 * n)) as HM
    by (unfold modulus_of, max_bits, limb_bits; f_equal; lia).
  destruct (find_wnaf_spec n w Hn Hw s) as (d & Hd & Hlen & _ & _ & _ & Htail).
  { by rewrite HM. }
  exists d. split; [done|]. split.
  { rewrite Hlen. unfold max_bits, limb_bits. lia. }
  intros j u Hj Hle. eapply Htail; [done|].
  pose proof (num_bits_nonneg s). lia.
Qed.

Lemma find_wnaf_length_witness :
  exists d,
    find_wnaf 1 4 0x123456789abc = Some d /\
    Z.of_nat (length d) = max_bits 1 + 1 /\
    (forall j u, d !! j = Some u ->
       num_bits 0x123456789abc + 1 <= Z.of_nat j -> u = 0).
Proof.
  apply (find_wnaf_length 1 4 0x123456789abc).
  - lia.
  - lia.
  - vm_compute. split; [discriminate|reflexivity].
Defined.

(** C8 fails as stated: the vector returned for the one-limb scalar 1 has
    65 entries, and [num_bits(1) + 1] is 2.  Nor are the entries past
    [num_bits(s)] all zero for a window of 30 bits: with [1 << 31] negative
    the working copy of [s = 2^30 + 1] wraps, and entry 63 is 1. *)
Lemma find_wnaf_length_fixed :
  (exists d, find_wnaf 1 1 1 = Some d /\
             ~ Z.of_nat (length d) <= num_bits 1 + 1) /\
  (exists d, find_wnaf 1 30 (2 ^ 30 + 1) = Some d /\
             d !! 63%nat = Some 1 /\ num_bits (2 ^ 30 + 1) + 1 <= 63).
Proof.
  split.
  - eexists. split; [vm_compute; reflexivity|]. vm_compute. tauto.
  - eexists. split; [vm_compute; reflexivity|].
    split; [reflexivity|]. vm_compute. discriminate.
Qed.

(** ** Single-base exponentiation is scalar multiplication *)

Section WnafExpFacts.
Context {T : Type} `{GroupLaws T}.
Variable n : Z.
Hypothesis n_pos : 1 <= n.

Lemma wnaf_table_lookup (base : T) count : forall (a : Z) (i : nat),
  (i < count)%nat ->
  wnaf_table count (gmul a base) (dbl base) !! i
  = Some (gmul (a + 2 * Z.of_nat i) base).
Proof.
  induction count as [|count IH]; intros a i Hi; [lia|].
  destruct i as [|i]; simpl.
  - do 2 f_equal. lia.
  - replace (gmul a base + dbl base)%G with (gmul (a + 2) base)
      by (by rewrite gmul_add, gmul_2).
    rewrite IH by lia. do 2 f_equal. lia.
Qed.

Lemma wnaf_exp_fold (w : Z) (base : T) (table : list T) (ds : list Z) :
  1 <= w ->
  (forall i : nat, Z.of_nat i < 2 ^ (w - 1) ->
     table !! i = Some (gmul (1 + 2 * Z.of_nat i) base)) ->
  Forall (digit_ok w) ds ->
  exists found_nonzero : bool,
    foldr (fun d st => st ≫= wnaf_exp_step table d) (Some (zero, false)) ds
    = Some (gmul (wnaf_value ds) base, found_nonzero) /\
    (found_nonzero = false -> wnaf_value ds = 0).
Proof.
  intros Hw Htable Hds. induction Hds as [|u ds Hu Hds IH]; simpl.
  - by exists false.
  - destruct IH as (b & -> & Hb). simpl.
    assert ((if b then dbl (gmul (wnaf_value ds) base)
             else gmul (wnaf_value ds) base)
            = gmul (2 * wnaf_value ds) base) as ->.
    { destruct b; [apply dbl_gmul|]. by rewrite Hb. }
    assert (2 ^ w = 2 * 2 ^ (w - 1)) as Hpow.
    { rewrite <- Z.pow_succ_r by lia. f_equal. lia. }
    destruct Hu as [->|[Hodd Habs]].
    { simpl. exists b. split; [done|]. intros ->%Hb. done. }
    assert (u <> 0) as Hne by (intros ->; done).
    destruct (Z.eqb_spec u 0) as [|_]; [done|].
    pose proof (Zmod_odd u) as Hu2. rewrite Hodd in Hu2.
    destruct (Z.gtb_spec u 0) as [Hpos|Hneg].
    + pose proof (Z.div_mod u 2 ltac:(lia)) as Hdm.
      rewrite Htable; cycle 1.
      { rewrite Z2Nat.id by (apply Z.div_pos; lia). lia. }
      simpl. exists true. split; [|done].
      rewrite <- gmul_add, Z2Nat.id by (apply Z.div_pos; lia).
      do 3 f_equal. lia.
    + assert ((- u) mod 2 = 1) as Hu2'.
      { replace (- u) with (u + (- u) * 2) by lia.
        by rewrite Z.mod_add by lia. }
      pose proof (Z.div_mod (- u) 2 ltac:(lia)) as Hdm.
      rewrite Htable; cycle 1.
      { rewrite Z2Nat.id by (apply Z.div_pos; lia). lia. }
      simpl. exists true. split; [|done].
      rewrite <- gmul_opp, <- gmul_add, Z2Nat.id by (apply Z.div_pos; lia).
      do 3 f_equal. lia.
Qed.

Lemma fixed_window_wnaf_exp_correct (w : Z) (base : T) (s : Z) :
  1 <= w <= 29 -> 0 <= s < modulus_of n -> no_carry n w s ->
  fixed_window_wnaf_exp n w base s = Some (gmul s base).
Proof.
  intros Hw Hs Hnc. unfold fixed_window_wnaf_exp.
  destruct (find_wnaf_spec n w n_pos Hw s Hs)
    as (d & -> & _ & Hval & Hok & _ & _).
  simpl. rewrite size_t_small, shl_ulong_small
    by (change (2 ^ 64) with 18446744073709551616; lia).
  edestruct (wnaf_exp_fold w base) as (b & -> & _); [lia| |exact Hok|].
  - intros i Hi. rewrite <- (gmul_1 base) at 1.
    apply wnaf_table_lookup.
    assert (0 < 2 ^ (w - 1)) by (apply Z.pow_pos_nonneg; lia). lia.
  - simpl. by rewrite Hval.
Qed.

Lemma wnaf_best_range (rev_table : list Z) (bits : Z) :
  0 <= wnaf_best rev_table bits <= Z.of_nat (length rev_table).
Proof.
  induction rev_table as [|t rest IH]; simpl; [lia|].
  destruct (bits >=? t); lia.
Qed.

(** [opt_window_wnaf_exp] multiplies by the scalar when the table has at
    most 29 entries and the scalar leaves room for the widest window. *)
Lemma opt_window_wnaf_exp_correct (base : T) (s bits : Z) :
  (length wnaf_window_table <= 29)%nat ->
  0 <= s -> s + 2 ^ Z.of_nat (length wnaf_window_table) <= modulus_of n ->
  opt_window_wnaf_exp n base s bits = Some (gmul s base).
Proof.
  intros Hlen Hs Hroom. unfold opt_window_wnaf_exp.
  pose proof (wnaf_best_range (reverse wnaf_window_table) bits) as Hbest.
  rewrite length_reverse in Hbest.
  set (best := wnaf_best _ _) in *.
  destruct (Z.gtb_spec best 0) as [Hpos|_]; [|done].
  assert (2 ^ best <= 2 ^ Z.of_nat (length wnaf_window_table))
    by (apply Z.pow_le_mono_r; lia).
  assert (0 < 2 ^ best) by (apply Z.pow_pos_nonneg; lia).
  apply fixed_window_wnaf_exp_correct; [lia|lia|].
  intros _. lia.
Qed.

End WnafExpFacts.

(** ** Sums of scalar multiples *)

Section MsmFacts.
Context {T : Type} `{GroupLaws T}.

Lemma msm_nil_r (vec : list T) : msm vec [] = zero.
Proof. by destruct vec. Qed.

Lemma msm_app (v1 v2 : list T) (s1 s2 : list Z) :
  length v1 = length s1 ->
  msm (v1 ++ v2) (s1 ++ s2) = (msm v1 s1 + msm v2 s2)%G.
Proof.
  revert s1. induction v1 as [|v v1 IH]; intros [|s s1] Hlen;
    simplify_eq/=.
  - by rewrite add_zero_l.
  - by rewrite IH, add_assoc.
Qed.

Lemma msm_zeros (vec : list T) (scalars : list Z) :
  Forall (fun s => s = 0) scalars -> msm vec scalars = zero.
Proof.
  intros Hz. revert vec. induction Hz as [|s scalars -> _ IH];
    intros [|v vec]; simpl; try done.
  by rewrite IH, gmul_0, add_zero_l.
Qed.

Lemma msm_linear (a : Z) (f g : Z -> Z) (vec : list T) (scalars : list Z) :
  msm vec ((fun e => a * f e + g e) <$> scalars)
  = (gmul a (msm vec (f <$> scalars)) + msm vec (g <$> scalars))%G.
Proof.
  revert vec. induction scalars as [|s scalars IH]; intros [|v vec]; simpl;
    try by rewrite gmul_zero, add_zero_l.
  rewrite IH, gmul_add, gmul_mul, gmul_add_r, !add_assoc. f_equal.
  rewrite <- !add_assoc. f_equal. apply add_comm.
Qed.

Lemma msm_ext (f g : Z -> Z) (vec : list T) (scalars : list Z) :
  Forall (fun e => f e = g e) scalars ->
  msm vec (f <$> scalars) = msm vec (g <$> scalars).
Proof.
  intros Hfg. revert vec. induction Hfg as [|s scalars E _ IH];
    intros [|v vec]; simpl; try done.
  by rewrite E, IH.
Qed.

End MsmFacts.

(** ** The naive strategies *)

Section NaiveFacts.
Context {T : Type} `{GroupLaws T} `{Scalar} `{!Headroom T}.

Lemma modulus_of_num_limbs : modulus_of num_limbs = 2 ^ (64 * num_limbs).
Proof. unfold modulus_of, max_bits, limb_bits. f_equal. lia. Qed.

(** Residuals of field elements go through [opt_window_wnaf_exp]. *)
Lemma opt_window_wnaf_exp_field (base : T) (s bits : Z) :
  0 <= s < modulus ->
  opt_window_wnaf_exp num_limbs base s bits = Some (gmul s base).
Proof.
  intros Hs. pose proof num_limbs_range. pose proof modulus_room.
  apply opt_window_wnaf_exp_correct; [lia|apply wnaf_table_short|lia|].
  rewrite modulus_of_num_limbs. lia.
Qed.

Lemma naive_loop_correct (vec : list T) (scalars : list Z) (result : T) :
  length vec = length scalars -> Forall in_field scalars ->
  naive_loop result vec scalars = Some (result + msm vec scalars)%G.
Proof.
  revert scalars result.
  induction vec as [|v vec IH]; intros [|s scalars] result Hlen Hs;
    simplify_eq/=.
  - by rewrite add_zero_r.
  - inversion_clear Hs as [|?? Hs1 Hs2]. unfold as_bigint.
    rewrite opt_window_wnaf_exp_field by exact Hs1. simpl.
    rewrite IH by done. by rewrite add_assoc.
Qed.

Lemma naive_plain_loop_correct (vec : list T) (scalars : list Z) (result : T) :
  length vec = length scalars ->
  naive_plain_loop result vec scalars = Some (result + msm vec scalars)%G.
Proof.
  revert scalars result.
  induction vec as [|v vec IH]; intros [|s scalars] result Hlen;
    simplify_eq/=.
  - by rewrite add_zero_r.
  - rewrite IH by done. by rewrite add_assoc.
Qed.

End NaiveFacts.

(** ** BDLO12 *)

(** The bits [base .. base + m - 1] of [e], gathered by [|=] of shifted ones
    (the loops of [bdlo12_id] and [window_inner]). *)
Lemma gather_bits (sh : Z -> Z) (e base m : Z) :
  (forall j, 0 <= j < m -> sh j = 2 ^ j) -> 0 <= base -> 0 <= m ->
  foldl (fun id j => if test_bit e (base + j) then Z.lor id (sh j) else id)
    0 (seqZ 0 m)
  = (e / 2 ^ base) mod 2 ^ m.
Proof.
  intros Hsh Hbase Hm. rewrite <- (Z2Nat.id m) at 1 2 by done.
  assert (Z.of_nat (Z.to_nat m) <= m) as Hle by lia.
  induction (Z.to_nat m) as [|i IH]; [by rewrite Z.mod_1_r|].
  rewrite seqZ_S, foldl_app, IH by lia. simpl. rewrite Z.add_0_l.
  rewrite Hsh by lia. unfold test_bit. set (x := e / 2 ^ base).
  assert (Z.testbit e (base + Z.of_nat i) = Z.testbit x (Z.of_nat i)) as ->.
  { unfold x. rewrite Z.div_pow2_bits by lia. f_equal. lia. }
  apply Z.bits_inj'. intros t Ht.
  rewrite (Z.testbit_mod_pow2 x (Z.of_nat (S i))) by lia.
  destruct (Z.testbit x (Z.of_nat i)) eqn:Hbit.
  - rewrite Z.lor_spec, Z.testbit_mod_pow2, Z.pow2_bits_eqb by lia.
    destruct (Z.ltb_spec t (Z.of_nat i)), (Z.ltb_spec t (Z.of_nat (S i))),
      (Z.eqb_spec (Z.of_nat i) t); try lia; simpl; subst;
      rewrite ?Hbit, ?orb_false_r; done.
  - rewrite Z.testbit_mod_pow2 by lia.
    destruct (Z.ltb_spec t (Z.of_nat i)), (Z.ltb_spec t (Z.of_nat (S i)));
      try lia; simpl; [done|].
    by replace t with (Z.of_nat i) by lia.
Qed.

Section Bdlo12Window.

Lemma log2_range (L : Z) (k : Z) :
  0 <= k -> L <= 2 ^ k -> 0 <= log2 L <= k.
Proof.
  intros Hk HL. unfold log2. split; [apply Z.log2_up_nonneg|].
  destruct (Z_le_gt_dec L 1) as [Hle|Hgt].
  - rewrite Z.log2_up_eqn0 by done. done.
  - apply Z.log2_up_le_pow2; lia.
Qed.

(** The two wrap-arounds of [c = log2_length - (log2_length / 3 - 2)]
    cancel. *)
Lemma bdlo12_c_eq (L : Z) :
  L < 2 ^ 64 -> bdlo12_c L = log2 L - (log2 L / 3 - 2).
Proof.
  intros HL. pose proof (log2_range L 64 ltac:(lia) ltac:(lia)) as Hl.
  unfold bdlo12_c, size_t, wrap. set (l := log2 L) in *.
  rewrite Zminus_mod_idemp_r. apply Z.mod_small.
  change (2 ^ 64) with 18446744073709551616.
  Z.div_mod_to_equations. lia.
Qed.

Lemma bdlo12_c_range (L : Z) : L <= 2 ^ 42 -> 2 <= bdlo12_c L <= 30.
Proof.
  intros HL. rewrite bdlo12_c_eq
    by (change (2 ^ 42) with 4398046511104 in HL;
        change (2 ^ 64) with 18446744073709551616; lia).
  pose proof (log2_range L 42 ltac:(lia) HL).
  Z.div_mod_to_equations. lia.
Qed.

Lemma bdlo12_id_spec (c k e : Z) :
  0 <= c <= 31 -> 0 <= k ->
  bdlo12_id c k e = (e / 2 ^ (k * c)) mod 2 ^ c.
Proof.
  intros Hc Hk. unfold bdlo12_id.
  apply (gather_bits (fun j => size_t (shl_int 1 j))); [|nia|lia].
  intros j Hj. rewrite shl_int_small by lia. apply size_t_small.
  split; [apply Z.pow_nonneg; lia|apply Z.pow_lt_mono_r; lia].
Qed.

End Bdlo12Window.

(** C6, as the code has it.  For an input of length [L] (a [size_t]) BDLO12
    takes the window width [c = l - (l / 3 - 2)] with [l] the result of
    [log2(L)], which is the ceiling of the binary logarithm, not the floor. *)
Theorem bdlo12_c_ceil (L : Z) :
  1 <= L < 2 ^ 64 ->
  bdlo12_c L = Z.log2_up L - (Z.log2_up L / 3 - 2).
Proof. intros HL. apply bdlo12_c_eq. lia. Qed.

Lemma bdlo12_c_ceil_witness :
  bdlo12_c 1024 = Z.log2_up 1024 - (Z.log2_up 1024 / 3 - 2).
Proof. apply (bdlo12_c_ceil 1024). vm_compute. split; discriminate || reflexivity. Defined.

(** C6 fails as stated: for three bases the code takes [c = 4]; the floor of
    the logarithm gives 3. *)
Lemma bdlo12_c_not_floor :
  bdlo12_c 3 = 4 /\ Z.log2 3 - (Z.log2 3 / 3 - 2) = 3.
Proof. split; reflexivity. Qed.

Section Bdlo12Facts.
Context {T : Type} `{GroupLaws T}.

(** What bucket [j] holds: nothing while its presence bit is clear. *)
Definition bucket_val (buckets : list T) (bucket_nonzero : list bool)
    (j : nat) : T :=
  match buckets !! j, bucket_nonzero !! j with
  | Some b, Some true => b
  | _, _ => zero
  end.

(** The sum of [j * buckets[j]] for [j] from 1 to [i]. *)
Fixpoint bucket_wsum (buckets : list T) (bucket_nonzero : list bool)
    (i : nat) : T :=
  match i with
  | O => zero
  | S i' =>
      (gmul (Z.of_nat i) (bucket_val buckets bucket_nonzero i)
       + bucket_wsum buckets bucket_nonzero i')%G
  end.

(** The value of a result guarded by its "non-zero" flag. *)
Definition flagged (x : T) (nonzero : bool) : T :=
  if nonzero then x else zero.

Lemma bucket_wsum_empty (size i : nat) :
  bucket_wsum (replicate size T_default) (replicate size false) i = zero.
Proof.
  induction i as [|i IH]; simpl; [done|]. rewrite IH, add_zero_r.
  unfold bucket_val. destruct (replicate size T_default !! S i); [|apply gmul_zero].
  destruct (replicate size false !! S i) as [b|] eqn:E; [|apply gmul_zero].
  apply lookup_replicate_1 in E as [-> _]. apply gmul_zero.
Qed.

Lemma bucket_wsum_insert (buckets : list T) (bucket_nonzero : list bool)
    (id : nat) (b : T) (nz : bool) (x : T) (i : nat) :
  buckets !! id = Some b -> bucket_nonzero !! id = Some nz ->
  bucket_wsum (<[id:=(flagged b nz + x)%G]> buckets)
    (<[id:=true]> bucket_nonzero) i
  = (bucket_wsum buckets bucket_nonzero i
     + (if decide (1 <= id <= i)%nat then gmul (Z.of_nat id) x else zero))%G.
Proof.
  intros Hb Hnz. induction i as [|i IH]; simpl.
  - rewrite decide_False by lia. by rewrite add_zero_r.
  - rewrite IH. clear IH.
    assert (id < length buckets)%nat by by eapply lookup_lt_Some.
    assert (id < length bucket_nonzero)%nat by by eapply lookup_lt_Some.
    destruct (decide (id = S i)) as [->|Hne].
    + rewrite decide_False, decide_True by lia. rewrite add_zero_r.
      unfold bucket_val at 1. rewrite !list_lookup_insert_eq by done.
      unfold bucket_val. rewrite Hb, Hnz.
      rewrite gmul_add_r. destruct nz; simpl.
      * apply add_swap_r.
      * rewrite gmul_zero, !add_zero_l. apply add_comm.
    + unfold bucket_val at 1. rewrite !list_lookup_insert_ne by done.
      fold (bucket_val buckets bucket_nonzero (S i)).
      rewrite <- add_assoc. f_equal. f_equal.
      destruct (decide (1 <= id <= i)%nat), (decide (1 <= id <= S i)%nat);
        try done; lia.
Qed.

Lemma bdlo12_bucket_spec (c k : Z) (buckets : list T)
    (bucket_nonzero : list bool) (base : T) (e : Z) (size : nat) :
  0 <= c <= 31 -> 0 <= k -> 2 ^ c = Z.of_nat size ->
  length buckets = size -> length bucket_nonzero = size ->
  exists buckets' bucket_nonzero',
    bdlo12_bucket c k (buckets, bucket_nonzero) (base, e)
    = Some (buckets', bucket_nonzero') /\
    length buckets' = size /\ length bucket_nonzero' = size /\
    bucket_wsum buckets' bucket_nonzero' (size - 1)
    = (bucket_wsum buckets bucket_nonzero (size - 1)
       + gmul ((e / 2 ^ (k * c)) mod 2 ^ c) base)%G.
Proof.
  intros Hc Hk Hsize Hlb Hln. unfold bdlo12_bucket. simpl.
  rewrite bdlo12_id_spec by done.
  pose proof (Z.mod_pos_bound (e / 2 ^ (k * c)) (2 ^ c) ltac:(lia)) as Hid.
  set (id := (e / 2 ^ (k * c)) mod 2 ^ c) in *.
  destruct (Nat.eqb_spec (Z.to_nat id) 0) as [Hz|Hnz].
  - exists buckets, bucket_nonzero. split; [done|]. split; [done|].
    split; [done|]. replace id with 0 by lia. by rewrite gmul_0, add_zero_r.
  - destruct (lookup_lt_is_Some_2 bucket_nonzero (Z.to_nat id)) as [nz Hnz'];
      [lia|].
    destruct (lookup_lt_is_Some_2 buckets (Z.to_nat id)) as [b Hb]; [lia|].
    rewrite Hnz', Hb. simpl.
    exists (<[Z.to_nat id:=(flagged b nz + base)%G]> buckets),
      (<[Z.to_nat id:=true]> bucket_nonzero).
    split.
    { destruct nz; simpl; [|by rewrite add_zero_l].
      by rewrite (list_insert_id bucket_nonzero). }
    rewrite !length_insert. split; [done|]. split; [done|].
    rewrite (bucket_wsum_insert _ _ _ b nz) by done.
    rewrite decide_True by lia. by rewrite Z2Nat.id by lia.
Qed.

Local Arguments bdlo12_bucket : simpl never.

Lemma bdlo12_buckets_spec (c k : Z) (size : nat) (bases : list T)
    (exps : list Z) : forall (buckets : list T) (bucket_nonzero : list bool),
  0 <= c <= 31 -> 0 <= k -> 2 ^ c = Z.of_nat size ->
  length buckets = size -> length bucket_nonzero = size ->
  exists buckets' bucket_nonzero',
    foldl (fun st be => st ≫= fun st => bdlo12_bucket c k st be)
      (Some (buckets, bucket_nonzero)) (zip bases exps)
    = Some (buckets', bucket_nonzero') /\
    length buckets' = size /\ length bucket_nonzero' = size /\
    bucket_wsum buckets' bucket_nonzero' (size - 1)
    = (bucket_wsum buckets bucket_nonzero (size - 1)
       + msm bases ((fun e => (e / 2 ^ (k * c)) mod 2 ^ c) <$> exps))%G.
Proof.
  revert exps. induction bases as [|base bases IH];
    intros [|e exps] buckets bucket_nonzero Hc Hk Hsize Hlb Hln; simpl;
    try (exists buckets, bucket_nonzero; by rewrite add_zero_r).
  destruct (bdlo12_bucket_spec c k buckets bucket_nonzero base e size)
    as (b1 & n1 & E1 & Hlb1 & Hln1 & Hw1); try done.
  rewrite E1.
  destruct (IH exps b1 n1) as (b2 & n2 & E2 & Hlb2 & Hln2 & Hw2); try done.
  exists b2, n2. split; [done|]. split; [done|]. split; [done|].
  by rewrite Hw2, Hw1, add_assoc.
Qed.

End Bdlo12Facts.

Section Bdlo12Sum.
Context {T : Type} `{GroupLaws T}.

Lemma bdlo12_sum_spec (buckets : list T) (bucket_nonzero : list bool)
    (i : nat) : forall (rs : T) (rnz : bool) (res : T) (resnz : bool),
  (i < length buckets)%nat -> (i < length bucket_nonzero)%nat ->
  exists rs' rnz' res' resnz',
    bdlo12_sum i buckets bucket_nonzero (rs, rnz, res, resnz)
    = Some (rs', rnz', res', resnz') /\
    flagged res' resnz'
    = (flagged res resnz + gmul (Z.of_nat i) (flagged rs rnz)
       + bucket_wsum buckets bucket_nonzero i)%G /\
    (resnz' = false -> res' = res /\ resnz = false).
Proof.
  induction i as [|i IH]; intros rs rnz res resnz Hlb Hln.
  - exists rs, rnz, res, resnz. split; [done|]. split; [|done].
    simpl. rewrite gmul_0. aac_reflexivity.
  - destruct (lookup_lt_is_Some_2 bucket_nonzero (S i)) as [nz Hnz]; [lia|].
    destruct (lookup_lt_is_Some_2 buckets (S i)) as [b Hb]; [lia|].
    cbn [bdlo12_sum]. rewrite Hnz. cbn [mbind option_bind].
    set (st1 := if nz then _ else _).
    assert (exists rs1 rnz1, st1 = Some (rs1, rnz1) /\
              flagged rs1 rnz1
              = (flagged rs rnz + bucket_val buckets bucket_nonzero (S i))%G)
      as (rs1 & rnz1 & -> & Hrs1).
    { unfold st1, bucket_val. rewrite Hb, Hnz. destruct nz.
      - simpl. eexists _, _. split; [done|]. destruct rnz; simpl; aac_reflexivity.
      - eexists _, _. split; [done|]. aac_reflexivity. }
    cbn [mbind option_bind].
    set (st2 := if rnz1 then _ else _).
    assert (exists res1 resnz1, st2 = (res1, resnz1) /\
              flagged res1 resnz1 = (flagged res resnz + flagged rs1 rnz1)%G /\
              (resnz1 = false -> res1 = res /\ resnz = false))
      as (res1 & resnz1 & -> & Hres1 & Hflag1).
    { unfold st2. destruct rnz1.
      - eexists _, _. split; [done|]. split; [|done].
        destruct resnz; simpl; aac_reflexivity.
      - eexists _, _. split; [done|]. split; [|done]. simpl. aac_reflexivity. }
    destruct (IH rs1 rnz1 res1 resnz1) as (rs' & rnz' & res' & resnz' & E & Hv & Hf);
      [lia|lia|].
    exists rs', rnz', res', resnz'. split; [done|]. split.
    + rewrite Hv, Hres1, Hrs1. cbn [bucket_wsum].
      replace (Z.of_nat (S i)) with (Z.of_nat i + 1) by lia.
      rewrite !gmul_add, !gmul_add_r, !gmul_1. aac_reflexivity.
    + intros Hz. destruct (Hf Hz) as [-> Hz1]. by apply Hflag1.
Qed.

Lemma iter_dbl (k : nat) (x : T) :
  Nat.iter k dbl x = gmul (2 ^ Z.of_nat k) x.
Proof.
  induction k as [|k IH]; [by rewrite gmul_1|].
  rewrite Nat.iter_succ, IH, dbl_gmul. f_equal.
  rewrite Nat2Z.inj_succ, Z.pow_succ_r by lia. done.
Qed.

(** One window: the result is doubled [c] times and the bases come in with
    their digits of the window. *)
Lemma bdlo12_window_spec (c k : Z) (bases : list T) (exps : list Z)
    (result : T) (nz : bool) :
  2 <= c <= 30 -> 0 <= k ->
  exists result' nz',
    bdlo12_window c k bases exps (result, nz) = Some (result', nz') /\
    flagged result' nz'
    = (gmul (2 ^ c) (flagged result nz)
       + msm bases ((fun e => (e / 2 ^ (k * c)) mod 2 ^ c) <$> exps))%G /\
    (nz' = false -> result' = result /\ nz = false).
Proof.
  intros Hc Hk. unfold bdlo12_window.
  assert (4 <= 2 ^ c < 2 ^ 31) as Hpow.
  { split; [change 4 with (2 ^ 2); apply Z.pow_le_mono_r; lia|].
    apply Z.pow_lt_mono_r; lia. }
  change (2 ^ 31) with 2147483648 in Hpow.
  rewrite shl_int_small, shl_uint_small by lia.
  assert (wrap 32 (2 ^ c - 1) = 2 ^ c - 1) as ->.
  { unfold wrap. apply Z.mod_small.
    change (2 ^ 32) with 4294967296. lia. }
  rewrite !size_t_small by (change (2 ^ 64) with 18446744073709551616; lia).
  set (size := Z.to_nat (2 ^ c)).
  destruct (bdlo12_buckets_spec c k size bases exps
              (replicate size T_default) (replicate size false))
    as (buckets & flags & -> & Hlb & Hln & Hw);
    try (by rewrite ?length_replicate); try lia.
  cbn [mbind option_bind].
  rewrite bucket_wsum_empty in Hw.
  set (result1 := if nz then _ else result).
  assert (flagged result1 nz = gmul (2 ^ c) (flagged result nz)) as Hres1.
  { unfold result1. destruct nz; simpl; [|by rewrite gmul_zero].
    rewrite iter_dbl, Z2Nat.id by lia. done. }
  destruct (bdlo12_sum_spec buckets flags (Z.to_nat (2 ^ c - 1))
              T_default false result1 nz)
    as (rs' & rnz' & res' & resnz' & -> & Hv & Hf); [lia|lia|].
  cbn [mbind option_bind]. exists res', resnz'. split; [done|]. split.
  - rewrite Hv, Hres1. replace (Z.to_nat (2 ^ c - 1)) with (size - 1)%nat by lia.
    rewrite Hw. simpl. rewrite gmul_zero. aac_reflexivity.
  - intros Hz. destruct (Hf Hz) as [-> ->]. done.
Qed.

End Bdlo12Sum.

Section Bdlo12Correct.
Context {T : Type} `{GroupLaws T} `{Scalar} `{!Headroom T}.

Lemma msm_const_0 (vec : list T) (scalars : list Z) :
  msm vec ((fun _ => 0) <$> scalars) = zero.
Proof. apply msm_zeros. induction scalars; by constructor. Qed.

Lemma bdlo12_windows_spec (c : Z) (bases : list T) (exps : list Z) (K : nat) :
  forall (result : T) (nz : bool),
  2 <= c <= 30 ->
  exists result' nz',
    bdlo12_windows K c bases exps (result, nz) = Some (result', nz') /\
    flagged result' nz'
    = (gmul (2 ^ (Z.of_nat K * c)) (flagged result nz)
       + msm bases ((fun e => e mod 2 ^ (Z.of_nat K * c)) <$> exps))%G /\
    (nz' = false -> result' = result /\ nz = false).
Proof.
  induction K as [|K IH]; intros result nz Hc.
  - exists result, nz. split; [done|]. split; [|done].
    change (2 ^ (Z.of_nat 0 * c)) with 1. rewrite gmul_1.
    rewrite (msm_ext _ (fun _ => 0)), msm_const_0.
    + aac_reflexivity.
    + apply Forall_forall. intros e _. apply Z.mod_1_r.
  - cbn [bdlo12_windows].
    destruct (bdlo12_window_spec c (Z.of_nat K) bases exps result nz)
      as (r1 & nz1 & -> & Hv1 & Hf1); [done|lia|].
    cbn [mbind option_bind].
    destruct (IH r1 nz1 Hc) as (r2 & nz2 & -> & Hv2 & Hf2).
    exists r2, nz2. split; [done|]. split.
    + rewrite Hv2, Hv1.
      assert (0 < 2 ^ (Z.of_nat K * c)) by (apply Z.pow_pos_nonneg; nia).
      assert (0 < 2 ^ c) by (apply Z.pow_pos_nonneg; lia).
      assert (2 ^ (Z.of_nat (S K) * c) = 2 ^ (Z.of_nat K * c) * 2 ^ c) as ->.
      { rewrite <- Z.pow_add_r by nia. f_equal. lia. }
      rewrite (msm_ext (fun e => e mod (2 ^ (Z.of_nat K * c) * 2 ^ c))
                 (fun e => 2 ^ (Z.of_nat K * c)
                           * ((e / 2 ^ (Z.of_nat K * c)) mod 2 ^ c)
                           + e mod 2 ^ (Z.of_nat K * c))); cycle 1.
      { apply Forall_forall. intros e _. rewrite Z.rem_mul_r by lia. lia. }
      rewrite msm_linear, gmul_add_r, gmul_mul. aac_reflexivity.
    + intros Hz. destruct (Hf2 Hz) as [-> Hz1]. by apply Hf1.
Qed.

Lemma max_num_bits_spec (exps : list Z) (B m0 : Z) :
  0 <= m0 <= B -> Forall (fun e => num_bits e <= B) exps ->
  let m := foldl (fun m e => Z.max m (num_bits e)) m0 exps in
  m0 <= m <= B /\ Forall (fun e => num_bits e <= m) exps.
Proof.
  intros Hm0 Hexps. revert m0 Hm0.
  induction Hexps as [|e exps He _ IH]; intros m0 Hm0; simpl.
  - split; [lia|constructor].
  - destruct (IH (Z.max m0 (num_bits e)) ltac:(lia)) as [Hm Hall].
    split; [lia|]. constructor; [lia|done].
Qed.

Lemma in_field_range (e : Z) :
  in_field e -> 0 <= e /\ num_bits e <= 64 * num_limbs.
Proof.
  intros [He0 He]. split; [done|].
  pose proof num_limbs_range. pose proof modulus_room.
  assert (0 < 2 ^ Z.of_nat (length wnaf_window_table))
    by (apply Z.pow_pos_nonneg; lia).
  apply num_bits_le; lia.
Qed.

(** BDLO12 computes the sum of [s_i * P_i]. *)
Lemma multi_exp_inner_BDLO12_correct (bases : list T) (exps : list Z) :
  length bases = length exps -> Forall in_field exps ->
  Z.of_nat (length bases) <= 2 ^ 42 ->
  multi_exp_inner_BDLO12 bases exps = Some (msm bases exps).
Proof.
  intros Hlen Hexps HL. unfold multi_exp_inner_BDLO12.
  pose proof (bdlo12_c_range _ HL) as Hc.
  set (c := bdlo12_c (Z.of_nat (length bases))) in *.
  rewrite (proj2 (Nat.ltb_ge _ _)) by lia.
  rewrite take_ge by lia.
  replace (as_bigint <$> exps) with exps by (symmetry; apply list_fmap_id).
  pose proof num_limbs_range as Hn.
  assert (64 * num_limbs <= 2 ^ 38) as HB.
  { change (2 ^ 38) with (64 * 2 ^ 32). lia. }
  destruct (max_num_bits_spec exps (64 * num_limbs) 0) as [Hnb Hall]; [lia| |].
  { eapply Forall_impl; [|exact Hexps]. intros e He.
    by apply in_field_range. }
  set (nb := foldl _ 0 exps) in *.
  change (2 ^ 38) with 274877906944 in HB.
  rewrite size_t_small by (change (2 ^ 64) with 18446744073709551616; lia).
  set (K := (nb + c - 1) / c).
  assert (0 <= K /\ nb <= K * c) as [HK0 HKc].
  { unfold K. split; [apply Z.div_pos; lia|].
    pose proof (Z.div_mod (nb + c - 1) c ltac:(lia)).
    pose proof (Z.mod_pos_bound (nb + c - 1) c ltac:(lia)). nia. }
  destruct (bdlo12_windows_spec c bases exps (Z.to_nat K) T_default false Hc)
    as (res & nz & -> & Hv & Hf).
  cbn [mbind option_bind fst]. f_equal.
  rewrite Z2Nat.id in Hv by done. simpl in Hv. rewrite gmul_zero in Hv.
  rewrite (msm_ext _ (fun e => e)), list_fmap_id, add_zero_l in Hv; cycle 1.
  { rewrite Forall_forall in Hall, Hexps |- *. intros e He.
    apply Z.mod_small. destruct (Hexps e He) as [He0 _]. split; [done|].
    eapply Z.lt_le_trans; [apply num_bits_bound; done|].
    apply Z.pow_le_mono_r; [lia|]. specialize (Hall e He). simpl in Hall. lia. }
  destruct nz; simpl in Hv; [done|].
  destruct (Hf eq_refl) as [-> _]. rewrite <- Hv. apply T_default_zero.
Qed.

End Bdlo12Correct.

(** ** The heap of Bos-Coster *)

Section HeapFacts.

(** The heap order everywhere but around node [p], whose parent still
    dominates its children: the state while [a] is pushed down. *)
Definition heap_hole (p : nat) (q : list ordered_exponent) : Prop :=
  (forall i j x y, child i j -> i <> p -> j <> p ->
     q !! i = Some x -> q !! j = Some y -> r y <= r x) /\
  (forall g c x y, child g p -> child p c ->
     q !! g = Some x -> q !! c = Some y -> r y <= r x).

(** The heap order but for node [p] and its parent: the state while [a] is
    taken back up. *)
Definition heap_up (p : nat) (q : list ordered_exponent) : Prop :=
  (forall i j x y, child i j -> j <> p ->
     q !! i = Some x -> q !! j = Some y -> r y <= r x) /\
  (forall g c x y, child g p -> child p c ->
     q !! g = Some x -> q !! c = Some y -> r y <= r x).

Lemma parent_child (p : nat) : (0 < p)%nat -> child ((p - 1) / 2) p.
Proof.
  intros Hp. unfold child.
  pose proof (Nat.div_mod_eq (p - 1) 2).
  pose proof (Nat.mod_upper_bound (p - 1) 2 ltac:(lia)). lia.
Qed.

Lemma odd_length_children (len p : nat) :
  (len mod 2 = 1)%nat -> (2 * p + 1 < len)%nat -> (2 * p + 2 < len)%nat.
Proof.
  intros Hodd Hp. pose proof (Nat.div_mod_eq len 2). lia.
Qed.

Lemma swap_lookup {A} (q q' : list A) (i j : nat) :
  swap q i j = Some q' ->
  q' ≡ₚ q /\ length q' = length q /\
  forall k, q' !! k = if decide (k = i) then q !! j
                      else if decide (k = j) then q !! i else q !! k.
Proof.
  unfold swap. intros Hswap.
  destruct (q !! i) as [x|] eqn:Hx; [|done].
  destruct (q !! j) as [y|] eqn:Hy; [|done]. simplify_eq/=.
  pose proof (lookup_lt_Some _ _ _ Hx). pose proof (lookup_lt_Some _ _ _ Hy).
  split; [by apply Permutation_insert_swap|].
  split; [by rewrite !length_insert|].
  intros k. destruct (decide (k = i)) as [->|Hki].
  - by rewrite list_lookup_insert_eq by (by rewrite length_insert).
  - rewrite list_lookup_insert_ne by done.
    destruct (decide (k = j)) as [->|Hkj].
    + by rewrite list_lookup_insert_eq.
    + by rewrite list_lookup_insert_ne.
Qed.

Lemma swap_is_Some {A} (q : list A) (i j : nat) :
  (i < length q)%nat -> (j < length q)%nat -> is_Some (swap q i j).
Proof.
  intros [x Hx]%lookup_lt_is_Some_2 [y Hy]%lookup_lt_is_Some_2.
  unfold swap. rewrite Hx, Hy. by eexists.
Qed.

Lemma oe_lt_spec (x y : ordered_exponent) : oe_lt x y = true <-> r x < r y.
Proof.
  unfold oe_lt, mpn_cmp. destruct (Z.compare_spec (r x) (r y)); split;
    (done || lia).
Qed.

(** Decides the lookups of a swapped vector in the hypotheses. *)
Ltac swap_cases Hq1 :=
  repeat match goal with
  | H : _ !! _ = Some _ |- _ => rewrite Hq1 in H
  end;
  repeat case_decide; subst; simplify_eq; unfold child in *; try lia.

Lemma heapify_down_spec (len : nat) (fuel : nat) :
  forall (q : list ordered_exponent) (p : nat),
  length q = len -> (len mod 2 = 1)%nat -> (p < len)%nat ->
  (len <= fuel + p)%nat -> heap_hole p q ->
  exists q' p',
    heapify_down fuel len q p = Some (q', p') /\
    q' ≡ₚ q /\ (p' < len)%nat /\ heap_up p' q'.
Proof.
  induction fuel as [|fuel IH]; intros q p Hlen Hodd Hp Hfuel [HA HB].
  - lia.
  - cbn [heapify_down]. destruct (Nat.ltb_spec (2 * p + 2) len) as [Hin|Hleaf].
    + destruct (lookup_lt_is_Some_2 q (2 * p + 1)) as [l Hl]; [lia|].
      destruct (lookup_lt_is_Some_2 q (2 * p + 2)) as [rr Hr]; [lia|].
      destruct (lookup_lt_is_Some_2 q p) as [x Hx]; [lia|].
      rewrite Hl, Hr. cbn [mbind option_bind].
      destruct (oe_lt l rr) eqn:Hlt.
      * apply oe_lt_spec in Hlt.
        destruct (swap_is_Some q p (2 * p + 2)) as [q1 Hswap]; [lia|lia|].
        rewrite Hswap. cbn [mbind option_bind].
        destruct (swap_lookup _ _ _ _ Hswap) as (Hperm & Hlen1 & Hq1).
        destruct (IH q1 (2 * p + 2)%nat) as (q' & p' & E & Hperm' & Hp' & Hup);
          [lia|done|lia|lia| |].
        { split.
          - intros i j a b Hc Hi Hj Ha Hb.
            destruct (decide (i = p)) as [->|Hip].
            + assert (j = (2 * p + 1)%nat) as -> by (unfold child in Hc; lia).
              swap_cases Hq1.
            + destruct (decide (j = p)) as [->|Hjp].
              * swap_cases Hq1. eapply (HB i (2 * p + 2)%nat); unfold child;
                  done || lia.
              * swap_cases Hq1. by eapply (HA i j); unfold child.
          - intros g c a b Hg Hc Ha Hb.
            assert (g = p) as -> by (unfold child in Hg; lia).
            swap_cases Hq1. eapply (HA (2 * p + 2)%nat c); unfold child;
              done || lia. }
        exists q', p'. split; [done|]. split; [by etrans|]. done.
      * assert (r rr <= r l) as Hge.
        { destruct (Z_lt_le_dec (r l) (r rr)) as [Hc%oe_lt_spec|]; [|done].
          congruence. }
        destruct (swap_is_Some q p (2 * p + 1)) as [q1 Hswap]; [lia|lia|].
        rewrite Hswap. cbn [mbind option_bind].
        destruct (swap_lookup _ _ _ _ Hswap) as (Hperm & Hlen1 & Hq1).
        destruct (IH q1 (2 * p + 1)%nat) as (q' & p' & E & Hperm' & Hp' & Hup);
          [lia|done|lia|lia| |].
        { split.
          - intros i j a b Hc Hi Hj Ha Hb.
            destruct (decide (i = p)) as [->|Hip].
            + assert (j = (2 * p + 2)%nat) as -> by (unfold child in Hc; lia).
              swap_cases Hq1.
            + destruct (decide (j = p)) as [->|Hjp].
              * swap_cases Hq1. eapply (HB i (2 * p + 1)%nat); unfold child;
                  done || lia.
              * swap_cases Hq1. by eapply (HA i j); unfold child.
          - intros g c a b Hg Hc Ha Hb.
            assert (g = p) as -> by (unfold child in Hg; lia).
            swap_cases Hq1. eapply (HA (2 * p + 1)%nat c); unfold child;
              done || lia. }
        exists q', p'. split; [done|]. split; [by etrans|]. done.
    + exists q, p. split; [done|]. split; [done|]. split; [done|].
      split; [|done]. intros i j a b Hc Hj Ha Hb.
      destruct (decide (i = p)) as [->|Hip]; [|by eapply (HA i j)].
      apply lookup_lt_Some in Hb. exfalso.
      pose proof (odd_length_children len p Hodd). unfold child in Hc. lia.
Qed.

Lemma heapify_up_spec (fuel : nat) :
  forall (q : list ordered_exponent) (p : nat),
  (p < length q)%nat -> (p <= fuel)%nat -> heap_up p q ->
  exists q', heapify_up fuel q p = Some q' /\ q' ≡ₚ q /\ is_heap q'.
Proof.
  induction fuel as [|fuel IH]; intros q p Hp Hfuel [HA HB].
  - assert (p = 0)%nat as -> by lia. exists q. split; [done|]. split; [done|].
    intros i j a b Hc. apply HA; [done|]. unfold child in Hc. lia.
  - cbn [heapify_up]. destruct (Nat.ltb_spec 0 p) as [Hpos|Hz]; cycle 1.
    { assert (p = 0)%nat as -> by lia. exists q. split; [done|].
      split; [done|]. intros i j a b Hc. apply HA; [done|].
      unfold child in Hc. lia. }
    pose proof (parent_child p Hpos) as Hpc.
    set (pp := ((p - 1) / 2)%nat) in *.
    assert (pp < p)%nat as Hpp by (unfold child in Hpc; lia).
    clearbody pp.
    destruct (lookup_lt_is_Some_2 q pp) as [px Hpx]; [lia|].
    destruct (lookup_lt_is_Some_2 q p) as [x Hx]; [lia|].
    rewrite Hpx, Hx. cbn [mbind option_bind].
    destruct (oe_lt px x) eqn:Hlt.
    + apply oe_lt_spec in Hlt.
      destruct (swap_is_Some q p pp) as [q1 Hswap]; [lia|lia|].
      rewrite Hswap. cbn [mbind option_bind].
      destruct (swap_lookup _ _ _ _ Hswap) as (Hperm & Hlen1 & Hq1).
      destruct (IH q1 pp) as (q' & E & Hperm' & Hheap); [lia|lia| |].
      { split.
        - intros i j a b Hc Hj Ha Hb.
          destruct (decide (j = p)) as [->|Hjp].
          + assert (i = pp) as -> by (unfold child in *; lia).
            swap_cases Hq1.
          + destruct (decide (i = pp)) as [->|Hipp].
            * swap_cases Hq1.
              assert (r b <= r px); [|lia].
              eapply (HA pp j); unfold child; done || lia.
            * destruct (decide (i = p)) as [->|Hip].
              -- swap_cases Hq1. eapply (HB pp j); unfold child; done || lia.
              -- swap_cases Hq1. by eapply (HA i j); unfold child.
        - intros g c a b Hg Hc Ha Hb.
          destruct (decide (c = p)) as [->|Hcp].
          + swap_cases Hq1. eapply (HA g pp); unfold child; done || lia.
          + swap_cases Hq1.
            assert (r b <= r px) by (eapply (HA pp c); unfold child; done || lia).
            assert (r px <= r a) by (eapply (HA g pp); unfold child; done || lia).
            lia. }
      exists q'. split; [done|]. split; [by etrans|done].
    + assert (r x <= r px) as Hge.
      { destruct (Z_lt_le_dec (r px) (r x)) as [Hc%oe_lt_spec|]; [|done].
        congruence. }
      exists q. split; [done|]. split; [done|].
      intros i j a b Hc Ha Hb.
      destruct (decide (j = p)) as [->|Hjp]; [|by eapply (HA i j)].
      assert (i = pp) as -> by (unfold child in *; lia). by simplify_eq.
Qed.

(** Below the two children of the root nothing is larger than they are. *)
Lemma heap_below_root (q : list ordered_exponent) (q1 q2 : ordered_exponent) :
  is_heap q -> q !! 1%nat = Some q1 -> q !! 2%nat = Some q2 ->
  forall j y, (1 <= j)%nat -> q !! j = Some y -> r y <= Z.max (r q1) (r q2).
Proof.
  intros Hheap H1 H2 j. induction (lt_wf j) as [j _ IH]. intros y Hj Hy.
  destruct (decide (j = 1)%nat) as [->|]; [simplify_eq; lia|].
  destruct (decide (j = 2)%nat) as [->|]; [simplify_eq; lia|].
  pose proof (parent_child j ltac:(lia)) as Hc.
  set (pp := ((j - 1) / 2)%nat) in *.
  assert (1 <= pp < j)%nat as Hpp by (unfold child in Hc; lia).
  clearbody pp.
  destruct (lookup_lt_is_Some_2 q pp) as [x Hx].
  { apply lookup_lt_Some in Hy. lia. }
  pose proof (Hheap pp j x y Hc Hx Hy).
  pose proof (IH pp ltac:(lia) x ltac:(lia) Hx). lia.
Qed.

(** Modifying the root leaves a hole at the root. *)
Lemma heap_hole_root (q : list ordered_exponent) (a : ordered_exponent) :
  is_heap q -> heap_hole 0 (<[0%nat:=a]> q).
Proof.
  intros Hheap. split.
  - intros i j x y Hc Hi Hj Hx Hy.
    rewrite list_lookup_insert_ne in Hx, Hy by done. by eapply Hheap.
  - intros g c x y Hg. unfold child in Hg. lia.
Qed.

(** A node with residual zero appended to a heap of non-negative residuals
    keeps the order. *)
Lemma is_heap_snoc (q : list ordered_exponent) (e : ordered_exponent) :
  is_heap q -> Forall (fun x => 0 <= r x) q -> r e = 0 -> is_heap (q ++ [e]).
Proof.
  intros Hheap Hpos He i j x y Hc Hx Hy.
  assert (i < j)%nat by (unfold child in Hc; lia).
  apply lookup_snoc_Some in Hy as [[Hj Hy]|[Hj <-]].
  - rewrite lookup_app_l in Hx by lia. by eapply Hheap.
  - rewrite lookup_app_l in Hx by lia. rewrite He.
    rewrite Forall_forall in Hpos. apply Hpos.
    apply list_elem_of_In. by eapply list_elem_of_lookup_2.
Qed.

End HeapFacts.

(** ** Bos-Coster *)

Section BosCosterFacts.
Context {T : Type} `{GroupLaws T} `{Scalar} `{!Headroom T}.
Context `{StdHeapLaws}.

(** [g[i]]. *)
Definition g_at (g : list T) (i : nat) : T := default zero (g !! i).

(** The sum of [r * g[idx]] over the nodes, and the sum of the residuals. *)
Definition qsum (g : list T) (q : list ordered_exponent) : T :=
  foldr (fun e acc => (gmul (r e) (g_at g (idx e)) + acc)%G) zero q.

Definition residual_sum (q : list ordered_exponent) : Z :=
  foldr (fun e acc => r e + acc) 0 q.

Lemma qsum_cons (g : list T) (e : ordered_exponent)
    (q : list ordered_exponent) :
  qsum g (e :: q) = (gmul (r e) (g_at g (idx e)) + qsum g q)%G.
Proof. done. Qed.

Local Arguments qsum : simpl never.

Lemma qsum_perm (g : list T) (q q' : list ordered_exponent) :
  q ≡ₚ q' -> qsum g q = qsum g q'.
Proof.
  induction 1 as [|e q q' _ IH|e1 e2 q|q1 q2 q3 _ IH1 _ IH2];
    rewrite ?qsum_cons.
  - done.
  - by rewrite IH.
  - aac_reflexivity.
  - by rewrite IH1.
Qed.

Lemma residual_sum_perm (q q' : list ordered_exponent) :
  q ≡ₚ q' -> residual_sum q = residual_sum q'.
Proof.
  induction 1 as [|e q q' _ IH|e1 e2 q|q1 q2 q3 _ IH1 _ IH2]; simpl; lia.
Qed.

Lemma qsum_zero (g : list T) (q : list ordered_exponent) :
  Forall (fun e => r e = 0) q -> qsum g q = zero.
Proof.
  induction 1 as [|e q He _ IH]; [done|].
  by rewrite qsum_cons, He, IH, gmul_0, add_zero_l.
Qed.

Lemma qsum_insert_other (g : list T) (k : nat) (v : T)
    (q : list ordered_exponent) :
  Forall (fun e => idx e <> k) q -> qsum (<[k:=v]> g) q = qsum g q.
Proof.
  induction 1 as [|e q He _ IH]; [done|].
  rewrite !qsum_cons, IH. unfold g_at. by rewrite list_lookup_insert_ne.
Qed.

Lemma residual_sum_nonneg (q : list ordered_exponent) :
  Forall (fun e => in_field (r e)) q -> 0 <= residual_sum q.
Proof.
  induction 1 as [|e q [He _] _ IH]; simpl; lia.
Qed.

(** The loop invariant: a heap of [len] nodes (an odd number) with residuals
    of the field, naming [len] distinct bases, and the sum still owed. *)
Definition bc_inv (len : nat) (target : T)
    (st : list ordered_exponent * list T * T) : Prop :=
  let '(opt_q, g, opt_result) := st in
  length opt_q = len /\ length g = len /\
  (len mod 2 = 1)%nat /\ (3 <= len)%nat /\
  is_heap opt_q /\
  Forall (fun e => in_field (r e)) opt_q /\
  NoDup (idx <$> opt_q) /\
  Forall (fun e => (idx e < len)%nat) opt_q /\
  (opt_result + qsum g opt_q)%G = target.

Definition bc_measure (st : list ordered_exponent * list T * T) : Z :=
  residual_sum st.1.1.

(** Pushing the root down and taking it back up restores the heap. *)
Lemma reheapify_spec (len : nat) (q : list ordered_exponent)
    (a : ordered_exponent) :
  length q = len -> (len mod 2 = 1)%nat -> (3 <= len)%nat -> is_heap q ->
  exists q1 a_pos q2,
    heapify_down len len (<[0%nat:=a]> q) 0 = Some (q1, a_pos) /\
    heapify_up a_pos q1 a_pos = Some q2 /\
    q2 ≡ₚ <[0%nat:=a]> q /\ is_heap q2.
Proof.
  intros Hlen Hodd Hlen3 Hheap.
  destruct (heapify_down_spec len len (<[0%nat:=a]> q) 0)
    as (q1 & a_pos & E1 & Hperm1 & Hpos & Hup);
    [by rewrite length_insert|done|lia|lia|by apply heap_hole_root|].
  destruct (heapify_up_spec a_pos q1 a_pos) as (q2 & E2 & Hperm2 & Hheap2);
    [|lia|done|].
  { apply Permutation_length in Hperm1. rewrite length_insert in Hperm1. lia. }
  exists q1, a_pos, q2. split; [done|]. split; [done|].
  split; [by etrans|done].
Qed.

Lemma mpn_sub_n_exact (x y : Z) :
  in_field x -> 0 <= y <= x -> mpn_sub_n num_limbs x y = x - y.
Proof.
  intros [Hx0 Hx] Hy. unfold mpn_sub_n. apply Z.mod_small.
  rewrite modulus_of_num_limbs. pose proof modulus_room.
  assert (0 < 2 ^ Z.of_nat (length wnaf_window_table))
    by (apply Z.pow_pos_nonneg; lia).
  lia.
Qed.

(** One round of the loop: it ends with the sum, or it keeps the invariant
    and takes at least 1 from the residuals. *)
Lemma bos_coster_step_spec (len : nat) (target : T)
    (st : list ordered_exponent * list T * T) :
  bc_inv len target st ->
  bos_coster_step len st = Some (inr target) \/
  exists st',
    bos_coster_step len st = Some (inl st') /\
    bc_inv len target st' /\ bc_measure st' + 1 <= bc_measure st.
Proof.
  destruct st as [[q g] res].
  intros (Hlq & Hlg & Hodd & Hlen3 & Hheap & Hfield & Hnd & Hidx & Hsum).
  destruct q as [|a [|q1 [|q2 rest]]]; simpl in Hlq; try lia.
  unfold bos_coster_step.
  change ((a :: q1 :: q2 :: rest) !! 0%nat) with (Some a).
  change ((a :: q1 :: q2 :: rest) !! 1%nat) with (Some q1).
  change ((a :: q1 :: q2 :: rest) !! 2%nat) with (Some q2).
  cbn [mbind option_bind].
  pose proof (Hheap 0%nat 1%nat a q1 ltac:(by left) eq_refl eq_refl) as Ha1.
  pose proof (Hheap 0%nat 2%nat a q2 ltac:(by right) eq_refl eq_refl) as Ha2.
  pose proof (Forall_inv Hfield) as Hfa.
  pose proof (Forall_inv_tail Hfield) as Hfield1.
  pose proof (Forall_inv Hfield1) as Hf1.
  pose proof (Forall_inv (Forall_inv_tail Hfield1)) as Hf2.
  pose proof (Forall_inv Hidx) as Hia.
  pose proof (Forall_inv_tail Hidx) as Hidx1. simpl in Hfa, Hf1, Hf2, Hia.
  destruct (lookup_lt_is_Some_2 g (idx a)) as [ga Hga]; [lia|].
  rewrite Hga. cbn [mbind option_bind].
  assert (g_at g (idx a) = ga) as Hga' by (unfold g_at; by rewrite Hga).
  rewrite opt_window_wnaf_exp_field by exact Hfa.
  cbn [mbind option_bind].
  set (b := if oe_lt q1 q2 then q2 else q1).
  assert (in_field (r b) /\ r b <= r a /\ r q1 <= r b /\ r q2 <= r b /\
          exists bpos, (bpos = 1 \/ bpos = 2)%nat /\
            (a :: q1 :: q2 :: rest) !! bpos = Some b)
    as (Hfb & Hba & H1b & H2b & bpos & Hbpos & Hb).
  { unfold b. destruct (oe_lt q1 q2) eqn:Hlt.
    - apply oe_lt_spec in Hlt. split_and!; try done; try lia.
      exists 2%nat. split; [lia|done].
    - assert (r q2 <= r q1).
      { destruct (Z_lt_le_dec (r q1) (r q2)) as [Hc%oe_lt_spec|]; [|done].
        congruence. }
      split_and!; try done; try lia. exists 1%nat. split; [lia|done]. }
  clearbody b. unfold is_zero.
  destruct (Z.eqb_spec (r b) 0) as [Hbz|Hbnz].
  - (* every other residual is zero *)
    left. do 2 f_equal. rewrite <- Hsum, qsum_cons, Hga'.
    rewrite (qsum_zero g (q1 :: q2 :: rest)); [aac_reflexivity|].
    apply Forall_forall. intros e He.
    apply list_elem_of_In, list_elem_of_lookup in He as [j Hj].
    pose proof (heap_below_root (a :: q1 :: q2 :: rest) q1 q2 Hheap
                  eq_refl eq_refl (S j) e ltac:(lia) Hj) as Hle.
    rewrite Forall_forall in Hfield1.
    destruct (Hfield1 e) as [He0 _].
    { apply list_elem_of_In. by eapply list_elem_of_lookup_2. }
    lia.
  - right. destruct Hfb as [Hb0 HbM].
    set (limit := if size_t _ >=? 20 then _ else _). clearbody limit.
    (* the new root and bases *)
    set (upd := if num_bits (r b) <? shl_ulong 1 limit then _ else _).
    assert (exists a' g' res',
      upd = Some (<[0%nat:=a']> (a :: q1 :: q2 :: rest), g', res') /\
      idx a' = idx a /\ in_field (r a') /\ r a' + 1 <= r a /\
      length g' = len /\
      (res' + qsum g' (a' :: q1 :: q2 :: rest))%G = target)
      as (a' & g' & res' & -> & Hia' & Hfa' & Hra' & Hlg' & Hsum').
    { unfold upd. destruct (num_bits (r b) <? shl_ulong 1 limit).
      - exists (set_r a (clear (r a))), g, (res + gmul (r a) ga)%G.
        split; [done|]. split; [done|]. unfold clear. simpl.
        split; [unfold in_field in *; lia|]. split; [lia|]. split; [done|].
        rewrite <- Hsum, !(qsum_cons g). simpl. rewrite Hga', gmul_0.
        aac_reflexivity.
      - set (tl := q1 :: q2 :: rest) in *.
        assert (exists D, tl ≡ₚ b :: D) as [D HD].
        { exists (delete (bpos - 1)%nat tl). apply delete_Permutation.
          destruct Hbpos as [-> | ->]; exact Hb. }
        assert (idx b <> idx a /\ (idx b < len)%nat /\
                Forall (fun e => idx e <> idx b) D)
          as (Hiba & Hibl & Hothers).
        { change (a :: tl) with ([a] ++ tl) in Hnd.
          rewrite HD in Hnd, Hidx1. simpl in Hnd.
          apply list.NoDup_cons in Hnd as [Hna Hnd].
          apply list.NoDup_cons in Hnd as [Hnb _].
          apply not_elem_of_cons in Hna as [Hna _].
          split; [done|]. split; [exact (Forall_inv Hidx1)|].
          apply list.Forall_forall. intros e He Heq. apply Hnb.
          rewrite <- Heq. by apply list_elem_of_fmap_2. }
        destruct (lookup_lt_is_Some_2 g (idx b)) as [gb Hgb]; [lia|].
        rewrite Hgb. cbn [mbind option_bind].
        exists (set_r a (mpn_sub_n num_limbs (r a) (r b))),
          (<[idx b:=(gb + ga)%G]> g), res.
        split; [done|]. split; [done|]. simpl.
        rewrite mpn_sub_n_exact by (done || lia).
        split; [unfold in_field in *; lia|]. split; [lia|].
        split; [by rewrite length_insert|].
        change (a :: tl) with ([a] ++ tl) in Hsum.
        rewrite <- Hsum, (qsum_perm g _ _ (Permutation_app_head [a] HD)).
        rewrite (qsum_perm _ (_ :: tl) ([set_r a (r a - r b)] ++ b :: D));
          [|by apply (Permutation_app_head [_])].
        cbn [app]. rewrite !qsum_cons, qsum_insert_other by done.
        unfold g_at at 1 2. cbn [idx r set_r].
        rewrite list_lookup_insert_ne, list_lookup_insert_eq
          by (done || lia).
        unfold g_at. rewrite Hga, Hgb. simpl.
        replace (r a) with ((r a - r b) + r b) at 2 by lia.
        rewrite gmul_add, gmul_add_r. aac_reflexivity. }
    cbn [mbind option_bind].
    destruct (reheapify_spec len (a :: q1 :: q2 :: rest) a')
      as (qd & a_pos & qu & -> & E2 & Hperm & Hheap'); try done.
    cbn [mbind option_bind]. rewrite E2. cbn [mbind option_bind].
    exists (qu, g', res'). split; [done|].
    change (<[0%nat:=a']> (a :: q1 :: q2 :: rest))
      with (a' :: q1 :: q2 :: rest) in Hperm.
    split.
    + split_and!; try done.
      * apply Permutation_length in Hperm. simpl in *. lia.
      * rewrite Hperm. by constructor.
      * rewrite Hperm. simpl. by rewrite Hia'.
      * rewrite Hperm. constructor; [by rewrite Hia'|done].
      * by rewrite (qsum_perm g' qu _ Hperm).
    + unfold bc_measure. simpl. rewrite (residual_sum_perm qu _ Hperm).
      simpl. lia.
Qed.

(** [iter_pow2] under an invariant and a measure that every round but the
    last lowers. *)
Lemma iter_pow2_spec {S R} (step : S -> option (S + R)) (Inv : S -> Prop)
    (mu : S -> Z) (target : R) :
  (forall s, Inv s ->
     step s = Some (inr target) \/
     exists s', step s = Some (inl s') /\ Inv s' /\ mu s' + 1 <= mu s) ->
  forall (k : nat) (s : S), Inv s ->
    iter_pow2 k step s = Some (inr target) \/
    exists s', iter_pow2 k step s = Some (inl s') /\ Inv s' /\
               mu s' + 2 ^ Z.of_nat k <= mu s.
Proof.
  intros Hstep. induction k as [|k IH]; intros s Hs.
  - apply Hstep, Hs.
  - cbn [iter_pow2].
    destruct (IH s Hs) as [->|(s1 & -> & Hs1 & Hmu1)]; [by left|].
    destruct (IH s1 Hs1) as [->|(s2 & -> & Hs2 & Hmu2)]; [by left|].
    right. exists s2. split; [done|]. split; [done|].
    rewrite Nat2Z.inj_succ, Z.pow_succ_r by lia. lia.
Qed.

(** The nodes [(k + i, scalars[i])]. *)
Definition nodes_from (k : nat) (scalars : list Z) : list ordered_exponent :=
  imap (fun i s => OrderedExponent (k + i) s) scalars.

Lemma nodes_from_cons (k : nat) (s : Z) (scalars : list Z) :
  nodes_from k (s :: scalars)
  = OrderedExponent k s :: nodes_from (S k) scalars.
Proof.
  unfold nodes_from. rewrite imap_cons. f_equal; [f_equal; lia|].
  apply imap_ext. intros i x _. simpl. f_equal. lia.
Qed.

Lemma nodes_from_idx (scalars : list Z) : forall k,
  idx <$> nodes_from k scalars = seq k (length scalars).
Proof.
  induction scalars as [|s scalars IH]; intros k; [done|].
  rewrite nodes_from_cons. simpl. by rewrite IH.
Qed.

Lemma nodes_from_r (scalars : list Z) : forall k,
  r <$> nodes_from k scalars = scalars.
Proof.
  induction scalars as [|s scalars IH]; intros k; [done|].
  rewrite nodes_from_cons. simpl. by rewrite IH.
Qed.

Lemma nodes_from_qsum (g : list T) (scalars : list Z) : forall k,
  qsum g (nodes_from k scalars) = msm (drop k g) scalars.
Proof.
  induction scalars as [|s scalars IH]; intros k.
  - by rewrite msm_nil_r.
  - rewrite nodes_from_cons, qsum_cons, IH. unfold g_at. simpl.
    destruct (g !! k) as [x|] eqn:Hx.
    + by rewrite (drop_S g x k Hx).
    + apply lookup_ge_None in Hx. rewrite !drop_ge by lia. simpl.
      rewrite gmul_zero. aac_reflexivity.
Qed.

Lemma residual_sum_bound (q : list ordered_exponent) :
  Forall (fun e => in_field (r e)) q ->
  residual_sum q <= Z.of_nat (length q) * modulus.
Proof.
  induction 1 as [|e q [He0 He] _ IH]; simpl; [done|]. lia.
Qed.

Lemma msm_snoc_zero (vec : list T) (scalars : list Z) :
  length vec = length scalars -> msm (vec ++ [zero]) scalars = msm vec scalars.
Proof.
  intros Hlen. rewrite <- (app_nil_r scalars) at 1.
  rewrite msm_app by done. simpl. apply add_zero_r.
Qed.

(** The state before the loop satisfies the invariant, and the residuals sum
    to less than [2^(max_bits + odd_vec_len)]. *)
Lemma bos_coster_init_spec (vec : list T) (scalars : list Z) :
  length vec = length scalars -> (2 <= length vec)%nat ->
  Forall in_field scalars ->
  exists len st,
    bos_coster_init vec scalars = Some (len, st) /\
    bc_inv len (msm vec scalars) st /\
    bc_measure st < 2 ^ Z.of_nat (Z.to_nat (max_bits num_limbs) + len).
Proof.
  intros Hlen H2len Hfield. unfold bos_coster_init.
  rewrite (proj2 (Nat.eqb_eq _ _)) by done. cbn [negb].
  change (bos_coster_nodes scalars) with (nodes_from 0 scalars).
  set (L := length scalars) in *.
  pose proof (make_heap_perm (nodes_from 0 scalars)) as Hperm.
  pose proof (make_heap_is_heap (nodes_from 0 scalars)) as Hheap.
  set (q0 := make_heap (nodes_from 0 scalars)) in *. clearbody q0.
  assert (length q0 = L) as Hlq0.
  { rewrite (Permutation_length Hperm). unfold nodes_from.
    by rewrite length_imap. }
  assert (Forall (fun e => in_field (r e)) q0) as Hf0.
  { rewrite Hperm. pose proof Hfield as Hfield'.
    rewrite <- (nodes_from_r scalars 0) in Hfield'.
    rewrite list.Forall_fmap in Hfield'. exact Hfield'. }
  assert (idx <$> q0 ≡ₚ seq 0 L) as Hidx0.
  { rewrite Hperm. by rewrite nodes_from_idx. }
  assert (qsum vec q0 = msm vec scalars) as Hsum0.
  { rewrite (qsum_perm _ _ _ Hperm). apply nodes_from_qsum. }
  assert (forall q len, Forall (fun e => in_field (r e)) q -> length q = len ->
            residual_sum q < 2 ^ Z.of_nat (Z.to_nat (max_bits num_limbs) + len))
    as Hbound.
  { intros q len Hq Hl. pose proof (residual_sum_bound q Hq) as Hb.
    pose proof num_limbs_range. pose proof modulus_room.
    assert (0 < 2 ^ Z.of_nat (length wnaf_window_table))
      by (apply Z.pow_pos_nonneg; lia).
    rewrite Nat2Z.inj_add, Z2Nat.id, Z.pow_add_r
      by (unfold max_bits, limb_bits; lia).
    fold (modulus_of num_limbs). rewrite modulus_of_num_limbs.
    pose proof (Z.pow_gt_lin_r 2 (Z.of_nat len) ltac:(lia) ltac:(lia)).
    pose proof (residual_sum_nonneg q Hq). subst len.
    assert (0 < modulus \/ residual_sum q = 0) as [Hm|Hz] by nia.
    + nia.
    + assert (0 < 2 ^ (64 * num_limbs)) by lia. nia. }
  assert (forall e, e ∈ q0 -> (idx e < L)%nat) as Hidxlt.
  { intros e He. apply (list_elem_of_fmap_2 idx) in He.
    rewrite Hidx0 in He. apply elem_of_seq in He. lia. }
  destruct (Nat.eqb_spec (L mod 2) 1) as [Hodd|Heven].
  - rewrite Nat.eqb_refl. cbn [negb].
    rewrite Hlq0, Hlen, Hodd, !Nat.eqb_refl. cbn [negb andb].
    exists L, (q0, vec, zero). split; [done|]. split.
    + pose proof (Nat.div_mod_eq L 2). split_and!; try done; try lia.
      * rewrite Hidx0. apply NoDup_seq.
      * by apply list.Forall_forall.
      * by rewrite Hsum0, add_zero_l.
    + by apply Hbound.
  - rewrite (proj2 (Nat.eqb_neq L (L + 1))) by lia. cbn [negb].
    assert ((L + 1) mod 2 = 1)%nat as Hodd.
    { pose proof (Nat.div_mod_eq L 2). pose proof (Nat.div_mod_eq (L + 1) 2).
      pose proof (Nat.mod_upper_bound L 2 ltac:(lia)).
      pose proof (Nat.mod_upper_bound (L + 1) 2 ltac:(lia)). lia. }
    rewrite !length_app, Hlq0, Hlen. cbn [length].
    rewrite Hodd, !Nat.eqb_refl. cbn [negb andb].
    replace (L + 1 - 1)%nat with L by lia.
    set (pad := OrderedExponent L 0).
    exists (L + 1)%nat, (q0 ++ [pad], vec ++ [zero], zero).
    split; [done|].
    assert (Forall (fun e => in_field (r e)) (q0 ++ [pad])) as Hf1.
    { apply Forall_app. split; [done|]. constructor; [|done]. simpl.
      split; [done|]. clear -Hfield H2len Hlen.
      destruct scalars as [|s1 ?]; [simpl in *; lia|].
      pose proof (Forall_inv Hfield) as [? ?]. lia. }
    split.
    + split_and!; try done; try lia.
      * by rewrite length_app, Hlq0.
      * by rewrite length_app, Hlen.
      * apply is_heap_snoc; [done| |done].
        eapply Forall_impl; [|exact Hf0]. by intros e [? _].
      * rewrite fmap_app, Hidx0. simpl.
        replace (seq 0 L ++ [L]) with (seq 0 (S L))
          by (by rewrite seq_S). apply NoDup_seq.
      * apply Forall_app. split.
        -- apply list.Forall_forall. intros e He. specialize (Hidxlt e He). lia.
        -- constructor; [simpl; lia|done].
      * rewrite (qsum_perm _ (q0 ++ [pad]) (pad :: q0))
          by (by rewrite Permutation_app_comm).
        rewrite qsum_cons, (qsum_perm _ _ _ Hperm), nodes_from_qsum.
        simpl. rewrite drop_0, msm_snoc_zero, gmul_0 by done. aac_reflexivity.
    + apply Hbound; [done|]. cbn [fst]. by rewrite length_app, Hlq0.
Qed.

(** Bos-Coster computes the sum of [s_i * P_i]. *)
Lemma multi_exp_inner_bos_coster_correct (vec : list T) (scalars : list Z) :
  length vec = length scalars -> Forall in_field scalars ->
  multi_exp_inner_bos_coster vec scalars = Some (msm vec scalars).
Proof.
  intros Hlen Hfield. unfold multi_exp_inner_bos_coster.
  destruct vec as [|v1 [|v2 vec]].
  - done.
  - destruct scalars as [|s [|? ?]]; simplify_eq/=. by rewrite add_zero_r.
  - destruct (bos_coster_init_spec (v1 :: v2 :: vec) scalars)
      as (len & st & Hinit & Hinv & Hmu); [done|simpl; lia|done|].
    destruct scalars as [|s1 scalars]; [done|].
    rewrite Hinit. cbn [mbind option_bind].
    set (k := (Z.to_nat (max_bits num_limbs) + len)%nat) in *.
    destruct (iter_pow2_spec (bos_coster_step len) (bc_inv len _) bc_measure
                (msm (v1 :: v2 :: vec) (s1 :: scalars))
                (bos_coster_step_spec len _) k st Hinv)
      as [->|(st' & _ & Hinv' & Hmu')]; [done|].
    exfalso. destruct st' as [[q' g'] res'].
    destruct Hinv' as (_ & _ & _ & _ & _ & Hf' & _).
    pose proof (residual_sum_nonneg q' Hf'). unfold bc_measure in *.
    simpl in *. lia.
Qed.

End BosCosterFacts.


(** ** The entry points compute the sum of [s_i * P_i] *)

Section MultiExpFacts.
Context {T : Type} `{GroupLaws T} `{Scalar} `{!Headroom T}.
Context `{StdHeapLaws}.

Lemma multi_exp_inner_correct (Method : multi_exp_method) (vec : list T)
    (scalars : list Z) :
  length vec = length scalars -> Forall in_field scalars ->
  Z.of_nat (length vec) <= 2 ^ 42 ->
  multi_exp_inner Method vec scalars = Some (msm vec scalars).
Proof.
  intros Hlen Hfield HL. destruct Method; simpl.
  - rewrite naive_loop_correct by done. by rewrite add_zero_l.
  - rewrite naive_plain_loop_correct by done. by rewrite add_zero_l.
  - by apply multi_exp_inner_BDLO12_correct.
  - by apply multi_exp_inner_bos_coster_correct.
Qed.

Lemma mapM_pointwise {A B} (f : A -> option B) (g : A -> B) (l : list A) :
  Forall (fun x => f x = Some (g x)) l -> mapM f l = Some (g <$> l).
Proof.
  induction 1 as [|x l Hx _ IH]; [done|].
  cbn [mapM]. rewrite Hx. cbn [mbind option_bind]. by rewrite IH.
Qed.

Lemma foldl_add_snoc (l : list T) (x : T) :
  foldl add zero (l ++ [x]) = (foldl add zero l + x)%G.
Proof. by rewrite foldl_app. Qed.

(** The partial sums of the first [m] chunks of [one] elements. *)
Lemma chunk_prefix_sum (vec : list T) (scalars : list Z) (one m : nat) :
  length vec = length scalars ->
  foldl add zero
    ((fun i => msm (range vec (i * one) ((i + 1) * one))
                 (range scalars (i * one) ((i + 1) * one))) <$> seq 0 m)
  = msm (take (m * one) vec) (take (m * one) scalars).
Proof.
  intros Hlen. induction m as [|m IH]; [done|].
  rewrite seq_S, Nat.add_0_l, fmap_app, foldl_app, IH.
  cbn [fmap list_fmap foldl]. unfold range. replace ((m + 1) * one - m * one)%nat with one by lia.
  replace (S m * one)%nat with (m * one + one)%nat by lia.
  rewrite <- !take_take_drop, msm_app; [done|].
  rewrite !length_take. lia.
Qed.

Lemma multi_exp_correct (Method : multi_exp_method) (vec : list T)
    (scalars : list Z) (chunks : nat) :
  length vec = length scalars -> Forall in_field scalars ->
  Z.of_nat (length vec) <= 2 ^ 42 -> (1 <= chunks)%nat ->
  multi_exp Method vec scalars chunks = Some (msm vec scalars).
Proof.
  intros Hlen Hfield HL Hchunks. unfold multi_exp.
  destruct ((length vec <? chunks)%nat || (chunks =? 1)%nat) eqn:Hdirect.
  { by apply multi_exp_inner_correct. }
  apply orb_false_iff in Hdirect as [Hge Hne].
  apply Nat.ltb_ge in Hge. apply Nat.eqb_neq in Hne.
  rewrite (proj2 (Nat.eqb_neq chunks 0)) by lia.
  set (one := (length vec / chunks)%nat).
  assert ((chunks - 1) * one <= length vec)%nat as Hlast.
  { pose proof (Nat.div_mod_eq (length vec) chunks) as Hdm.
    fold one in Hdm. nia. }
  set (part := fun i =>
    if (i =? chunks - 1)%nat
    then msm (drop (i * one) vec) (drop (i * one) scalars)
    else msm (range vec (i * one) ((i + 1) * one))
           (range scalars (i * one) ((i + 1) * one))).
  rewrite (mapM_pointwise _ part); cycle 1.
  { apply list.Forall_forall. intros i _. unfold multi_exp_chunk, part.
    destruct (i =? chunks - 1)%nat.
    - apply multi_exp_inner_correct.
      + rewrite !length_drop. lia.
      + by apply Forall_drop.
      + rewrite length_drop. lia.
    - apply multi_exp_inner_correct.
      + unfold range. rewrite !length_take, !length_drop. lia.
      + unfold range. by apply Forall_take, Forall_drop.
      + unfold range. rewrite length_take, length_drop. lia. }
  cbn [mbind option_bind]. f_equal.
  replace chunks with (S (chunks - 1)) at 1 by lia.
  rewrite seq_S, Nat.add_0_l, fmap_app, foldl_app. cbn [fmap list_fmap foldl].
  rewrite (list_fmap_ext part
             (fun i => msm (range vec (i * one) ((i + 1) * one))
                         (range scalars (i * one) ((i + 1) * one)))); cycle 1.
  { intros i x [-> Hi]%lookup_seq. unfold part.
    by rewrite (proj2 (Nat.eqb_neq _ _)) by lia. }
  rewrite chunk_prefix_sum by done. unfold part. rewrite Nat.eqb_refl.
  rewrite <- msm_app by (rewrite !length_take; lia).
  by rewrite !take_drop.
Qed.

Lemma mixed_addition_loop_spec (scalars : list Z) :
  forall (vec : list T) (acc : T) (p : list Z) (g : list T),
  length vec = length scalars -> length g = length p ->
  Forall in_field scalars -> Forall in_field p ->
  exists acc' p' g',
    mixed_addition_loop scalars vec (acc, p, g) = Some (acc', p', g') /\
    length g' = length p' /\ Forall in_field p' /\
    (length g' <= length g + length vec)%nat /\
    (acc' + msm g' p')%G = (acc + msm g p + msm vec scalars)%G.
Proof.
  induction scalars as [|s scalars IH];
    intros [|v vec] acc p g Hlen Hgp Hs Hp; simplify_eq/=.
  - exists acc, p, g. split_and!; try done; [lia|aac_reflexivity].
  - pose proof (Forall_inv Hs) as Hs1. pose proof (Forall_inv_tail Hs) as Hs2.
    destruct (Z.eqb_spec s 0) as [->|Hs0]; [|destruct (Z.eqb_spec s 1) as [->|Hs1']].
    + destruct (IH vec acc p g) as (acc' & p' & g' & -> & ? & ? & ? & E);
        try done.
      exists acc', p', g'. split_and!; try done; [lia|].
      rewrite E, gmul_0. aac_reflexivity.
    + destruct (IH vec (acc + v)%G p g) as (acc' & p' & g' & -> & ? & ? & ? & E);
        try done.
      exists acc', p', g'. split_and!; try done; [lia|].
      rewrite E, gmul_1. aac_reflexivity.
    + destruct (IH vec acc (p ++ [s]) (g ++ [v]))
        as (acc' & p' & g' & -> & ? & ? & Hl & E); try done.
      { rewrite !length_app. simpl. lia. }
      { apply Forall_app. split; [done|]. by constructor. }
      exists acc', p', g'. rewrite length_app in Hl. simpl in Hl.
      split_and!; try done; [lia|].
      rewrite E, msm_app by done. simpl. aac_reflexivity.
Qed.

Lemma multi_exp_with_mixed_addition_correct (Method : multi_exp_method)
    (vec : list T) (scalars : list Z) (chunks : nat) :
  length vec = length scalars -> Forall in_field scalars ->
  Z.of_nat (length vec) <= 2 ^ 42 -> (1 <= chunks)%nat ->
  multi_exp_with_mixed_addition Method vec scalars chunks
  = Some (msm vec scalars).
Proof.
  intros Hlen Hfield HL Hchunks. unfold multi_exp_with_mixed_addition.
  rewrite (proj2 (Nat.eqb_eq _ _)) by done. cbn [negb].
  destruct (mixed_addition_loop_spec scalars vec zero [] [])
    as (acc & p & g & -> & Hgp & Hp & Hl & E); try done.
  cbn [mbind option_bind].
  rewrite multi_exp_correct; try done; [|simpl in Hl; lia].
  cbn [mbind option_bind]. f_equal. rewrite E. simpl. aac_reflexivity.
Qed.

End MultiExpFacts.

(** ** The instances satisfy the contracts *)

(** Sorted by descending residual. *)
Fixpoint desc_sorted (l : list ordered_exponent) : Prop :=
  match l with
  | [] => True
  | x :: l' => Forall (fun y => r y <= r x) l' /\ desc_sorted l'
  end.

Lemma insert_desc_perm (x : ordered_exponent) (l : list ordered_exponent) :
  insert_desc x l ≡ₚ x :: l.
Proof.
  induction l as [|y l IH]; simpl; [done|].
  destruct (r y <? r x); [done|]. rewrite IH. apply Permutation_swap.
Qed.

Lemma insert_desc_sorted (x : ordered_exponent) (l : list ordered_exponent) :
  desc_sorted l -> desc_sorted (insert_desc x l).
Proof.
  induction l as [|y l IH]; intros Hl; simpl; [by split|].
  destruct Hl as [Hy Hl]. destruct (Z.ltb_spec (r y) (r x)) as [Hlt|Hge].
  - simpl. split_and!; try done. constructor; [lia|].
    eapply Forall_impl; [|exact Hy]. simpl. lia.
  - simpl. split; [|by apply IH]. rewrite insert_desc_perm. by constructor.
Qed.

Lemma sort_desc_perm (l : list ordered_exponent) : sort_desc l ≡ₚ l.
Proof.
  induction l as [|x l IH]; simpl; [done|].
  by rewrite insert_desc_perm, IH.
Qed.

Lemma sort_desc_sorted (l : list ordered_exponent) : desc_sorted (sort_desc l).
Proof.
  induction l as [|x l IH]; simpl; [done|]. by apply insert_desc_sorted.
Qed.

Lemma desc_sorted_lookup (l : list ordered_exponent) :
  desc_sorted l -> forall i j x y, (i < j)%nat ->
  l !! i = Some x -> l !! j = Some y -> r y <= r x.
Proof.
  induction l as [|z l IH]; intros Hl i j x y Hij Hx Hy; [done|].
  destruct Hl as [Hz Hl]. destruct j as [|j]; [lia|]. simpl in Hy.
  destruct i as [|i]; simpl in Hx.
  - injection Hx as <-. rewrite list.Forall_forall in Hz. apply Hz.
    by eapply list_elem_of_lookup_2.
  - eapply (IH Hl i j); [lia|done|done].
Qed.

Lemma sorting_heap_laws : @StdHeapLaws sorting_heap.
Proof.
  split; simpl.
  - apply sort_desc_perm.
  - intros l i j x y Hc. apply (desc_sorted_lookup _ (sort_desc_sorted l)).
    unfold child in Hc. lia.
Qed.

(** A one-limb scalar field and the integers as the group, with a wNAF table
    of four windows. *)
Definition Z_group_4 : Group Z := Z_group [1; 3; 5; 9].

Lemma scalar_64_headroom : @Headroom Z Z_group_4 scalar_64.
Proof. split; simpl; lia. Qed.

(** ** Outside the headroom *)

Lemma length_wnaf_table {T : Type} `{Group T} (count : nat) :
  forall tmp dbl : T, length (wnaf_table count tmp dbl) = count.
Proof.
  induction count as [|count IH]; intros tmp d; simpl; [done|]. by rewrite IH.
Qed.

(** A first digit whose half is not an index of the table: the read
    [table[naf[0] / 2]] is outside the table. *)
Lemma fixed_window_wnaf_exp_outside {T : Type} `{Group T}
    (n window_size : Z) (base : T) (scalar d : Z) (naf : list Z) :
  find_wnaf n window_size scalar = Some (d :: naf) -> 0 < d ->
  shl_ulong 1 (size_t (window_size - 1)) <= d / 2 ->
  fixed_window_wnaf_exp n window_size base scalar = None.
Proof.
  intros Hnaf Hd Hout. unfold fixed_window_wnaf_exp. rewrite Hnaf.
  cbn [mbind option_bind foldr].
  destruct (foldr _ _ naf) as [[res found_nonzero]|]; [|done].
  cbn [mbind option_bind]. unfold wnaf_exp_step.
  rewrite (proj2 (Z.eqb_neq d 0)) by lia.
  rewrite (proj2 (Z.gtb_lt d 0)) by lia.
  rewrite lookup_ge_None_2; [done|].
  rewrite length_wnaf_table.
  assert (0 <= shl_ulong 1 (size_t (window_size - 1)))
    by (unfold shl_ulong, wrap; apply Z.mod_pos_bound; done).
  apply Z2Nat.inj_le; [done|lia|done].
Qed.

(** With a table of 30 windows the scalar [2^30 + 1] gets the window 30,
    its first digit is [2^30 + 1 + 2^31], and the table of [2^29] odd
    multiples has no entry for it. *)
Lemma opt_window_wnaf_exp_30 :
  @opt_window_wnaf_exp Z Z_group_30 1 3 (2 ^ 30 + 1) (num_bits (2 ^ 30 + 1))
  = None.
Proof.
  unfold opt_window_wnaf_exp.
  change (wnaf_best _ _) with 30. change (30 >? 0) with true. cbv iota.
  eapply fixed_window_wnaf_exp_outside.
  - vm_compute. reflexivity.
  - reflexivity.
  - vm_compute. discriminate.
Qed.

Lemma multi_exp_one_chunk {T : Type} `{Group T} `{Scalar} `{StdHeap}
    (Method : multi_exp_method) (vec : list T) (scalars : list Z) :
  multi_exp Method vec scalars 1 = multi_exp_inner Method vec scalars.
Proof. unfold multi_exp. by rewrite orb_true_r. Qed.

Lemma naive_loop_first_fails {T : Type} `{Group T} `{Scalar}
    (result v : T) (vec : list T) (s : Z) (scalars : list Z) :
  opt_window_wnaf_exp num_limbs v s (num_bits s) = None ->
  naive_loop result (v :: vec) (s :: scalars) = None.
Proof. intros E. cbn [naive_loop]. unfold as_bigint. by rewrite E. Qed.

Lemma multi_exp_with_mixed_addition_fails {T : Type} `{Group T} `{Scalar}
    `{StdHeap} (Method : multi_exp_method) (vec : list T) (scalars : list Z)
    (chunks : nat) (acc : T) (p : list Z) (g : list T) :
  mixed_addition_loop scalars vec (zero, [], []) = Some (acc, p, g) ->
  multi_exp Method g p chunks = None ->
  multi_exp_with_mixed_addition Method vec scalars chunks = None.
Proof.
  intros E1 E2. unfold multi_exp_with_mixed_addition.
  destruct (negb _); [done|]. rewrite E1. cbn [mbind option_bind].
  by rewrite E2.
Qed.

(** ** Multi-exponentiation: linearity, agreement of the methods, edge cases *)

(** C1, as the code has it.  For group elements [P], [Q], scalars [a], [b] of
    the field, every method and every chunk count of at least 1, [multi_exp]
    over the bases [[P, Q]] and the scalars [[a, b]] returns [a * P + b * Q]
    computed by the group's scalar multiplication, provided (the class
    [Headroom]) the field has [n] limbs with [1 <= n <= 2^32] and a
    modulus [p >= 2], and the wNAF table of the group has [k <= 29] entries
    with [p + 2^k <= 2^(64 n)]. *)
Theorem multi_exp_linear {T : Type} `{GroupLaws T} `{Scalar} `{!Headroom T}
    `{StdHeapLaws} (Method : multi_exp_method) (P Q : T) (a b : Z)
    (chunks : nat) :
  in_field a -> in_field b -> (1 <= chunks)%nat ->
  multi_exp Method [P; Q] [a; b] chunks = Some (gmul a P + gmul b Q)%G.
Proof.
  intros Ha Hb Hchunks. rewrite multi_exp_correct; try done.
  - simpl. by rewrite add_zero_r.
  - constructor; [done|constructor; [done|constructor]].
Qed.

Lemma multi_exp_linear_witness :
  @multi_exp Z Z_group_4 scalar_64 sorting_heap multi_exp_method_bos_coster
    [3; 5] [76749407; 44410867] 2
  = Some (@gmul Z Z_group_4 76749407 3 + @gmul Z Z_group_4 44410867 5).
Proof.
  apply (@multi_exp_linear Z Z_group_4 (Z_group_laws _) scalar_64
           scalar_64_headroom sorting_heap sorting_heap_laws).
  - vm_compute. split; [discriminate|reflexivity].
  - vm_compute. split; [discriminate|reflexivity].
  - lia.
Defined.

(** C1 fails as stated, three times.  With the chunk count 0 neither
    [total < chunks] nor [chunks == 1] holds and [total / chunks] divides by
    zero.  With the one-limb modulus [2^64 - 59] and six windows the scalar
    [2^64 - 61] has the first digit [-61], [mpn_add_1] wraps the working
    copy of [find_wnaf] to zero, and Naive returns [-61 * 3 + 2 * 5].  With
    thirty windows the first digit of [2^30 + 1] is [2^30 + 1 + 2^31] and
    [fixed_window_wnaf_exp] reads outside its table. *)
Lemma multi_exp_not_linear :
  @multi_exp Z Z_group_4 scalar_64 sorting_heap multi_exp_method_naive
    [3; 5] [7; 9] 0 = None /\
  (@in_field scalar_tight (2 ^ 64 - 61) /\ @in_field scalar_tight 2 /\
   @multi_exp Z Z_group_6 scalar_tight sorting_heap multi_exp_method_naive
     [3; 5] [2 ^ 64 - 61; 2] 1 = Some (-173) /\
   @gmul Z Z_group_6 (2 ^ 64 - 61) 3 + @gmul Z Z_group_6 2 5 <> -173) /\
  (@in_field scalar_64 (2 ^ 30 + 1) /\ @in_field scalar_64 2 /\
   @multi_exp Z Z_group_30 scalar_64 sorting_heap multi_exp_method_naive
     [3; 5] [2 ^ 30 + 1; 2] 1 = None).
Proof.
  split; [reflexivity|]. split.
  - split_and!; [vm_compute; split; [discriminate|reflexivity]..
                |vm_compute; reflexivity|vm_compute; discriminate].
  - split_and!; [vm_compute; split; [discriminate|reflexivity]..|].
    rewrite multi_exp_one_chunk. apply (naive_loop_first_fails 0 3 [5]).
    exact opt_window_wnaf_exp_30.
Qed.

(** C2, as the code has it.  For at most [2^42] bases and as many scalars of
    the field, the implementations of [multi_exp_inner] selected by Naive,
    BDLO12 and BosCoster return equal group elements, provided (the class
    [Headroom]) the field has [n] limbs with [1 <= n <= 2^32] and a
    modulus [p >= 2], and the wNAF table of the group has [k <= 29] entries
    with [p + 2^k <= 2^(64 n)]. *)
Theorem multi_exp_inner_agree {T : Type} `{GroupLaws T} `{Scalar}
    `{!Headroom T} `{StdHeapLaws} (vec : list T) (scalars : list Z) :
  length vec = length scalars -> Forall in_field scalars ->
  Z.of_nat (length vec) <= 2 ^ 42 ->
  exists R : T,
    multi_exp_inner multi_exp_method_naive vec scalars = Some R /\
    multi_exp_inner multi_exp_method_BDLO12 vec scalars = Some R /\
    multi_exp_inner multi_exp_method_bos_coster vec scalars = Some R.
Proof.
  intros Hlen Hfield HL. exists (msm vec scalars).
  split_and!; by apply multi_exp_inner_correct.
Qed.

Lemma multi_exp_inner_agree_witness :
  exists R : Z,
    @multi_exp_inner Z Z_group_4 scalar_64 sorting_heap
      multi_exp_method_naive [3; 5; 7; 11] [2 ^ 60; 3; 5; 2 ^ 50] = Some R /\
    @multi_exp_inner Z Z_group_4 scalar_64 sorting_heap
      multi_exp_method_BDLO12 [3; 5; 7; 11] [2 ^ 60; 3; 5; 2 ^ 50] = Some R /\
    @multi_exp_inner Z Z_group_4 scalar_64 sorting_heap
      multi_exp_method_bos_coster [3; 5; 7; 11] [2 ^ 60; 3; 5; 2 ^ 50]
    = Some R.
Proof.
  apply (@multi_exp_inner_agree Z Z_group_4 (Z_group_laws _) scalar_64
           scalar_64_headroom sorting_heap sorting_heap_laws).
  - reflexivity.
  - repeat constructor; vm_compute; discriminate || reflexivity.
  - vm_compute. discriminate.
Defined.

(** C2 fails as stated.  With the one-limb modulus [2^64 - 59] and six
    windows, Naive and Bos-Coster lose the carry of the first digit of the
    scalar [2^64 - 61] and return [-173], where BDLO12, which does not go
    through wNAF, returns the sum.  With thirty windows Naive reads outside
    the table of [fixed_window_wnaf_exp] and returns nothing, where BDLO12
    returns the sum. *)
Lemma multi_exp_inner_disagree :
  (Forall (@in_field scalar_tight) [2 ^ 64 - 61; 2] /\
   @multi_exp_inner Z Z_group_6 scalar_tight sorting_heap
     multi_exp_method_naive [3; 5] [2 ^ 64 - 61; 2] = Some (-173) /\
   @multi_exp_inner Z Z_group_6 scalar_tight sorting_heap
     multi_exp_method_BDLO12 [3; 5] [2 ^ 64 - 61; 2]
   = Some 55340232221128654675 /\
   @multi_exp_inner Z Z_group_6 scalar_tight sorting_heap
     multi_exp_method_bos_coster [3; 5] [2 ^ 64 - 61; 2] = Some (-173)) /\
  (Forall (@in_field scalar_64) [2 ^ 30 + 1; 2] /\
   @multi_exp_inner Z Z_group_30 scalar_64 sorting_heap
     multi_exp_method_naive [3; 5] [2 ^ 30 + 1; 2] = None /\
   @multi_exp_inner Z Z_group_30 scalar_64 sorting_heap
     multi_exp_method_BDLO12 [3; 5] [2 ^ 30 + 1; 2] = Some 3221225485).
Proof.
  split.
  - split_and!; [repeat constructor; vm_compute; discriminate || reflexivity
                |vm_compute; reflexivity..].
  - split_and!; [repeat constructor; vm_compute; discriminate || reflexivity
                | |vm_compute; reflexivity].
    apply (naive_loop_first_fails 0 3 [5]). exact opt_window_wnaf_exp_30.
Qed.

(** C5.  For every method, [multi_exp] of no bases and no scalars returns the
    identity, and so does [multi_exp] over the bases [[G]] and the scalars
    [[0]] (for a chunk count of at least 1). *)
Theorem multi_exp_identity {T : Type} `{GroupLaws T} `{Scalar} `{!Headroom T}
    `{StdHeapLaws} (Method : multi_exp_method) (G : T) (chunks : nat) :
  (1 <= chunks)%nat ->
  multi_exp Method [] [] chunks = Some zero /\
  multi_exp Method [G] [0] chunks = Some zero.
Proof.
  intros Hchunks. pose proof modulus_range. split.
  - by rewrite multi_exp_correct.
  - rewrite multi_exp_correct; try done.
    + simpl. by rewrite gmul_0, add_zero_l.
    + constructor; [|done]. unfold in_field. lia.
Qed.

Lemma multi_exp_identity_witness :
  @multi_exp Z Z_group_4 scalar_64 sorting_heap multi_exp_method_BDLO12
    [] [] 1 = Some 0 /\
  @multi_exp Z Z_group_4 scalar_64 sorting_heap multi_exp_method_BDLO12
    [7] [0] 1 = Some 0.
Proof.
  apply (@multi_exp_identity Z Z_group_4 (Z_group_laws _) scalar_64
           scalar_64_headroom sorting_heap sorting_heap_laws).
  lia.
Defined.

(** C9, as the code has it.  For at most [2^42] bases and as many scalars of
    the field, every method and every chunk count of at least 1,
    [multi_exp_with_mixed_addition] returns the group element that plain
    [multi_exp] returns on the same sequences, provided (the class
    [Headroom]) the field has [n] limbs with [1 <= n <= 2^32] and a
    modulus [p >= 2], and the wNAF table of the group has [k <= 29] entries
    with [p + 2^k <= 2^(64 n)]. *)
Theorem multi_exp_with_mixed_addition_agrees {T : Type} `{GroupLaws T}
    `{Scalar} `{!Headroom T} `{StdHeapLaws} (Method : multi_exp_method)
    (vec : list T) (scalars : list Z) (chunks : nat) :
  length vec = length scalars -> Forall in_field scalars ->
  Z.of_nat (length vec) <= 2 ^ 42 -> (1 <= chunks)%nat ->
  exists R : T,
    multi_exp_with_mixed_addition Method vec scalars chunks = Some R /\
    multi_exp Method vec scalars chunks = Some R.
Proof.
  intros Hlen Hfield HL Hchunks. exists (msm vec scalars). split.
  - by apply multi_exp_with_mixed_addition_correct.
  - by apply multi_exp_correct.
Qed.

Lemma multi_exp_with_mixed_addition_agrees_witness :
  exists R : Z,
    @multi_exp_with_mixed_addition Z Z_group_4 scalar_64 sorting_heap
      multi_exp_method_BDLO12 [3; 5; 7; 11; 13] [2 ^ 60; 1; 0; 2 ^ 50; 1] 2
    = Some R /\
    @multi_exp Z Z_group_4 scalar_64 sorting_heap
      multi_exp_method_BDLO12 [3; 5; 7; 11; 13] [2 ^ 60; 1; 0; 2 ^ 50; 1] 2
    = Some R.
Proof.
  apply (@multi_exp_with_mixed_addition_agrees Z Z_group_4 (Z_group_laws _)
           scalar_64 scalar_64_headroom sorting_heap sorting_heap_laws).
  - reflexivity.
  - repeat constructor; vm_compute; discriminate || reflexivity.
  - vm_compute. discriminate.
  - lia.
Defined.

(** C9 fails as stated, three times.  With the chunk count 0 the call of
    [multi_exp] on the remainder divides by zero and nothing is returned.
    With the one-limb modulus [2^64 - 59] and six windows, Bos-Coster on the
    scalars [2^64 - 61], 1, 1 loses the carry of wNAF when it finishes the
    first node directly, where [multi_exp_with_mixed_addition] forwards the
    one pair left and gets the group's own [scalar * base]: the two results
    differ.  With thirty windows Naive reads outside the table of
    [fixed_window_wnaf_exp] and nothing is returned. *)
Lemma multi_exp_with_mixed_addition_differs :
  @multi_exp_with_mixed_addition Z Z_group_4 scalar_64 sorting_heap
    multi_exp_method_naive [3; 5] [7; 9] 0 = None /\
  (Forall (@in_field scalar_tight) [2 ^ 64 - 61; 1; 1] /\
   @multi_exp_with_mixed_addition Z Z_group_6 scalar_tight sorting_heap
     multi_exp_method_bos_coster [3; 5; 7] [2 ^ 64 - 61; 1; 1] 1
   = Some 55340232221128654677 /\
   @multi_exp Z Z_group_6 scalar_tight sorting_heap
     multi_exp_method_bos_coster [3; 5; 7] [2 ^ 64 - 61; 1; 1] 1
   = Some (-171)) /\
  (Forall (@in_field scalar_64) [2 ^ 30 + 1; 2] /\
   @multi_exp_with_mixed_addition Z Z_group_30 scalar_64 sorting_heap
     multi_exp_method_naive [3; 5] [2 ^ 30 + 1; 2] 1 = None).
Proof.
  split; [reflexivity|]. split.
  - split_and!; [repeat constructor; vm_compute; discriminate || reflexivity
                |vm_compute; reflexivity..].
  - split_and!; [repeat constructor; vm_compute; discriminate || reflexivity|].
    eapply (multi_exp_with_mixed_addition_fails _ _ _ _ 0 [2 ^ 30 + 1; 2]
              [3; 5]).
    + vm_compute. reflexivity.
    + rewrite multi_exp_one_chunk. apply (naive_loop_first_fails 0 3 [5]).
      exact opt_window_wnaf_exp_30.
Qed.

(** C10.  Bos-Coster returns [T::zero()] for no bases and [scalar * base],
    the group's scalar multiplication, for one pair, whatever
    [std::make_heap] and the wNAF table are: neither is used. *)
Theorem bos_coster_short_circuit {T : Type} `{Group T} `{Scalar} `{StdHeap}
    (scalars : list Z) (base : T) (scalar : Z) :
  multi_exp_inner multi_exp_method_bos_coster [] scalars = Some zero /\
  multi_exp_inner multi_exp_method_bos_coster [base] [scalar]
  = Some (gmul scalar base).
Proof. split; reflexivity. Qed.

(** ** The subtraction of Bos-Coster never underflows *)

Lemma bos_coster_reachable_inv {T : Type} `{GroupLaws T} `{Scalar}
    `{!Headroom T} (len : nat) (target : T)
    (st0 st : list ordered_exponent * list T * T) :
  bc_inv len target st0 -> bos_coster_reachable len st0 st ->
  bc_inv len target st.
Proof.
  intros Hinv0. induction 1 as [|st st' _ IH Hstep]; [done|].
  destruct (bos_coster_step_spec len target st IH)
    as [E|(st'' & E & Hinv & _)]; congruence.
Qed.

(** C7.  In every state the main loop of Bos-Coster reaches, [opt_q] is a
    max-heap of non-negative residuals; so the root [a] and the larger [b] of
    its two children satisfy [a.r >= b.r], and [mpn_sub_n] computes
    [a.r - b.r] without a borrow whenever the reduction branch runs. *)
Theorem bos_coster_sub_n_safe {T : Type} `{GroupLaws T} `{Scalar}
    `{!Headroom T} `{StdHeapLaws} (vec : list T) (scalars : list Z)
    (odd_vec_len : nat) (st0 : list ordered_exponent * list T * T)
    (opt_q : list ordered_exponent) (g : list T) (opt_result : T)
    (a q1 q2 : ordered_exponent) :
  length vec = length scalars -> (2 <= length vec)%nat ->
  Forall in_field scalars ->
  bos_coster_init vec scalars = Some (odd_vec_len, st0) ->
  bos_coster_reachable odd_vec_len st0 (opt_q, g, opt_result) ->
  opt_q !! 0%nat = Some a -> opt_q !! 1%nat = Some q1 ->
  opt_q !! 2%nat = Some q2 ->
  let b := if oe_lt q1 q2 then q2 else q1 in
  is_heap opt_q /\ Forall (fun e => 0 <= r e) opt_q /\
  r b <= r a /\ mpn_sub_n num_limbs (r a) (r b) = r a - r b.
Proof.
  intros Hlen Hlen2 Hfield Hinit Hreach Ha Hq1 Hq2 b.
  destruct (bos_coster_init_spec vec scalars Hlen Hlen2 Hfield)
    as (len & st & Hinit' & Hinv0 & _).
  rewrite Hinit in Hinit'. injection Hinit' as <- <-.
  pose proof (bos_coster_reachable_inv _ _ _ _ Hinv0 Hreach)
    as (_ & _ & _ & _ & Hheap & Hf & _).
  assert (Forall (fun e => 0 <= r e) opt_q) as Hpos.
  { eapply Forall_impl; [|exact Hf]. by intros e [? _]. }
  assert (r q1 <= r a) by (eapply (Hheap 0%nat 1%nat); [by left|done|done]).
  assert (r q2 <= r a) by (eapply (Hheap 0%nat 2%nat); [by right|done|done]).
  assert (r b <= r a) as Hba by (unfold b; destruct (oe_lt q1 q2); done).
  assert (0 <= r b) as Hb0.
  { rewrite list.Forall_forall in Hpos. unfold b.
    destruct (oe_lt q1 q2); apply Hpos; by eapply list_elem_of_lookup_2. }
  split_and!; try done.
  apply mpn_sub_n_exact; [|lia].
  rewrite list.Forall_forall in Hf. apply Hf. by eapply list_elem_of_lookup_2.
Qed.

Lemma bos_coster_sub_n_safe_witness :
  let opt_q := [OrderedExponent 3 6; OrderedExponent 0 3;
                OrderedExponent 1 4; OrderedExponent 2 2;
                OrderedExponent 4 0] in
  is_heap opt_q /\ Forall (fun e => 0 <= r e) opt_q /\
  4 <= 6 /\ mpn_sub_n 1 6 4 = 6 - 4.
Proof.
  apply (@bos_coster_sub_n_safe Z Z_group_4 (Z_group_laws _) scalar_64
           scalar_64_headroom sorting_heap sorting_heap_laws
           [3; 5; 7; 11] [9; 4; 2; 6] 5%nat
           ([OrderedExponent 0 9; OrderedExponent 3 6; OrderedExponent 1 4;
             OrderedExponent 2 2; OrderedExponent 4 0], [3; 5; 7; 11; 0], 0)
           _ [3; 5; 7; 14; 0] 0
           (OrderedExponent 3 6) (OrderedExponent 0 3) (OrderedExponent 1 4)).
  - reflexivity.
  - simpl. lia.
  - repeat constructor; vm_compute; discriminate || reflexivity.
  - reflexivity.
  - eapply reach_step; [apply reach_init|]. reflexivity.
  - reflexivity.
  - reflexivity.
  - reflexivity.
Defined.

(** ** Fixed-base windows *)

Section WindowTableFacts.
Context {T : Type} `{GroupLaws T}.
Variables (scalar_size window : Z) (g : T).
Hypothesis window_range : 1 <= window <= 63.
Hypothesis scalar_size_range : 1 <= scalar_size.
Hypothesis no_wrap : scalar_size + window <= 2 ^ 64.

Let outerc := (scalar_size + window - 1) / window.
Let last_bits := scalar_size - (outerc - 1) * window.

(** The number of entries [get_window_table] fills in row [outer]. *)
Definition cur_in_window (outer : Z) : Z :=
  if outer =? outerc - 1 then 2 ^ last_bits else 2 ^ window.

Local Lemma outerc_facts :
  1 <= outerc /\ 1 <= last_bits <= window /\ scalar_size <= outerc * window /\
  outerc <= scalar_size.
Proof.
  unfold last_bits, outerc.
  pose proof (Z.div_mod (scalar_size + window - 1) window ltac:(lia)).
  pose proof (Z.mod_pos_bound (scalar_size + window - 1) window ltac:(lia)).
  set (q := (scalar_size + window - 1) / window) in *.
  assert (1 <= q) by nia. split; [done|]. split; [nia|]. split; nia.
Qed.

Local Lemma cur_in_window_range (outer : Z) :
  1 <= cur_in_window outer <= 2 ^ window.
Proof.
  destruct outerc_facts as (_ & Hlast & _). unfold cur_in_window.
  assert (1 <= 2 ^ window)
    by (change 1 with (2 ^ 0) at 1; apply Z.pow_le_mono_r; lia).
  destruct (outer =? outerc - 1); [|lia]. split.
  - change 1 with (2 ^ 0) at 1. apply Z.pow_le_mono_r; lia.
  - apply Z.pow_le_mono_r; lia.
Qed.

Lemma window_row_spec (gouter : T) (count : nat) :
  forall (inner : nat) (row : list T),
  (inner + count <= length row)%nat ->
  exists row',
    window_row count inner (gmul (Z.of_nat inner) gouter) gouter row
    = Some row' /\
    length row' = length row /\
    forall k, row' !! k
              = if decide (inner <= k < inner + count)%nat
                then Some (gmul (Z.of_nat k) gouter) else row !! k.
Proof.
  induction count as [|count IH]; intros inner row Hlen.
  - exists row. split; [done|]. split; [done|]. intros k.
    by rewrite decide_False by lia.
  - cbn [window_row]. rewrite decide_True by lia.
    replace (gmul (Z.of_nat inner) gouter + gouter)%G
      with (gmul (Z.of_nat (S inner)) gouter)
      by (by rewrite Nat2Z.inj_succ, gmul_succ).
    destruct (IH (S inner) (<[inner:=gmul (Z.of_nat inner) gouter]> row))
      as (row' & -> & Hlen' & Hrow'); [rewrite length_insert; lia|].
    exists row'. split; [done|]. rewrite length_insert in Hlen'.
    split; [done|]. intros k. rewrite Hrow'.
    destruct (decide (k = inner)) as [->|Hne].
    + rewrite decide_False, decide_True by lia.
      by rewrite list_lookup_insert_eq by lia.
    + rewrite list_lookup_insert_ne by done.
      destruct (decide (S inner <= k < S inner + count)%nat),
        (decide (inner <= k < inner + S count)%nat); done || lia.
Qed.

Lemma iter_double (k : nat) (x : T) :
  Nat.iter k (fun x => x + x)%G x = gmul (2 ^ Z.of_nat k) x.
Proof.
  induction k as [|k IH]; [by rewrite gmul_1|].
  rewrite Nat.iter_succ, IH, <- gmul_add. f_equal.
  rewrite Nat2Z.inj_succ, Z.pow_succ_r by lia. lia.
Qed.

(** The rows from [outer] on are filled with the multiples of
    [2^(outer * window) * g]; the rows before are left as they are. *)
Lemma window_rows_spec (count : nat) :
  forall (outer : nat) (powers_of_g : list (list T)),
  Z.of_nat (outer + count) = outerc ->
  length powers_of_g = Z.to_nat outerc ->
  (forall o row, powers_of_g !! o = Some row ->
     length row = Z.to_nat (2 ^ window)) ->
  exists powers_of_g',
    window_rows count outer outerc (2 ^ window) (2 ^ last_bits) window
      (gmul (2 ^ (Z.of_nat outer * window)) g) powers_of_g
    = Some powers_of_g' /\
    (forall o, (o < outer)%nat -> powers_of_g' !! o = powers_of_g !! o) /\
    (forall o k, (outer <= o)%nat -> Z.of_nat o < outerc ->
       Z.of_nat k < cur_in_window (Z.of_nat o) ->
       powers_of_g' !! o ≫= (.!! k)
       = Some (gmul (Z.of_nat k * 2 ^ (Z.of_nat o * window)) g)).
Proof.
  destruct outerc_facts as (Houterc & Hlast & _).
  induction count as [|count IH]; intros outer tbl Hcount Hlen Hrows.
  - exists tbl. split; [done|]. split; [done|]. intros o k. lia.
  - cbn [window_rows].
    rewrite size_t_small
      by (change (2 ^ 64) with 18446744073709551616 in *; lia).
    fold (cur_in_window (Z.of_nat outer)).
    pose proof (cur_in_window_range (Z.of_nat outer)) as Hcur.
    destruct (lookup_lt_is_Some_2 tbl outer) as [row Hrow]; [lia|].
    rewrite Hrow. cbn [mbind option_bind].
    pose proof (Hrows outer row Hrow) as Hlrow.
    set (gouter := gmul (2 ^ (Z.of_nat outer * window)) g).
    destruct (window_row_spec gouter (Z.to_nat (cur_in_window (Z.of_nat outer)))
                0 row) as (row' & E & Hlrow' & Hrow'); [lia|].
    change (gmul (Z.of_nat 0) gouter) with (gmul 0 gouter) in E.
    rewrite gmul_0 in E. rewrite E. cbn [mbind option_bind].
    assert (Nat.iter (Z.to_nat window) (fun x => x + x)%G gouter
            = gmul (2 ^ (Z.of_nat (S outer) * window)) g) as ->.
    { rewrite iter_double, Z2Nat.id by lia. unfold gouter.
      rewrite <- gmul_mul, <- Z.pow_add_r by nia. do 2 f_equal. lia. }
    destruct (IH (S outer) (<[outer:=row']> tbl))
      as (tbl' & -> & Hbefore & Hfilled).
    + lia.
    + by rewrite length_insert.
    + intros o row0 Ho. destruct (decide (o = outer)) as [->|Hne].
      * rewrite list_lookup_insert_eq in Ho by lia. simplify_eq. lia.
      * rewrite list_lookup_insert_ne in Ho by done. by eapply Hrows.
    + exists tbl'. split; [done|]. split.
      * intros o Ho. rewrite Hbefore by lia.
        by rewrite list_lookup_insert_ne by lia.
      * intros o k Ho Hoc Hk. destruct (decide (o = outer)) as [->|Hne].
        -- rewrite Hbefore, list_lookup_insert_eq by lia.
           cbn [mbind option_bind]. rewrite Hrow', decide_True by lia.
           unfold gouter. by rewrite <- gmul_mul.
        -- apply Hfilled; [lia|done|done].
Qed.

Lemma get_window_table_spec :
  exists powers_of_g,
    get_window_table scalar_size window g = Some powers_of_g /\
    forall o k, Z.of_nat o < outerc -> Z.of_nat k < cur_in_window (Z.of_nat o) ->
      powers_of_g !! o ≫= (.!! k)
      = Some (gmul (Z.of_nat k * 2 ^ (Z.of_nat o * window)) g).
Proof.
  destruct outerc_facts as (Houterc & Hlast & Hcover & Hle).
  unfold get_window_table.
  rewrite (proj2 (Z.eqb_neq window 0)) by lia.
  change (2 ^ 64) with 18446744073709551616 in *.
  rewrite (size_t_small (scalar_size + window - 1))
    by (change (2 ^ 64) with 18446744073709551616; lia).
  fold outerc.
  rewrite (size_t_small (outerc - 1))
    by (change (2 ^ 64) with 18446744073709551616; lia).
  rewrite (size_t_small ((outerc - 1) * window))
    by (change (2 ^ 64) with 18446744073709551616; unfold last_bits in *; nia).
  fold last_bits.
  rewrite (size_t_small last_bits)
    by (change (2 ^ 64) with 18446744073709551616; lia).
  rewrite !shl_ulong_small by lia.
  destruct (window_rows_spec (Z.to_nat outerc) 0
              (replicate (Z.to_nat outerc) (replicate (Z.to_nat (2 ^ window)) zero)))
    as (tbl & E & _ & Hfilled).
  - lia.
  - by rewrite length_replicate.
  - intros o row [-> _]%lookup_replicate_1. by rewrite length_replicate.
  - change (2 ^ (Z.of_nat 0 * window)) with 1 in E. rewrite gmul_1 in E.
    exists tbl. split; [done|]. intros o k Ho Hk. apply Hfilled; [lia|done|done].
Qed.

Lemma window_inner_spec (outer pow_val : Z) :
  window <= 32 -> 0 <= outer ->
  window_inner window outer pow_val
  = (pow_val / 2 ^ (outer * window)) mod 2 ^ window.
Proof.
  intros Hw Houter. unfold window_inner.
  apply (gather_bits (fun i => shl_uint 1 i)); [|nia|lia].
  intros j Hj. apply shl_uint_small. lia.
Qed.

Lemma windowed_exp_spec (powers_of_g : list (list T)) (pow : Z) :
  window <= 32 ->
  (forall o k, Z.of_nat o < outerc -> Z.of_nat k < cur_in_window (Z.of_nat o) ->
     powers_of_g !! o ≫= (.!! k)
     = Some (gmul (Z.of_nat k * 2 ^ (Z.of_nat o * window)) g)) ->
  0 <= pow < 2 ^ scalar_size ->
  windowed_exp scalar_size window powers_of_g pow = Some (gmul pow g).
Proof.
  intros Hw Hfilled Hpow.
  destruct outerc_facts as (Houterc & Hlast & Hcover & Hle).
  unfold windowed_exp, as_bigint.
  rewrite (proj2 (Z.eqb_neq window 0)) by lia.
  rewrite size_t_small
    by (change (2 ^ 64) with 18446744073709551616 in *; lia).
  fold outerc.
  pose proof (cur_in_window_range (Z.of_nat 0)) as Hcur0.
  rewrite (Hfilled 0%nat 0%nat) by lia. cbn [mbind option_bind].
  change (Z.of_nat 0 * 2 ^ (Z.of_nat 0 * window)) with 0. rewrite gmul_0.
  assert (forall m : nat, Z.of_nat m <= outerc ->
    foldl (fun res outer =>
             res ← res;
             row ← powers_of_g !! Z.to_nat outer;
             t ← row !! Z.to_nat (window_inner window outer pow);
             Some (res + t)%G)
      (Some zero) (seqZ 0 (Z.of_nat m))
    = Some (gmul (pow mod 2 ^ (Z.of_nat m * window)) g)) as Hfold.
  { induction m as [|m IH]; intros Hm.
    - simpl. by rewrite Z.mod_1_r, gmul_0.
    - rewrite seqZ_S, foldl_app, IH by lia. cbn [foldl mbind option_bind].
      rewrite Z.add_0_l, window_inner_spec by lia.
      assert (0 < 2 ^ (Z.of_nat m * window)) by (apply Z.pow_pos_nonneg; nia).
      assert (0 < 2 ^ window) by (apply Z.pow_pos_nonneg; lia).
      pose proof (Z.mod_pos_bound (pow / 2 ^ (Z.of_nat m * window))
                    (2 ^ window) ltac:(lia)) as Hd.
      set (d := (pow / 2 ^ (Z.of_nat m * window)) mod 2 ^ window) in *.
      assert (d < cur_in_window (Z.of_nat m)) as Hdcur.
      { unfold cur_in_window.
        destruct (Z.eqb_spec (Z.of_nat m) (outerc - 1)) as [Hm'|]; [|lia].
        assert (pow / 2 ^ (Z.of_nat m * window) < 2 ^ last_bits).
        { apply Z.div_lt_upper_bound; [lia|].
          rewrite <- Z.pow_add_r by nia.
          replace (Z.of_nat m * window + last_bits) with scalar_size
            by (unfold last_bits; rewrite Hm'; lia).
          lia. }
        pose proof (Z.mod_le (pow / 2 ^ (Z.of_nat m * window)) (2 ^ window)
                      ltac:(apply Z.div_pos; lia) ltac:(lia)).
        unfold d. lia. }
      pose proof (Hfilled m (Z.to_nat d) ltac:(lia) ltac:(lia)) as Hlook.
      rewrite Nat2Z.id.
      destruct (powers_of_g !! m) as [row|]; [|done].
      cbn [mbind option_bind] in Hlook |- *. rewrite Hlook.
      cbn [mbind option_bind]. f_equal. rewrite <- gmul_add. f_equal.
      rewrite Z2Nat.id by lia.
      replace (Z.of_nat (S m) * window)
        with (Z.of_nat m * window + window) by lia.
      rewrite Z.pow_add_r, Z.rem_mul_r by nia. unfold d. lia. }
  rewrite <- (Z2Nat.id outerc) at 1 by lia.
  rewrite Hfold by lia. rewrite Z2Nat.id by lia. f_equal. f_equal.
  apply Z.mod_small. split; [lia|].
  eapply Z.lt_le_trans; [apply Hpow|]. apply Z.pow_le_mono_r; lia.
Qed.

End WindowTableFacts.

(** C4, as the code has it.  For a window [1 <= w <= 32], a scalar size of
    at least 1 with [scalar_size + w <= 2^64], a generator [G] and a scalar
    [s] of at most [scalar_size] bits, the table [get_window_table] returns
    holds [k * 2^(o * w) * G] at every filled position [(o, k)] (the rows
    below [ceil(scalar_size / w)], the first [2^w] entries of a row and the
    first [2^(scalar_size - o * w)] of the last), and [windowed_exp] on it
    returns [s * G]. *)
Theorem windowed_exp_correct {T : Type} `{GroupLaws T}
    (scalar_size w : Z) (G : T) (s : Z) :
  1 <= w <= 32 -> 1 <= scalar_size -> scalar_size + w <= 2 ^ 64 ->
  0 <= s -> num_bits s <= scalar_size ->
  exists table,
    get_window_table scalar_size w G = Some table /\
    (forall o k : nat,
       Z.of_nat o < (scalar_size + w - 1) / w ->
       Z.of_nat k < cur_in_window scalar_size w (Z.of_nat o) ->
       table !! o ≫= (.!! k)
       = Some (gmul (Z.of_nat k * 2 ^ (Z.of_nat o * w)) G)) /\
    windowed_exp scalar_size w table s = Some (gmul s G).
Proof.
  intros Hw Hsize Hwrap Hs Hbits.
  destruct (get_window_table_spec scalar_size w G) as (table & E & Hfilled);
    [lia|lia|lia|].
  exists table. split; [done|]. split; [done|].
  apply windowed_exp_spec; try done; try lia.
  split; [done|]. apply num_bits_le; lia.
Qed.

Lemma windowed_exp_correct_witness :
  exists table,
    @get_window_table Z Z_group_4 10 3 1 = Some table /\
    (forall o k : nat,
       Z.of_nat o < (10 + 3 - 1) / 3 ->
       Z.of_nat k < cur_in_window 10 3 (Z.of_nat o) ->
       table !! o ≫= (.!! k)
       = Some (@gmul Z Z_group_4 (Z.of_nat k * 2 ^ (Z.of_nat o * 3)) 1)) /\
    @windowed_exp Z Z_group_4 10 3 table 1000
    = Some (@gmul Z Z_group_4 1000 1).
Proof.
  apply (@windowed_exp_correct Z Z_group_4 (Z_group_laws _) 10 3 1 1000).
  - lia.
  - lia.
  - vm_compute. discriminate.
  - lia.
  - vm_compute. discriminate.
Defined.

(** C4 fails as stated.  For [scalar_size = 2^64 - 1] and [w = 2] the sum
    [scalar_size + window - 1] wraps around to 0: the table has no row and
    [windowed_exp] reads [powers_of_g[0][0]] outside it.  For [w = 33] the
    table is right, but [inner |= 1u << i] cannot set a bit above 31: the
    scalar [2^32 + 1] of 33 bits has the window digit 1 and the result
    is [G]. *)
Lemma windowed_exp_out_of_range :
  (num_bits 1000 <= 2 ^ 64 - 1 /\
   @get_window_table Z Z_group_4 (2 ^ 64 - 1) 2 1 = Some [] /\
   @windowed_exp Z Z_group_4 (2 ^ 64 - 1) 2 [] 1000 = None) /\
  (num_bits (2 ^ 32 + 1) <= 33 /\
   exists table,
     @get_window_table Z Z_group_4 33 33 1 = Some table /\
     @windowed_exp Z Z_group_4 33 33 table (2 ^ 32 + 1) = Some 1 /\
     @gmul Z Z_group_4 (2 ^ 32 + 1) 1 <> 1).
Proof.
  split.
  - split; [vm_compute; discriminate|]. split; reflexivity.
  - split; [vm_compute; discriminate|].
    destruct (@get_window_table_spec Z Z_group_4 (Z_group_laws _) 33 33 1)
      as (table & E & Hfilled); [lia|lia|vm_compute; discriminate|].
    exists table. split; [exact E|]. split; [|vm_compute; discriminate].
    pose proof (Hfilled 0%nat 0%nat ltac:(vm_compute; reflexivity)
                  ltac:(vm_compute; reflexivity)) as H00.
    pose proof (Hfilled 0%nat 1%nat ltac:(vm_compute; reflexivity)
                  ltac:(vm_compute; reflexivity)) as H01.
    unfold windowed_exp.
    change (33 =? 0) with false. cbv iota.
    change (size_t (33 + 33 - 1) / 33) with 1.
    change (seqZ 0 1) with [0].
    change (as_bigint (2 ^ 32 + 1)) with 4294967297.
    rewrite H00. cbn [mbind option_bind foldl].
    change (Z.to_nat (window_inner 33 0 4294967297)) with 1%nat.
    change (Z.to_nat 0) with 0%nat.
    destruct (table !! 0%nat) as [row|]; [|done].
    cbn [mbind option_bind] in H01 |- *. rewrite H01. reflexivity.
Qed.

(** * Further properties of the code *)

(** ** Single-base exponentiation ([wnaf.tcc]) *)

(** X1.  [fixed_window_wnaf_exp] multiplies by the scalar: for a window of 1
    to 29 bits and a scalar [s] of [n] limbs that is even or leaves room for
    [2^w] below [2^(64 n)], it returns [s * base] (the digits of [find_wnaf]
    are read back against the table of odd multiples of [base]). *)
Theorem fixed_window_wnaf_exp_mul {T : Type} `{GroupLaws T}
    (n w : Z) (base : T) (s : Z) :
  1 <= n -> 1 <= w <= 29 -> 0 <= s < 2 ^ (64 * n) ->
  (Z.odd s = true -> s + 2 ^ w <= 2 ^ (64 * n)) ->
  fixed_window_wnaf_exp n w base s = Some (gmul s base).
Proof.
  intros Hn Hw Hs Hroom.
  assert (modulus_of n = 2 ^ (64 * n)) as HM
    by (unfold modulus_of, max_bits, limb_bits; f_equal; lia).
  apply fixed_window_wnaf_exp_correct; [done|done|by rewrite HM|].
  unfold no_carry. by rewrite HM.
Qed.

Lemma fixed_window_wnaf_exp_mul_witness :
  @fixed_window_wnaf_exp Z Z_group_4 1 4 7 1000 = Some 7000.
Proof.
  apply (@fixed_window_wnaf_exp_mul Z Z_group_4 (Z_group_laws _) 1 4 7 1000).
  - lia.
  - lia.
  - vm_compute. split; [discriminate|reflexivity].
  - intros _. vm_compute. discriminate.
Defined.

(** X2.  [opt_window_wnaf_exp] multiplies by the scalar, whatever
    [scalar_bits] the caller passes, when the class's [wnaf_window_table] has
    at most 29 entries and the scalar leaves room for the widest window below
    [2^(64 n)]. *)
Theorem opt_window_wnaf_exp_mul {T : Type} `{GroupLaws T}
    (n : Z) (base : T) (s scalar_bits : Z) :
  1 <= n -> (length wnaf_window_table <= 29)%nat -> 0 <= s ->
  s + 2 ^ Z.of_nat (length wnaf_window_table) <= 2 ^ (64 * n) ->
  opt_window_wnaf_exp n base s scalar_bits = Some (gmul s base).
Proof.
  intros Hn Hlen Hs Hroom.
  apply opt_window_wnaf_exp_correct; [done|done|done|].
  unfold modulus_of, max_bits, limb_bits.
  by replace (n * 64) with (64 * n) by lia.
Qed.

Lemma opt_window_wnaf_exp_mul_witness :
  @opt_window_wnaf_exp Z Z_group_4 1 7 1000 10 = Some 7000.
Proof.
  apply (@opt_window_wnaf_exp_mul Z Z_group_4 (Z_group_laws _) 1 7 1000 10).
  - lia.
  - simpl. lia.
  - lia.
  - vm_compute. discriminate.
Defined.

(** The window [opt_window_wnaf_exp] settles on: none when every entry of the
    table is above [scalar_bits], else the last entry not above it. *)
Lemma wnaf_best_spec (table : list Z) (bits : Z) :
  (Forall (fun t => bits < t) table /\ wnaf_best (reverse table) bits = 0) \/
  (exists (i : nat) (t : Z),
     table !! i = Some t /\ t <= bits /\
     (forall (j : nat) (t' : Z),
        (i < j)%nat -> table !! j = Some t' -> bits < t') /\
     wnaf_best (reverse table) bits = Z.of_nat i + 1).
Proof.
  induction table as [|t table IH] using rev_ind.
  - left. by split.
  - rewrite reverse_snoc. cbn [wnaf_best].
    destruct (Z.geb_spec bits t) as [Hge|Hlt].
    + right. exists (length table), t. split_and!.
      * by apply list_lookup_middle.
      * lia.
      * intros j t' Hj Hl. apply lookup_lt_Some in Hl.
        rewrite length_app in Hl. simpl in Hl. lia.
      * cbn [length]. rewrite length_reverse. lia.
    + destruct IH as [[Hall E]|(i & t0 & Hi & Ht0 & Hlater & E)].
      * left. split; [|done]. apply Forall_app. split; [done|].
        constructor; [lia|constructor].
      * right. exists i, t0. split_and!; try done.
        -- by apply lookup_app_l_Some.
        -- intros j t' Hj Hl.
           destruct (decide (j < length table)%nat) as [Hjl|Hjl].
           ++ rewrite lookup_app_l in Hl by done. by eapply Hlater.
           ++ rewrite lookup_app_r in Hl by lia.
              destruct (j - length table)%nat; [|done].
              simpl in Hl. injection Hl as <-. lia.
Qed.

(** X3.  The choice of the window in [opt_window_wnaf_exp]: when every entry
    of [wnaf_window_table] is above [scalar_bits] the group's own scalar
    multiplication is used; otherwise [fixed_window_wnaf_exp] runs with the
    window [i + 1], for the last index [i] whose entry is at most
    [scalar_bits]. *)
Theorem opt_window_wnaf_exp_window {T : Type} `{Group T}
    (n : Z) (base : T) (s scalar_bits : Z) :
  (Forall (fun t => scalar_bits < t) wnaf_window_table /\
   opt_window_wnaf_exp n base s scalar_bits = Some (gmul s base)) \/
  (exists (i : nat) (t : Z),
     wnaf_window_table !! i = Some t /\ t <= scalar_bits /\
     (forall (j : nat) (t' : Z),
        (i < j)%nat -> wnaf_window_table !! j = Some t' -> scalar_bits < t') /\
     opt_window_wnaf_exp n base s scalar_bits
     = fixed_window_wnaf_exp n (Z.of_nat i + 1) base s).
Proof.
  unfold opt_window_wnaf_exp.
  destruct (wnaf_best_spec wnaf_window_table scalar_bits)
    as [[Hall ->]|(i & t & Hi & Ht & Hlater & ->)].
  - left. by split.
  - right. exists i, t. split_and!; try done.
    destruct (Z.gtb_spec (Z.of_nat i + 1) 0); [done|lia].
Qed.

(** X4.  The table [fixed_window_wnaf_exp] builds before it reads the
    digits holds the odd multiples of the base: entry [i] is
    [(2 i + 1) * base]. *)
Theorem wnaf_table_odd_multiples {T : Type} `{GroupLaws T}
    (count : nat) (base : T) (i : nat) :
  (i < count)%nat ->
  wnaf_table count base (dbl base) !! i
  = Some (gmul (2 * Z.of_nat i + 1) base).
Proof.
  intros Hi. rewrite <- (gmul_1 base) at 1.
  rewrite wnaf_table_lookup by done. do 2 f_equal. lia.
Qed.

Lemma wnaf_table_odd_multiples_witness :
  @wnaf_table Z Z_group_4 8 5 (@dbl Z Z_group_4 5) !! 3%nat
  = Some (@gmul Z Z_group_4 (2 * Z.of_nat 3 + 1) 5).
Proof.
  apply (@wnaf_table_odd_multiples Z Z_group_4 (Z_group_laws _) 8 5 3). lia.
Defined.

(** ** The methods of multi-exponentiation ([multiexp.tcc]) *)

(** X5.  The Naive method returns the sum of [s_i * P_i]: for as many
    scalars as bases, the scalars below the modulus of the field, provided
    (the class [Headroom]) the field has [n] limbs with [1 <= n <= 2^32] and a
    modulus [p >= 2], and the wNAF table of the group has [k <= 29] entries
    with [p + 2^k <= 2^(64 n)]. *)
Theorem multi_exp_inner_naive_sum {T : Type} `{GroupLaws T} `{Scalar}
    `{!Headroom T} `{StdHeap} (vec : list T) (scalars : list Z) :
  length vec = length scalars -> Forall in_field scalars ->
  multi_exp_inner multi_exp_method_naive vec scalars
  = Some (msm vec scalars).
Proof.
  intros Hlen Hfield. simpl.
  rewrite naive_loop_correct by done. by rewrite add_zero_l.
Qed.

Lemma multi_exp_inner_naive_sum_witness :
  @multi_exp_inner Z Z_group_4 scalar_64 sorting_heap
    multi_exp_method_naive [3; 5; 7] [2 ^ 60; 0; 12345]
  = Some (@msm Z Z_group_4 [3; 5; 7] [2 ^ 60; 0; 12345]).
Proof.
  apply (@multi_exp_inner_naive_sum Z Z_group_4 (Z_group_laws _) scalar_64
           scalar_64_headroom sorting_heap).
  - reflexivity.
  - repeat constructor; vm_compute; discriminate || reflexivity.
Defined.

Lemma naive_plain_loop_length {T : Type} `{Group T} (vec : list T) :
  forall (scalars : list Z) (result : T),
  length vec <> length scalars ->
  naive_plain_loop result vec scalars = None.
Proof.
  induction vec as [|v vec IH]; intros [|s scalars] result Hlen;
    simpl in *; try done.
  apply IH. lia.
Qed.

(** X6.  The NaivePlain method, for integer scalars of any size: with as
    many scalars as bases it returns the sum of [s_i * P_i]; with another
    number of scalars it returns nothing (the loop leaves the scalars, or
    [ASSERT(scalar_it == scalar_end)] fails). *)
Theorem multi_exp_inner_naive_plain_sum {T : Type} `{GroupLaws T} `{Scalar}
    `{StdHeap} (vec : list T) (scalars : list Z) :
  multi_exp_inner multi_exp_method_naive_plain vec scalars
  = if decide (length vec = length scalars) then Some (msm vec scalars)
    else None.
Proof.
  simpl. destruct (decide (length vec = length scalars)) as [Hlen|Hlen].
  - rewrite naive_plain_loop_correct by done. by rewrite add_zero_l.
  - by apply naive_plain_loop_length.
Qed.

Lemma multi_exp_inner_naive_plain_sum_witness :
  @multi_exp_inner Z Z_group_4 scalar_64 sorting_heap
    multi_exp_method_naive_plain [3; 5; 7] [2 ^ 70; -4; 1]
  = (if decide (length [3; 5; 7] = length [2 ^ 70; -4; 1])
     then Some (@msm Z Z_group_4 [3; 5; 7] [2 ^ 70; -4; 1]) else None).
Proof.
  apply (@multi_exp_inner_naive_plain_sum Z Z_group_4 (Z_group_laws _)
           scalar_64 sorting_heap).
Defined.

(** X7.  The BDLO12 method returns the sum of [s_i * P_i]: for as many
    scalars as bases, at most [2^42] of them, the scalars below the modulus
    of the field. *)
Theorem multi_exp_inner_BDLO12_sum {T : Type} `{GroupLaws T} `{Scalar}
    `{!Headroom T} `{StdHeap} (bases : list T) (exponents : list Z) :
  length bases = length exponents -> Forall in_field exponents ->
  Z.of_nat (length bases) <= 2 ^ 42 ->
  multi_exp_inner multi_exp_method_BDLO12 bases exponents
  = Some (msm bases exponents).
Proof. intros. simpl. by apply multi_exp_inner_BDLO12_correct. Qed.

Lemma multi_exp_inner_BDLO12_sum_witness :
  @multi_exp_inner Z Z_group_4 scalar_64 sorting_heap
    multi_exp_method_BDLO12 [3; 5; 7] [2 ^ 60; 0; 12345]
  = Some (@msm Z Z_group_4 [3; 5; 7] [2 ^ 60; 0; 12345]).
Proof.
  apply (@multi_exp_inner_BDLO12_sum Z Z_group_4 (Z_group_laws _) scalar_64
           scalar_64_headroom sorting_heap).
  - reflexivity.
  - repeat constructor; vm_compute; discriminate || reflexivity.
  - vm_compute. discriminate.
Defined.

(** X8.  BDLO12 does not look at [exponents_end]: exponents beyond the number
    of bases are never read, and the result is the sum over the bases and
    the exponents that go with them. *)
Theorem multi_exp_inner_BDLO12_surplus {T : Type} `{GroupLaws T} `{Scalar}
    `{!Headroom T} `{StdHeap} (bases : list T) (exponents surplus : list Z) :
  length bases = length exponents -> Forall in_field exponents ->
  Z.of_nat (length bases) <= 2 ^ 42 ->
  multi_exp_inner multi_exp_method_BDLO12 bases (exponents ++ surplus)
  = Some (msm bases exponents).
Proof.
  intros Hlen Hfield HL.
  rewrite <- (multi_exp_inner_BDLO12_correct bases exponents) by done.
  simpl. unfold multi_exp_inner_BDLO12.
  rewrite length_app.
  replace (length exponents + length surplus <? length bases)%nat with false
    by (symmetry; apply Nat.ltb_ge; lia).
  replace (length exponents <? length bases)%nat with false
    by (symmetry; apply Nat.ltb_ge; lia).
  rewrite Hlen, take_app_length, firstn_all. done.
Qed.

Lemma multi_exp_inner_BDLO12_surplus_witness :
  @multi_exp_inner Z Z_group_4 scalar_64 sorting_heap
    multi_exp_method_BDLO12 [3; 5] ([6; 9] ++ [2 ^ 70; -1])
  = Some (@msm Z Z_group_4 [3; 5] [6; 9]).
Proof.
  apply (@multi_exp_inner_BDLO12_surplus Z Z_group_4 (Z_group_laws _)
           scalar_64 scalar_64_headroom sorting_heap).
  - reflexivity.
  - repeat constructor; vm_compute; discriminate || reflexivity.
  - vm_compute. discriminate.
Defined.

(** X9.  The Bos-Coster method returns the sum of [s_i * P_i]: for as many
    scalars as bases, the scalars below the modulus of the field, its
    [while (true)] loop ends, with that sum, provided [std::make_heap]
    returns a max-heap of the same nodes and (the class [Headroom])
    the field has [n] limbs with [1 <= n <= 2^32] and a
    modulus [p >= 2], and the wNAF table of the group has [k <= 29] entries
    with [p + 2^k <= 2^(64 n)]. *)
Theorem multi_exp_inner_bos_coster_sum {T : Type} `{GroupLaws T} `{Scalar}
    `{!Headroom T} `{StdHeapLaws} (vec : list T) (scalars : list Z) :
  length vec = length scalars -> Forall in_field scalars ->
  multi_exp_inner multi_exp_method_bos_coster vec scalars
  = Some (msm vec scalars).
Proof. intros. simpl. by apply multi_exp_inner_bos_coster_correct. Qed.

Lemma multi_exp_inner_bos_coster_sum_witness :
  @multi_exp_inner Z Z_group_4 scalar_64 sorting_heap
    multi_exp_method_bos_coster [3; 5; 7; 11] [2 ^ 60; 3; 5; 2 ^ 50]
  = Some (@msm Z Z_group_4 [3; 5; 7; 11] [2 ^ 60; 3; 5; 2 ^ 50]).
Proof.
  apply (@multi_exp_inner_bos_coster_sum Z Z_group_4 (Z_group_laws _)
           scalar_64 scalar_64_headroom sorting_heap sorting_heap_laws).
  - reflexivity.
  - repeat constructor; vm_compute; discriminate || reflexivity.
Defined.

(** X10.  The chunk count does not change the result of [multi_exp]: for
    at most [2^42] bases and as many scalars below the modulus of the field,
    every method and every two chunk counts of at least 1 (below, at or above
    the number of bases) the results are equal, and are the sum of
    [s_i * P_i], provided [std::make_heap] returns a max-heap of the same
    nodes and (the class [Headroom]) the field has [n] limbs with [1 <= n <= 2^32] and a
    modulus [p >= 2], and the wNAF table of the group has [k <= 29] entries
    with [p + 2^k <= 2^(64 n)]. *)
Theorem multi_exp_chunks_irrelevant {T : Type} `{GroupLaws T} `{Scalar}
    `{!Headroom T} `{StdHeapLaws} (Method : multi_exp_method)
    (vec : list T) (scalars : list Z) (chunks chunks' : nat) :
  length vec = length scalars -> Forall in_field scalars ->
  Z.of_nat (length vec) <= 2 ^ 42 ->
  (1 <= chunks)%nat -> (1 <= chunks')%nat ->
  multi_exp Method vec scalars chunks = Some (msm vec scalars) /\
  multi_exp Method vec scalars chunks' = multi_exp Method vec scalars chunks.
Proof.
  intros Hlen Hfield HL Hc Hc'.
  rewrite !multi_exp_correct by done. done.
Qed.

Lemma multi_exp_chunks_irrelevant_witness :
  @multi_exp Z Z_group_4 scalar_64 sorting_heap multi_exp_method_BDLO12
    [3; 5; 7; 11; 13] [9; 4; 2; 6; 1] 2
  = Some (@msm Z Z_group_4 [3; 5; 7; 11; 13] [9; 4; 2; 6; 1]) /\
  @multi_exp Z Z_group_4 scalar_64 sorting_heap multi_exp_method_BDLO12
    [3; 5; 7; 11; 13] [9; 4; 2; 6; 1] 7
  = @multi_exp Z Z_group_4 scalar_64 sorting_heap multi_exp_method_BDLO12
      [3; 5; 7; 11; 13] [9; 4; 2; 6; 1] 2.
Proof.
  apply (@multi_exp_chunks_irrelevant Z Z_group_4 (Z_group_laws _) scalar_64
           scalar_64_headroom sorting_heap sorting_heap_laws).
  - reflexivity.
  - repeat constructor; vm_compute; discriminate || reflexivity.
  - vm_compute. discriminate.
  - lia.
  - lia.
Defined.

(** What the loop of [multi_exp_with_mixed_addition] leaves, for integer
    scalars of any size. *)
Lemma mixed_addition_loop_filter {T : Type} `{GroupLaws T}
    (scalars : list Z) :
  forall (vec : list T) (acc : T) (p : list Z) (g : list T),
  length vec = length scalars -> length g = length p ->
  exists acc' g',
    mixed_addition_loop scalars vec (acc, p, g)
    = Some (acc', p ++ filter (fun s => s <> 0 /\ s <> 1) scalars, g') /\
    length g' = length (p ++ filter (fun s => s <> 0 /\ s <> 1) scalars) /\
    (acc' + msm g' (p ++ filter (fun s => s <> 0 /\ s <> 1) scalars))%G
    = (acc + msm g p + msm vec scalars)%G.
Proof.
  induction scalars as [|s scalars IH];
    intros [|v vec] acc p g Hlen Hgp; simplify_eq/=.
  - exists acc, g. rewrite app_nil_r. split_and!; try done. aac_reflexivity.
  - destruct (Z.eqb_spec s 0) as [->|Hs0];
      [|destruct (Z.eqb_spec s 1) as [->|Hs1]].
    + rewrite filter_cons_False by (intros [? _]; done).
      destruct (IH vec acc p g) as (acc' & g' & -> & ? & E); try done.
      exists acc', g'. split_and!; try done.
      rewrite E, gmul_0. aac_reflexivity.
    + rewrite filter_cons_False by (intros [_ ?]; done).
      destruct (IH vec (acc + v)%G p g) as (acc' & g' & -> & ? & E);
        try done.
      exists acc', g'. split_and!; try done.
      rewrite E, gmul_1. aac_reflexivity.
    + rewrite filter_cons_True by done.
      destruct (IH vec acc (p ++ [s]) (g ++ [v])) as (acc' & g' & E1 & ? & E);
        try done.
      { rewrite !length_app. simpl. lia. }
      rewrite <- !(assoc_L (++)) in *. simpl in *.
      exists acc', g'. split_and!; try done.
      rewrite E, msm_app by done. simpl. aac_reflexivity.
Qed.

(** X11.  The loop of [multi_exp_with_mixed_addition] forwards exactly the
    scalars other than 0 and 1, in their order and each with its base; the
    accumulator and the forwarded pairs together still stand for the sum of
    [s_i * P_i] over the whole input. *)
Theorem mixed_addition_loop_forwards {T : Type} `{GroupLaws T}
    (vec : list T) (scalars : list Z) :
  length vec = length scalars ->
  exists (acc : T) (g : list T),
    let p := filter (fun s => s <> 0 /\ s <> 1) scalars in
    mixed_addition_loop scalars vec (zero, [], []) = Some (acc, p, g) /\
    length g = length p /\
    (acc + msm g p)%G = msm vec scalars.
Proof.
  intros Hlen.
  destruct (mixed_addition_loop_filter scalars vec zero [] [])
    as (acc & g & E1 & Hl & E); try done.
  exists acc, g. simpl in *. split_and!; try done.
  rewrite E. aac_reflexivity.
Qed.

Lemma mixed_addition_loop_forwards_witness :
  exists (acc : Z) (g : list Z),
    let p := filter (fun s => s <> 0 /\ s <> 1) [1; 0; 5; 1; 9] in
    @mixed_addition_loop Z Z_group_4 [1; 0; 5; 1; 9] [3; 5; 7; 11; 13]
      (0, [], []) = Some (acc, p, g) /\
    length g = length p /\
    acc + @msm Z Z_group_4 g p = @msm Z Z_group_4 [3; 5; 7; 11; 13] [1; 0; 5; 1; 9].
Proof.
  apply (@mixed_addition_loop_forwards Z Z_group_4 (Z_group_laws _)
           [3; 5; 7; 11; 13] [1; 0; 5; 1; 9]).
  reflexivity.
Defined.

Lemma naive_plain_loop_T_sym {T : Type} `{Group T} (mul : T -> T -> T)
    (a : list T) :
  (forall x y, mul x y = mul y x) ->
  forall (b : list T) (result : T),
  naive_plain_loop_T mul result a b = naive_plain_loop_T mul result b a.
Proof.
  intros Hcomm. induction a as [|x a IH]; intros [|y b] result; simpl;
    try done.
  rewrite (Hcomm y x). apply IH.
Qed.

Lemma naive_plain_loop_T_Some {T : Type} `{Group T} (mul : T -> T -> T)
    (a : list T) :
  forall (b : list T) (result : T),
  is_Some (naive_plain_loop_T mul result a b) <-> length a = length b.
Proof.
  induction a as [|x a IH]; intros [|y b] result; simpl.
  - split; [done|by eexists].
  - split; [by intros [? ?]|done].
  - split; [by intros [? ?]|done].
  - rewrite IH. lia.
Qed.

(** X29.  [inner_product] is symmetric when the product of [T] commutes (the
    terms are added in the same order), and it returns a value exactly when
    the two vectors have the same length. *)
Theorem inner_product_sym {T : Type} `{Group T} (mul : T -> T -> T)
    (a b : list T) :
  (forall x y, mul x y = mul y x) ->
  inner_product mul a b = inner_product mul b a /\
  (is_Some (inner_product mul a b) <-> length a = length b).
Proof.
  intros Hcomm. split.
  - by apply naive_plain_loop_T_sym.
  - apply naive_plain_loop_T_Some.
Qed.

Lemma inner_product_sym_witness :
  @inner_product Z Z_group_4 Z.mul [3; 5; 7] [2; 4; 6]
  = @inner_product Z Z_group_4 Z.mul [2; 4; 6] [3; 5; 7] /\
  (is_Some (@inner_product Z Z_group_4 Z.mul [3; 5; 7] [2; 4; 6])
   <-> length [3; 5; 7] = length [2; 4; 6]).
Proof.
  apply (@inner_product_sym Z Z_group_4 Z.mul [3; 5; 7] [2; 4; 6]).
  intros x y. apply Z.mul_comm.
Defined.

(** ** Edge behaviour of the methods *)

Lemma max_num_bits_zeros (exps : list Z) :
  Forall (fun e => e = 0) exps ->
  foldl (fun m e => Z.max m (num_bits e)) 0 exps = 0.
Proof. induction 1 as [|e exps -> _ IH]; [done|]. simpl. exact IH. Qed.

(** X12.  BDLO12 on exponents that are all zero runs no window at all and
    returns its default-constructed [result], for any number of bases that
    fits [size_t] (and without any law of the group). *)
Theorem multi_exp_inner_BDLO12_zero_exponents {T : Type} `{Group T}
    `{Scalar} `{StdHeap} (bases : list T) (exponents : list Z) :
  (length bases <= length exponents)%nat ->
  Z.of_nat (length bases) < 2 ^ 64 ->
  Forall (fun e => e = 0) exponents ->
  multi_exp_inner multi_exp_method_BDLO12 bases exponents = Some T_default.
Proof.
  intros Hlen HL Hzero. simpl. unfold multi_exp_inner_BDLO12.
  rewrite (proj2 (Nat.ltb_ge _ _)) by lia.
  rewrite max_num_bits_zeros.
  2:{ apply list.Forall_fmap. apply Forall_take.
      eapply list.Forall_impl; [exact Hzero|]. by intros e ->. }
  pose proof (bdlo12_c_eq _ HL) as Hc.
  pose proof (log2_range (Z.of_nat (length bases)) 64 ltac:(lia) ltac:(lia))
    as Hl.
  set (c := bdlo12_c (Z.of_nat (length bases))) in *.
  assert (2 <= c <= 66) as Hcr by (Z.div_mod_to_equations; lia).
  rewrite size_t_small
    by (change (2 ^ 64) with 18446744073709551616; lia).
  rewrite Z.div_small by lia. done.
Qed.

Lemma multi_exp_inner_BDLO12_zero_exponents_witness :
  @multi_exp_inner Z Z_group_4 scalar_64 sorting_heap
    multi_exp_method_BDLO12 [3; 5; 7] [0; 0; 0; 0] = Some 0.
Proof.
  apply (@multi_exp_inner_BDLO12_zero_exponents Z Z_group_4 scalar_64
           sorting_heap [3; 5; 7] [0; 0; 0; 0]).
  - simpl. lia.
  - vm_compute. reflexivity.
  - repeat constructor.
Defined.

Lemma naive_loop_length {T : Type} `{Group T} `{Scalar} (vec : list T) :
  forall (scalars : list Z) (result : T),
  length vec <> length scalars -> naive_loop result vec scalars = None.
Proof.
  induction vec as [|v vec IH]; intros [|s scalars] result Hlen;
    simpl in *; try done.
  destruct (opt_window_wnaf_exp _ _ _ _); [|done].
  cbn [mbind option_bind]. apply IH. lia.
Qed.

(** X13.  With a number of scalars other than the number of bases the Naive
    method returns nothing (the loop leaves the scalars or
    [ASSERT(scalar_it == scalar_end)] fails), and so does Bos-Coster for two
    bases or more. *)
Theorem multi_exp_inner_length_mismatch {T : Type} `{Group T} `{Scalar}
    `{StdHeap} (vec : list T) (scalars : list Z) :
  length vec <> length scalars ->
  multi_exp_inner multi_exp_method_naive vec scalars = None /\
  ((2 <= length vec)%nat ->
   multi_exp_inner multi_exp_method_bos_coster vec scalars = None).
Proof.
  intros Hlen. split.
  - simpl. by apply naive_loop_length.
  - intros Hlen2. simpl.
    assert (bos_coster_init vec scalars = None) as Hinit.
    { unfold bos_coster_init.
      by rewrite (proj2 (Nat.eqb_neq (length scalars) (length vec)))
        by done. }
    destruct vec as [|v1 [|v2 vec]]; [simpl in Hlen2; lia..|].
    unfold multi_exp_inner_bos_coster. rewrite Hinit.
    by destruct scalars.
Qed.

Lemma multi_exp_inner_length_mismatch_witness :
  @multi_exp_inner Z Z_group_4 scalar_64 sorting_heap
    multi_exp_method_naive [3; 5] [6; 9; 2] = None /\
  ((2 <= length [3; 5])%nat ->
   @multi_exp_inner Z Z_group_4 scalar_64 sorting_heap
     multi_exp_method_bos_coster [3; 5] [6; 9; 2] = None).
Proof.
  apply (@multi_exp_inner_length_mismatch Z Z_group_4 scalar_64 sorting_heap
           [3; 5] [6; 9; 2]).
  simpl. lia.
Defined.

(** ** The windows of BDLO12 *)

(** X14.  For up to [2^42] bases the window width of BDLO12 lies between 2
    and 30: [(num_bits + c - 1) / c] does not divide by zero, and the [int]
    shift [1 << c] gives the [2^c] buckets. *)
Theorem bdlo12_c_bounds (L : Z) :
  L <= 2 ^ 42 ->
  2 <= bdlo12_c L <= 30 /\ size_t (shl_int 1 (bdlo12_c L)) = 2 ^ bdlo12_c L.
Proof.
  intros HL. pose proof (bdlo12_c_range L HL) as Hc. split; [done|].
  rewrite shl_int_small by lia. apply size_t_small.
  split; [apply Z.pow_nonneg; lia|apply Z.pow_lt_mono_r; lia].
Qed.

Lemma bdlo12_c_bounds_witness :
  2 <= bdlo12_c 1000000 <= 30 /\
  size_t (shl_int 1 (bdlo12_c 1000000)) = 2 ^ bdlo12_c 1000000.
Proof. apply (bdlo12_c_bounds 1000000). vm_compute. discriminate. Defined.

(** X15.  The bucket index BDLO12 gathers bit by bit for window [k] of the
    exponent [e] is the [k]-th digit of [e] in base [2^c], for a width [c] of
    at most 31 bits. *)
Theorem bdlo12_id_digit (c k e : Z) :
  0 <= c <= 31 -> 0 <= k ->
  bdlo12_id c k e = (e / 2 ^ (k * c)) mod 2 ^ c.
Proof. apply bdlo12_id_spec. Qed.

Lemma bdlo12_id_digit_witness :
  bdlo12_id 5 2 123456789 = (123456789 / 2 ^ (2 * 5)) mod 2 ^ 5.
Proof. apply (bdlo12_id_digit 5 2 123456789); lia. Defined.

(** ** The loop of Bos-Coster *)

(** X16.  "Heapify A down" followed by "heapify A up" restores the heap:
    whatever node [a] is put at the root of a heap of odd length of at least
    3, the two loops end inside the vector and leave a max-heap with the same
    nodes. *)
Theorem bos_coster_reheapify (odd_vec_len : nat)
    (opt_q : list ordered_exponent) (a : ordered_exponent) :
  length opt_q = odd_vec_len -> (odd_vec_len mod 2 = 1)%nat ->
  (3 <= odd_vec_len)%nat -> is_heap opt_q ->
  exists opt_q1 a_pos opt_q2,
    heapify_down odd_vec_len odd_vec_len (<[0%nat:=a]> opt_q) 0
    = Some (opt_q1, a_pos) /\
    heapify_up a_pos opt_q1 a_pos = Some opt_q2 /\
    opt_q2 ≡ₚ <[0%nat:=a]> opt_q /\ is_heap opt_q2.
Proof. apply reheapify_spec. Qed.

Lemma bos_coster_reheapify_witness :
  let opt_q := [OrderedExponent 0 9; OrderedExponent 3 6;
                OrderedExponent 1 4; OrderedExponent 2 2;
                OrderedExponent 4 0] in
  exists opt_q1 a_pos opt_q2,
    heapify_down 5 5 (<[0%nat:=OrderedExponent 0 3]> opt_q) 0
    = Some (opt_q1, a_pos) /\
    heapify_up a_pos opt_q1 a_pos = Some opt_q2 /\
    opt_q2 ≡ₚ <[0%nat:=OrderedExponent 0 3]> opt_q /\ is_heap opt_q2.
Proof.
  apply (bos_coster_reheapify 5); [reflexivity|reflexivity|lia|].
  intros i j x y [->| ->] Hi Hj;
    repeat (destruct i as [|i]; simplify_eq/=; try lia).
Defined.

(** X17.  The invariant of the main loop of Bos-Coster ("x A + y B =>
    (x-y) A + y (B+A)"), for two bases or more and as many scalars below the
    modulus of the field: in every state the loop reaches, [opt_result] plus
    the sum of [r * g[idx]] over the nodes of [opt_q] is the sum of
    [s_i * P_i] of the input; [opt_q] and [g] keep their [odd_vec_len]
    entries and the nodes name distinct entries of [g].  This is provided
    [std::make_heap] returns a max-heap of the same nodes and (the class
    [Headroom]) the field has [n] limbs with [1 <= n <= 2^32] and a
    modulus [p >= 2], and the wNAF table of the group has [k <= 29] entries
    with [p + 2^k <= 2^(64 n)]. *)
Theorem bos_coster_sum_invariant {T : Type} `{GroupLaws T} `{Scalar}
    `{!Headroom T} `{StdHeapLaws} (vec : list T) (scalars : list Z)
    (odd_vec_len : nat) (st0 : list ordered_exponent * list T * T)
    (opt_q : list ordered_exponent) (g : list T) (opt_result : T) :
  length vec = length scalars -> (2 <= length vec)%nat ->
  Forall in_field scalars ->
  bos_coster_init vec scalars = Some (odd_vec_len, st0) ->
  bos_coster_reachable odd_vec_len st0 (opt_q, g, opt_result) ->
  (opt_result + qsum g opt_q)%G = msm vec scalars /\
  length opt_q = odd_vec_len /\ length g = odd_vec_len /\
  NoDup (idx <$> opt_q) /\ Forall (fun e => (idx e < odd_vec_len)%nat) opt_q.
Proof.
  intros Hlen Hlen2 Hfield Hinit Hreach.
  destruct (bos_coster_init_spec vec scalars Hlen Hlen2 Hfield)
    as (len & st & Hinit' & Hinv0 & _).
  rewrite Hinit in Hinit'. injection Hinit' as <- <-.
  pose proof (bos_coster_reachable_inv _ _ _ _ Hinv0 Hreach)
    as (? & ? & _ & _ & _ & _ & ? & ? & ?).
  done.
Qed.

Lemma bos_coster_sum_invariant_witness :
  let opt_q := [OrderedExponent 3 6; OrderedExponent 0 3;
                OrderedExponent 1 4; OrderedExponent 2 2;
                OrderedExponent 4 0] in
  0 + @qsum Z Z_group_4 [3; 5; 7; 14; 0] opt_q
  = @msm Z Z_group_4 [3; 5; 7; 11] [9; 4; 2; 6] /\
  length opt_q = 5%nat /\ length [3; 5; 7; 14; 0] = 5%nat /\
  NoDup (idx <$> opt_q) /\ Forall (fun e => (idx e < 5)%nat) opt_q.
Proof.
  apply (@bos_coster_sum_invariant Z Z_group_4 (Z_group_laws _) scalar_64
           scalar_64_headroom sorting_heap sorting_heap_laws
           [3; 5; 7; 11] [9; 4; 2; 6] 5%nat
           ([OrderedExponent 0 9; OrderedExponent 3 6; OrderedExponent 1 4;
             OrderedExponent 2 2; OrderedExponent 4 0], [3; 5; 7; 11; 0], 0)).
  - reflexivity.
  - simpl. lia.
  - repeat constructor; vm_compute; discriminate || reflexivity.
  - reflexivity.
  - eapply reach_step; [apply reach_init|]. reflexivity.
Defined.

(** X18.  For two bases or more and as many scalars below the modulus of
    the field, every round of the main loop of Bos-Coster, from a state the
    loop reaches, reads inside [opt_q] and [g], and either leaves the loop
    with the sum of [s_i * P_i] or goes on with a sum of residuals that is
    smaller by at least 1: the loop ends.  This is provided [std::make_heap]
    returns a max-heap of the same nodes and (the class [Headroom])
    the field has [n] limbs with [1 <= n <= 2^32] and a
    modulus [p >= 2], and the wNAF table of the group has [k <= 29] entries
    with [p + 2^k <= 2^(64 n)]. *)
Theorem bos_coster_round_progress {T : Type} `{GroupLaws T} `{Scalar}
    `{!Headroom T} `{StdHeapLaws} (vec : list T) (scalars : list Z)
    (odd_vec_len : nat) (st0 st : list ordered_exponent * list T * T) :
  length vec = length scalars -> (2 <= length vec)%nat ->
  Forall in_field scalars ->
  bos_coster_init vec scalars = Some (odd_vec_len, st0) ->
  bos_coster_reachable odd_vec_len st0 st ->
  bos_coster_step odd_vec_len st = Some (inr (msm vec scalars)) \/
  exists st',
    bos_coster_step odd_vec_len st = Some (inl st') /\
    0 <= residual_sum st'.1.1 < residual_sum st.1.1.
Proof.
  intros Hlen Hlen2 Hfield Hinit Hreach.
  destruct (bos_coster_init_spec vec scalars Hlen Hlen2 Hfield)
    as (len & st1 & Hinit' & Hinv0 & _).
  rewrite Hinit in Hinit'. injection Hinit' as <- <-.
  pose proof (bos_coster_reachable_inv _ _ _ _ Hinv0 Hreach) as Hinv.
  destruct (bos_coster_step_spec _ _ _ Hinv) as [E|(st' & E & Hinv' & Hm)].
  - by left.
  - right. exists st'. split; [done|]. unfold bc_measure in Hm.
    destruct st' as [[q' g'] res']. destruct Hinv' as (_ & _ & _ & _ & _ & Hf & _).
    pose proof (residual_sum_nonneg q' Hf). simpl in *. lia.
Qed.

Lemma bos_coster_round_progress_witness :
  let st := ([OrderedExponent 0 9; OrderedExponent 3 6; OrderedExponent 1 4;
              OrderedExponent 2 2; OrderedExponent 4 0], [3; 5; 7; 11; 0], 0) in
  @bos_coster_step Z Z_group_4 scalar_64 5 st
  = Some (inr (@msm Z Z_group_4 [3; 5; 7; 11] [9; 4; 2; 6])) \/
  exists st',
    @bos_coster_step Z Z_group_4 scalar_64 5 st = Some (inl st') /\
    0 <= residual_sum st'.1.1 < residual_sum st.1.1.
Proof.
  apply (@bos_coster_round_progress Z Z_group_4 (Z_group_laws _) scalar_64
           scalar_64_headroom sorting_heap sorting_heap_laws
           [3; 5; 7; 11] [9; 4; 2; 6] 5%nat
           ([OrderedExponent 0 9; OrderedExponent 3 6; OrderedExponent 1 4;
             OrderedExponent 2 2; OrderedExponent 4 0], [3; 5; 7; 11; 0], 0)).
  - reflexivity.
  - simpl. lia.
  - repeat constructor; vm_compute; discriminate || reflexivity.
  - reflexivity.
  - apply reach_init.
Defined.

(** ** The window table and the batches *)

Lemma window_row_shape {T : Type} `{Group T} (gouter : T) (count : nat) :
  forall (inner : nat) (ginner : T) (row row' : list T),
  window_row count inner ginner gouter row = Some row' ->
  length row' = length row /\
  forall k, (inner + count <= k)%nat -> row' !! k = row !! k.
Proof.
  induction count as [|count IH]; intros inner ginner row row' E.
  - simpl in E. by simplify_eq.
  - cbn [window_row] in E. destruct (decide (inner < length row)%nat); [|done].
    apply IH in E as [Hlen Hrest]. rewrite length_insert in Hlen.
    split; [done|]. intros k Hk. rewrite Hrest by lia.
    by rewrite list_lookup_insert_ne by lia.
Qed.

Lemma window_rows_shape {T : Type} `{Group T}
    (outerc in_window last_in_window window : Z) (count : nat) :
  forall (outer : nat) (gouter : T) (tbl tbl' : list (list T)),
  window_rows count outer outerc in_window last_in_window window gouter tbl
  = Some tbl' ->
  length tbl' = length tbl /\
  forall o row', tbl' !! o = Some row' ->
    exists row, tbl !! o = Some row /\ length row' = length row /\
      forall k, (Z.to_nat (if (Z.of_nat o =? size_t (outerc - 1))%Z
                           then last_in_window else in_window) <= k)%nat ->
                row' !! k = row !! k.
Proof.
  induction count as [|count IH]; intros outer gouter tbl tbl' E.
  - simpl in E. simplify_eq. split; [done|]. intros o row' Ho. by exists row'.
  - cbn [window_rows] in E.
    destruct (tbl !! outer) as [row|] eqn:Hrow; [|done].
    cbn [mbind option_bind] in E.
    destruct (window_row _ 0 zero gouter row) as [row1|] eqn:E1; [|done].
    cbn [mbind option_bind] in E.
    apply window_row_shape in E1 as [Hlen1 Hrest1].
    apply IH in E as [Hlen Hrows]. rewrite length_insert in Hlen.
    split; [done|]. intros o row' Ho.
    destruct (Hrows o row' Ho) as (row0 & Ho0 & Hl0 & Hk0).
    destruct (decide (o = outer)) as [->|Hne].
    + apply lookup_lt_Some in Hrow as Hlt.
      rewrite list_lookup_insert_eq in Ho0 by done. simplify_eq.
      exists row. split; [done|]. split; [lia|].
      intros k Hk. rewrite Hk0 by done. apply Hrest1. lia.
    + rewrite list_lookup_insert_ne in Ho0 by done. by exists row0.
Qed.

(** X19.  The shape of the table of [get_window_table]: it has
    [ceil(scalar_size / window)] rows of [2^window] entries each, the last
    row included; the entries past the filled ones ([2^window] of them in a
    row, fewer in the last) are the [T::zero()] the table starts with. *)
Theorem get_window_table_shape {T : Type} `{GroupLaws T}
    (scalar_size window : Z) (g : T) :
  1 <= window <= 63 -> 1 <= scalar_size -> scalar_size + window <= 2 ^ 64 ->
  exists powers_of_g,
    get_window_table scalar_size window g = Some powers_of_g /\
    Z.of_nat (length powers_of_g) = (scalar_size + window - 1) / window /\
    forall (o : nat) row, powers_of_g !! o = Some row ->
      Z.of_nat (length row) = 2 ^ window /\
      forall (k : nat) x, row !! k = Some x ->
        cur_in_window scalar_size window (Z.of_nat o) <= Z.of_nat k ->
        x = zero.
Proof.
  intros Hw Hsize Hwrap.
  destruct (get_window_table_spec scalar_size window g Hw Hsize Hwrap)
    as (tbl & E & _).
  exists tbl. split; [done|].
  pose proof (Z.div_mod (scalar_size + window - 1) window ltac:(lia)) as Hdm.
  pose proof (Z.mod_pos_bound (scalar_size + window - 1) window ltac:(lia)).
  set (outerc := (scalar_size + window - 1) / window) in *.
  assert (1 <= outerc <= scalar_size) as Houterc by nia.
  assert (1 <= scalar_size - (outerc - 1) * window <= window) as Hlast by nia.
  assert (0 < 2 ^ window) by (apply Z.pow_pos_nonneg; lia).
  unfold get_window_table in E.
  rewrite (proj2 (Z.eqb_neq window 0)) in E by lia.
  change (2 ^ 64) with 18446744073709551616 in *.
  rewrite (size_t_small (scalar_size + window - 1)) in E
    by (change (2 ^ 64) with 18446744073709551616; lia).
  fold outerc in E.
  rewrite (size_t_small (outerc - 1)) in E
    by (change (2 ^ 64) with 18446744073709551616; lia).
  rewrite (size_t_small ((outerc - 1) * window)) in E
    by (change (2 ^ 64) with 18446744073709551616; nia).
  rewrite (size_t_small (scalar_size - (outerc - 1) * window)) in E
    by (change (2 ^ 64) with 18446744073709551616; lia).
  rewrite !shl_ulong_small in E by lia.
  apply window_rows_shape in E as [Hlen Hrows].
  rewrite length_replicate in Hlen. split; [lia|].
  intros o row Ho. destruct (Hrows o row Ho) as (row0 & Ho0 & Hl0 & Hk0).
  apply lookup_replicate_1 in Ho0 as [-> Holt].
  rewrite length_replicate in Hl0. split; [lia|].
  intros k x Hk Hcur.
  rewrite (size_t_small (outerc - 1)) in Hk0
    by (change (2 ^ 64) with 18446744073709551616; lia).
  unfold cur_in_window in Hcur. fold outerc in Hcur.
  rewrite Hk0 in Hk.
  - by apply lookup_replicate_1 in Hk as [-> _].
  - destruct (Z.of_nat o =? outerc - 1); lia.
Qed.

Lemma get_window_table_shape_witness :
  exists powers_of_g,
    @get_window_table Z Z_group_4 10 3 1 = Some powers_of_g /\
    Z.of_nat (length powers_of_g) = (10 + 3 - 1) / 3 /\
    forall (o : nat) row, powers_of_g !! o = Some row ->
      Z.of_nat (length row) = 2 ^ 3 /\
      forall (k : nat) x, row !! k = Some x ->
        cur_in_window 10 3 (Z.of_nat o) <= Z.of_nat k ->
        x = 0.
Proof.
  apply (@get_window_table_shape Z Z_group_4 (Z_group_laws _) 10 3 1).
  - lia.
  - lia.
  - vm_compute. discriminate.
Defined.

(** X20.  The index [windowed_exp] gathers bit by bit for the row [outer] is
    the digit of the scalar at that place in base [2^window], for a window
    of at most 32 bits ([1u << i] is an [unsigned int]). *)
Theorem window_inner_digit (window outer pow_val : Z) :
  1 <= window <= 32 -> 0 <= outer ->
  window_inner window outer pow_val
  = (pow_val / 2 ^ (outer * window)) mod 2 ^ window.
Proof.
  intros Hw Houter. unfold window_inner.
  apply (gather_bits (fun i => shl_uint 1 i)); [|nia|lia].
  intros j Hj. apply shl_uint_small. lia.
Qed.

Lemma window_inner_digit_witness :
  window_inner 3 2 1000 = (1000 / 2 ^ (2 * 3)) mod 2 ^ 3.
Proof. apply (window_inner_digit 3 2 1000); lia. Defined.

Lemma exp_window_scan_range (rev_table : list Z) (num_scalars : Z) :
  1 <= exp_window_scan rev_table num_scalars
  <= Z.max 1 (Z.of_nat (length rev_table)).
Proof.
  induction rev_table as [|t rest IH]; cbn [exp_window_scan length]; [lia|].
  destruct (negb (t =? 0) && (num_scalars >=? t)); lia.
Qed.

Lemma exp_window_scan_spec (table : list Z) (num_scalars : Z) :
  ((forall (i : nat) t, table !! i = Some t -> t = 0 \/ num_scalars < t) /\
   exp_window_scan (reverse table) num_scalars = 1) \/
  (exists (i : nat) (t : Z),
     table !! i = Some t /\ t <> 0 /\ t <= num_scalars /\
     (forall (j : nat) t', (i < j)%nat -> table !! j = Some t' ->
        t' = 0 \/ num_scalars < t') /\
     exp_window_scan (reverse table) num_scalars = Z.of_nat i + 1).
Proof.
  induction table as [|t table IH] using rev_ind.
  - left. by split.
  - assert (forall (n : nat) t', (table ++ [t]) !! n = Some t' ->
              ~ (n < length table)%nat -> t' = t) as Hlast.
    { intros n t' Hl Hn. rewrite lookup_app_r in Hl by lia.
      destruct (n - length table)%nat; [|done]. by simplify_eq/=. }
    rewrite reverse_snoc. cbn [exp_window_scan].
    destruct (negb (t =? 0) && (num_scalars >=? t)) eqn:Hc.
    + apply andb_true_iff in Hc as [Hc1%negb_true_iff%Z.eqb_neq Hc2%Z.geb_le].
      right. exists (length table), t. split_and!.
      * by apply list_lookup_middle.
      * done.
      * done.
      * intros j t' Hj Hl. apply lookup_lt_Some in Hl.
        rewrite length_app in Hl. simpl in Hl. lia.
      * cbn [length]. rewrite length_reverse. lia.
    + assert (t = 0 \/ num_scalars < t) as Ht.
      { apply andb_false_iff in Hc as [Hc%negb_false_iff%Z.eqb_eq|Hc].
        - by left.
        - right. destruct (Z.geb_spec num_scalars t); [done|lia]. }
      destruct IH as [[Hall E]|(i & t0 & Hi & Ht0 & Hle & Hlater & E)].
      * left. split; [|done]. intros i t' Hl.
        destruct (decide (i < length table)%nat) as [Hlt|Hge].
        -- rewrite lookup_app_l in Hl by done. by eapply Hall.
        -- by rewrite (Hlast i t' Hl Hge).
      * right. exists i, t0. split_and!; try done.
        -- by apply lookup_app_l_Some.
        -- intros j t' Hj Hl.
           destruct (decide (j < length table)%nat) as [Hlt|Hge].
           ++ rewrite lookup_app_l in Hl by done. by eapply Hlater.
           ++ by rewrite (Hlast j t' Hl Hge).
Qed.

(** X21.  The window [get_exp_window_size] returns for a non-empty table
    is between 1 and the size of the table: it is [i + 1] for the last index
    [i] whose entry is not 0 and at most [num_scalars], and 1 when there is
    no such entry. *)
Theorem get_exp_window_size_spec (fixed_base_exp_window_table : list Z)
    (num_scalars : Z) :
  fixed_base_exp_window_table <> [] ->
  1 <= get_exp_window_size fixed_base_exp_window_table num_scalars
    <= Z.of_nat (length fixed_base_exp_window_table) /\
  (((forall (i : nat) t, fixed_base_exp_window_table !! i = Some t ->
       t = 0 \/ num_scalars < t) /\
    get_exp_window_size fixed_base_exp_window_table num_scalars = 1) \/
   (exists (i : nat) (t : Z),
      fixed_base_exp_window_table !! i = Some t /\ t <> 0 /\
      t <= num_scalars /\
      (forall (j : nat) t', (i < j)%nat ->
         fixed_base_exp_window_table !! j = Some t' ->
         t' = 0 \/ num_scalars < t') /\
      get_exp_window_size fixed_base_exp_window_table num_scalars
      = Z.of_nat i + 1)).
Proof.
  intros Hne. unfold get_exp_window_size.
  destruct fixed_base_exp_window_table as [|t0 table] eqn:Etable; [done|].
  rewrite <- Etable in *. clear Etable. split.
  - pose proof (exp_window_scan_range (reverse fixed_base_exp_window_table)
                  num_scalars) as Hr.
    rewrite length_reverse in Hr.
    destruct fixed_base_exp_window_table; [done|]. simpl length in *. lia.
  - apply exp_window_scan_spec.
Qed.

Lemma get_exp_window_size_spec_witness :
  1 <= get_exp_window_size [1; 5; 0; 40; 100] 50 <= Z.of_nat 5 /\
  (((forall (i : nat) t, [1; 5; 0; 40; 100] !! i = Some t ->
       t = 0 \/ 50 < t) /\
    get_exp_window_size [1; 5; 0; 40; 100] 50 = 1) \/
   (exists (i : nat) (t : Z),
      [1; 5; 0; 40; 100] !! i = Some t /\ t <> 0 /\ t <= 50 /\
      (forall (j : nat) t', (i < j)%nat ->
         [1; 5; 0; 40; 100] !! j = Some t' -> t' = 0 \/ 50 < t') /\
      get_exp_window_size [1; 5; 0; 40; 100] 50 = Z.of_nat i + 1)).
Proof. apply (get_exp_window_size_spec [1; 5; 0; 40; 100] 50). discriminate. Defined.

Lemma exp_window_scan_mono (rev_table : list Z) (n n' : Z) :
  n <= n' -> exp_window_scan rev_table n <= exp_window_scan rev_table n'.
Proof.
  intros Hn. induction rev_table as [|t rest IH]; cbn [exp_window_scan]; [lia|].
  pose proof (exp_window_scan_range rest n) as Hr. cbn [length].
  destruct (Z.eqb_spec t 0); cbn [negb andb]; [done|].
  destruct (Z.geb_spec n t), (Z.geb_spec n' t); lia.
Qed.

(** X22.  More scalars never get a smaller window: [get_exp_window_size] is
    monotone in [num_scalars], for any table. *)
Theorem get_exp_window_size_mono (fixed_base_exp_window_table : list Z)
    (num_scalars num_scalars' : Z) :
  num_scalars <= num_scalars' ->
  get_exp_window_size fixed_base_exp_window_table num_scalars
  <= get_exp_window_size fixed_base_exp_window_table num_scalars'.
Proof.
  intros Hn. unfold get_exp_window_size.
  destruct fixed_base_exp_window_table; [lia|].
  by apply exp_window_scan_mono.
Qed.

Lemma get_exp_window_size_mono_witness :
  get_exp_window_size [1; 5; 0; 40; 100] 7
  <= get_exp_window_size [1; 5; 0; 40; 100] 50.
Proof. apply (get_exp_window_size_mono [1; 5; 0; 40; 100] 7 50). lia. Defined.

Lemma batch_loop_spec {T : Type} `{Group T} (f : Z -> option T) (h : Z -> T)
    (v : list Z) :
  forall (i : nat) (res : list T),
  Forall (fun s => f s = Some (h s)) v ->
  length res = (i + length v)%nat ->
  batch_loop f v i res = Some (take i res ++ (h <$> v)).
Proof.
  induction v as [|s v IH]; intros i res Hf Hlen; simpl in *.
  - rewrite app_nil_r, take_ge by lia. done.
  - rewrite (Forall_inv Hf). cbn [mbind option_bind].
    rewrite decide_True by lia.
    rewrite IH; [|by eapply Forall_inv_tail|rewrite length_insert; lia].
    f_equal.
    rewrite (take_S_r _ _ (h s)) by (apply list_lookup_insert_eq; lia).
    rewrite take_insert_ge by lia. by rewrite <- (assoc_L (++)).
Qed.

Lemma batch_loop_fmap {T : Type} `{Group T} (f : Z -> option T)
    (h : Z -> Z) (v : list Z) :
  forall (i : nat) (res : list T),
  batch_loop (fun vi => f (h vi)) v i res = batch_loop f (h <$> v) i res.
Proof.
  induction v as [|s v IH]; intros i res; simpl; [done|].
  destruct (f (h s)); [|done]. cbn [mbind option_bind].
  destruct (decide (i < length res)%nat); [apply IH|done].
Qed.

(** X23.  [batch_exp] on the table of [get_window_table] for [G] returns
    [s * G] for each scalar [s] of the vector, in its place, when the scalars
    have at most [scalar_size] bits (window of at most 32 bits, no wrap of
    [scalar_size + window]). *)
Theorem batch_exp_correct {T : Type} `{GroupLaws T}
    (scalar_size window : Z) (g : T) (table : list (list T)) (v : list Z) :
  1 <= window <= 32 -> 1 <= scalar_size -> scalar_size + window <= 2 ^ 64 ->
  get_window_table scalar_size window g = Some table ->
  Forall (fun s => 0 <= s /\ num_bits s <= scalar_size) v ->
  batch_exp scalar_size window table v = Some ((fun s => gmul s g) <$> v).
Proof.
  intros Hw Hsize Hwrap Htable Hv.
  destruct (get_window_table_spec scalar_size window g) as (tbl & E & Hfilled);
    [lia|lia|lia|].
  rewrite Htable in E. injection E as <-.
  unfold batch_exp.
  assert (table !! 0%nat ≫= (.!! 0%nat) = Some zero) as ->.
  { rewrite (Hfilled 0%nat 0%nat).
    - by rewrite Z.mul_0_l, gmul_0.
    - change (Z.of_nat 0) with 0. apply Z.div_str_pos. lia.
    - change (Z.of_nat 0) with 0. unfold cur_in_window.
      destruct (0 =? _); apply Z.pow_pos_nonneg; try lia.
      pose proof (Z.div_mod (scalar_size + window - 1) window ltac:(lia)).
      pose proof (Z.mod_pos_bound (scalar_size + window - 1) window
                    ltac:(lia)).
      nia. }
  cbn [mbind option_bind].
  rewrite (batch_loop_spec _ (fun s => gmul s g)).
  - done.
  - eapply Forall_impl; [|exact Hv]. intros s [Hs0 Hbits]. simpl.
    apply (windowed_exp_spec scalar_size window g); try done; try lia.
    split; [done|]. apply num_bits_le; lia.
  - by rewrite length_replicate.
Qed.

Lemma batch_exp_correct_witness :
  exists table,
    @get_window_table Z Z_group_4 10 3 7 = Some table /\
    @batch_exp Z Z_group_4 10 3 table [1000; 0; 513]
    = Some ((fun s => @gmul Z Z_group_4 s 7) <$> [1000; 0; 513]).
Proof.
  eexists. split; [reflexivity|].
  apply (@batch_exp_correct Z Z_group_4 (Z_group_laws _) 10 3 7).
  - lia.
  - lia.
  - vm_compute. discriminate.
  - reflexivity.
  - repeat constructor; vm_compute; discriminate.
Defined.

(** X24.  [batch_exp_with_coeff] is [batch_exp] on the products
    [coeff * v[i]], for every table and every vector: the results agree also
    where they are not defined. *)
Theorem batch_exp_with_coeff_batch_exp {T : Type} `{Group T}
    (field_mul : Z -> Z -> Z) (scalar_size window : Z)
    (table : list (list T)) (coeff : Z) (v : list Z) :
  batch_exp_with_coeff field_mul scalar_size window table coeff v
  = batch_exp scalar_size window table (field_mul coeff <$> v).
Proof.
  unfold batch_exp_with_coeff, batch_exp.
  destruct (table !! 0%nat ≫= (.!! 0%nat)) as [t00|]; [|done].
  cbn [mbind option_bind]. rewrite length_fmap.
  apply (batch_loop_fmap (windowed_exp scalar_size window table)).
Qed.

(** ** Batch conversion to the special form *)

Lemma batch_to_special_refill_spec {T : Type} `{Special T}
    (R : T -> T -> Prop) (zero_special : T) (vec : list T) :
  forall it : list T,
  Forall2 R (List.filter (fun x => negb (T_is_zero x)) vec) it ->
  (forall x, T_is_zero x = true -> R x zero_special) ->
  exists out,
    batch_to_special_refill vec it zero_special = Some out /\
    Forall2 R vec out.
Proof.
  induction vec as [|x vec IH]; intros it Hit Hzero; simpl in *.
  - exists []. by split.
  - destruct (T_is_zero x) eqn:Hx; simpl in *.
    + destruct (IH it Hit Hzero) as (out & -> & Hout).
      exists (zero_special :: out). split; [done|]. constructor; [|done].
      by apply Hzero.
    + inversion Hit as [|x' y vec' it' Hxy Hrest]; subst.
      destruct (IH it' Hrest Hzero) as (out & -> & Hout).
      exists (y :: out). split; [done|]. by constructor.
Qed.

(** X25.  [batch_to_special] keeps every element in its place: when
    [batch_to_special_all_non_zeros] relates each non-zero element to its
    conversion, by whatever relation, and that relation holds between a zero
    element and the special form of [T::zero()], the vector after
    [batch_to_special] is related to the vector before, entry by entry (the
    iterator [it] never runs past [non_zero_vec]). *)
Theorem batch_to_special_pointwise {T : Type} `{Group T} `{Special T}
    (R : T -> T -> Prop) (vec : list T) :
  Forall2 R (List.filter (fun x => negb (T_is_zero x)) vec)
    (batch_to_special_all_non_zeros
       (List.filter (fun x => negb (T_is_zero x)) vec)) ->
  (forall x, T_is_zero x = true -> R x (to_special zero)) ->
  exists out, batch_to_special vec = Some out /\ Forall2 R vec out.
Proof. intros Hbatch Hzero. by apply batch_to_special_refill_spec. Qed.

Lemma batch_to_special_pointwise_witness :
  let R := fun a b : Z * Z => a.1 * a.2 = b.1 * b.2 /\ b.2 = 1 in
  exists out,
    @batch_to_special (Z * Z) signed_group signed_special
      [(3, -1); (0, -1); (5, 1); (0, 1); (-2, -1)] = Some out /\
    Forall2 R [(3, -1); (0, -1); (5, 1); (0, 1); (-2, -1)] out.
Proof.
  apply (@batch_to_special_pointwise (Z * Z) signed_group signed_special
           (fun a b : Z * Z => a.1 * a.2 = b.1 * b.2 /\ b.2 = 1)
           [(3, -1); (0, -1); (5, 1); (0, 1); (-2, -1)]).
  - repeat constructor.
  - intros [x z] Hx. simpl in *. apply Z.eqb_eq in Hx. subst. split; reflexivity.
Defined.

(** ** Square-and-multiply exponentiation *)

Import Exponentiation.

Lemma Z_field_laws : @FieldLaws Z Z_field.
Proof. split; simpl; intros; lia. Qed.

Section PowerFacts.
Context {FieldT : Type} `{FieldLaws FieldT}.

Lemma pow_n_add (x : FieldT) (a b : nat) :
  pow_n x (a + b) = mul (pow_n x a) (pow_n x b).
Proof.
  induction a as [|a IH]; simpl.
  - by rewrite mul_one_l.
  - by rewrite IH, mul_assoc.
Qed.

Lemma pow_n_S_r (x : FieldT) (a : nat) : pow_n x (S a) = mul (pow_n x a) x.
Proof.
  replace (S a) with (a + 1)%nat by lia. rewrite pow_n_add. simpl.
  by rewrite mul_one_r.
Qed.

Lemma pow_n_mul (x : FieldT) (a b : nat) :
  pow_n (pow_n x a) b = pow_n x (a * b).
Proof.
  induction b as [|b IH]; simpl.
  - by rewrite Nat.mul_0_r.
  - rewrite IH, <- pow_n_add. f_equal. lia.
Qed.

(** The loop invariant of [power]: with [count] bits left, [result] is the
    power for the bits above them, and [found_one] tells whether one of
    those is set. *)
Lemma power_loop_spec (base : FieldT) (e : Z) (count : nat) :
  0 <= e -> Z.of_nat count <= 2 ^ 63 ->
  power_loop base e count
    (pow_n base (Z.to_nat (e / 2 ^ Z.of_nat count)),
     0 <? e / 2 ^ Z.of_nat count)
  = (pow_n base (Z.to_nat e), 0 <? e).
Proof.
  intros He. induction count as [|i IH]; intros Hcount.
  - simpl. by rewrite Z.div_1_r.
  - cbn [power_loop]. rewrite <- IH by lia. f_equal.
    set (hi := e / 2 ^ Z.of_nat (S i)). set (lo := e / 2 ^ Z.of_nat i).
    assert (0 < 2 ^ Z.of_nat i) by (apply Z.pow_pos_nonneg; lia).
    assert (hi = lo / 2) as Hhi.
    { unfold hi, lo. rewrite Nat2Z.inj_succ, Z.pow_succ_r by lia.
      rewrite (Z.mul_comm 2), Z.div_div by lia. done. }
    assert (0 <= lo) by (apply Z.div_pos; lia).
    assert (0 <= hi) by (rewrite Hhi; apply Z.div_pos; lia).
    pose proof (Z.testbit_spec' e (Z.of_nat i) ltac:(lia)) as Hbit.
    fold lo in Hbit.
    pose proof (Z.div_mod lo 2 ltac:(lia)) as Hdm. rewrite <- Hhi in Hdm.
    unfold power_step, test_bit.
    rewrite size_t_small
      by (change (2 ^ 64) with 18446744073709551616;
          change (2 ^ 63) with 9223372036854775808 in Hcount; lia).
    assert ((if 0 <? hi then mul (pow_n base (Z.to_nat hi))
                                 (pow_n base (Z.to_nat hi))
             else pow_n base (Z.to_nat hi))
            = pow_n base (Z.to_nat (2 * hi))) as ->.
    { replace (Z.to_nat (2 * hi)) with (Z.to_nat hi + Z.to_nat hi)%nat by lia.
      destruct (Z.ltb_spec 0 hi); [by rewrite pow_n_add|].
      by replace hi with 0 by lia. }
    destruct (Z.testbit e (Z.of_nat i)); simpl in Hbit.
    + replace lo with (2 * hi + 1) by lia.
      replace (Z.to_nat (2 * hi + 1)) with (S (Z.to_nat (2 * hi))) by lia.
      rewrite pow_n_S_r. f_equal. symmetry. apply Z.ltb_lt. lia.
    + replace lo with (2 * hi) by lia. f_equal.
      destruct (Z.ltb_spec 0 hi), (Z.ltb_spec 0 (2 * hi)); done || lia.
Qed.

Lemma power_spec (m : Z) (base : FieldT) (e : Z) :
  0 <= m <= 2 ^ 57 -> 0 <= e < 2 ^ (64 * m) ->
  power m base e = pow_n base (Z.to_nat e).
Proof.
  intros Hm He. unfold power.
  assert (Z.to_nat (swrap 64 (size_t (max_bits m - 1)) + 1)
          = Z.to_nat (64 * m)) as ->.
  { unfold max_bits, limb_bits, swrap, size_t, wrap.
    change (2 ^ 57) with 144115188075855872 in Hm.
    change (2 ^ (64 - 1)) with 9223372036854775808.
    change (2 ^ 64) with 18446744073709551616.
    destruct (decide (m = 0)) as [->|Hm0]; [done|].
    rewrite (Z.mod_small (m * 64 - 1)) by lia.
    rewrite Z.mod_small by lia. f_equal. lia. }
  pose proof (power_loop_spec base e (Z.to_nat (64 * m)) ltac:(lia)) as Hloop.
  rewrite Z2Nat.id in Hloop by lia.
  rewrite Z.div_small in Hloop by lia.
  change (pow_n base (Z.to_nat 0), 0 <? 0) with (@one FieldT _, false) in Hloop.
  rewrite Hloop; [done|].
  change (2 ^ 57) with 144115188075855872 in Hm.
  change (2 ^ 63) with 9223372036854775808. lia.
Qed.

End PowerFacts.

(** X26.  [power] computes the power: for an exponent [e] of [m] limbs it
    returns the product of [e] copies of [base] ([one] for [e = 0]), by the
    laws of a monoid alone (the product need not commute). *)
Theorem power_correct {FieldT : Type} `{FieldLaws FieldT}
    (m : Z) (base : FieldT) (exponent : Z) :
  0 <= m <= 2 ^ 57 -> 0 <= exponent < 2 ^ (64 * m) ->
  power m base exponent = pow_n base (Z.to_nat exponent).
Proof. apply power_spec. Qed.

Lemma power_correct_witness :
  @power Z Z_field 2 3 40 = @pow_n Z Z_field 3 (Z.to_nat 40).
Proof.
  apply (@power_correct Z Z_field Z_field_laws 2 3 40).
  - vm_compute. split; discriminate.
  - vm_compute. split; [discriminate|reflexivity].
Defined.

(** X27.  [power] with an [unsigned long] exponent turns sums of exponents
    into products: [power(x, a + b) = power(x, a) * power(x, b)] when
    [a + b] is an [unsigned long]. *)
Theorem power_ulong_add {FieldT : Type} `{FieldLaws FieldT}
    (base : FieldT) (a b : Z) :
  0 <= a -> 0 <= b -> a + b < 2 ^ 64 ->
  power_ulong base (a + b) = mul (power_ulong base a) (power_ulong base b).
Proof.
  intros Ha Hb Hab. unfold power_ulong.
  change (2 ^ 64) with (2 ^ (64 * 1)) in Hab.
  rewrite !power_spec by (done || lia).
  rewrite Z2Nat.inj_add by lia. apply pow_n_add.
Qed.

Lemma power_ulong_add_witness :
  @power_ulong Z Z_field 3 (5 + 7)
  = @power_ulong Z Z_field 3 5 * @power_ulong Z Z_field 3 7.
Proof.
  apply (@power_ulong_add Z Z_field Z_field_laws 3 5 7).
  - lia.
  - lia.
  - vm_compute. reflexivity.
Defined.

(** X28.  Powers of powers: [power(power(x, a), b) = power(x, a * b)] for
    exponents [a], [b] of [m] limbs whose product has [m] limbs. *)
Theorem power_power {FieldT : Type} `{FieldLaws FieldT}
    (m : Z) (base : FieldT) (a b : Z) :
  0 <= m <= 2 ^ 57 -> 0 <= a < 2 ^ (64 * m) -> 0 <= b < 2 ^ (64 * m) ->
  a * b < 2 ^ (64 * m) ->
  power m (power m base a) b = power m base (a * b).
Proof.
  intros Hm Ha Hb Hab.
  rewrite (power_spec m base a), (power_spec m _ b) by done.
  assert (0 <= a * b < 2 ^ (64 * m)) by (split; [nia|done]).
  rewrite (power_spec m base (a * b)) by done.
  rewrite pow_n_mul. f_equal. lia.
Qed.

Lemma power_power_witness :
  @power Z Z_field 1 (@power Z Z_field 1 3 5) 7 = @power Z Z_field 1 3 (5 * 7).
Proof.
  apply (@power_power Z Z_field Z_field_laws 1 3 5 7).
  - vm_compute. split; discriminate.
  - vm_compute. split; [discriminate|reflexivity].
  - vm_compute. split; [discriminate|reflexivity].
  - vm_compute. reflexivity.
Defined.
